(** * yr-data-store: a shallow embedding of the store, its handler pipeline
      and its fetch engine

    Sources embedded here:
    - [lib/DataStore.js]          (store, handler registry, routing, key resolution)
    - [lib/HandlerContext.js]     (the per-call context handed to handlers)
    - [lib/methods/set.js]        (the bound implementation of [set])
    - [lib/methods/fetch.js]      (fetch, fetchAll, doFetch, load, getExpiry, hasExpired)
    - [lib/FetchableDataStore.js] (fetch, abort, destroy of the fetch-capable store)

    JavaScript values are modelled by the inductive [value]; plain objects are
    association lists in property order; numbers are integers (timestamps in
    milliseconds) with a separate [VNaN]. *)

From Stdlib Require Import ZArith Lia Bool Ascii.
From stdpp Require Import base option list strings pretty.

Open Scope string_scope.
Open Scope list_scope.

Set Warnings "-register-all".

(** ** JavaScript values *)

Inductive value : Type :=
| VUndefined
| VNull
| VBool (b : bool)
| VNum (n : Z)
| VNaN
| VStr (s : string)
| VArr (items : list value)
| VObj (fields : list (string * value))
| VFun (fid : nat)          (* a function, identified by reference *)
| VRegExp (rid : nat)       (* a RegExp object, identified by reference *)
| VStore.                   (* a reference to the owning DataStore instance *)

(** Plain objects: own enumerable properties in insertion order, which is
    the order [for..in] and [Object.keys] visit them in as long as no name is
    an integer index (those are visited first, in ascending order). *)
Abbreviation props := (list (string * value)).

(** [!v] is [negb (truthy v)]. *)
Definition truthy (v : value) : bool :=
  match v with
  | VUndefined | VNull | VNaN => false
  | VBool b => b
  | VNum n => negb (n =? 0)%Z
  | VStr s => negb (String.eqb s "")
  | VArr _ | VObj _ | VFun _ | VRegExp _ | VStore => true
  end.

Definition isPlainObject (v : value) : bool :=
  match v with VObj _ => true | _ => false end.

Definition isArray (v : value) : bool :=
  match v with VArr _ => true | _ => false end.

Definition isFunction (v : value) : bool :=
  match v with VFun _ => true | _ => false end.

Definition isString (v : value) : bool :=
  match v with VStr _ => true | _ => false end.

(** [v == null] *)
Definition isNullish (v : value) : bool :=
  match v with VUndefined | VNull => true | _ => false end.

(** ** Objects as ordered property lists *)

Fixpoint obj_get (o : props) (k : string) : option value :=
  match o with
  | [] => None
  | (k', v) :: o' => if String.eqb k' k then Some v else obj_get o' k
  end.

(** [o[k] = v]: overwrite in place, or append a new property. *)
Fixpoint obj_set (o : props) (k : string) (v : value) : props :=
  match o with
  | [] => [(k, v)]
  | (k', v') :: o' =>
      if String.eqb k' k then (k', v) :: o' else (k', v') :: obj_set o' k v
  end.

(** [k in o] for own properties. *)
Definition obj_has (o : props) (k : string) : bool :=
  match obj_get o k with Some _ => true | None => false end.

(** [o[k]] on an object: [undefined] when the property is absent.  Inherited
    properties of [Object.prototype] are not represented. *)
Definition obj_read (o : props) (k : string) : value :=
  match obj_get o k with Some v => v | None => VUndefined end.

(** The names every plain object answers to through [Object.prototype]:
    reading one of them on an object that has no such property of its own
    yields the inherited member, which the model does not represent. *)
Definition Object_prototype_names : list string :=
  ["constructor"; "hasOwnProperty"; "isPrototypeOf"; "propertyIsEnumerable";
   "toLocaleString"; "toString"; "valueOf"; "__proto__";
   "__defineGetter__"; "__defineSetter__"; "__lookupGetter__";
   "__lookupSetter__"].

(** [k] names a member of [Object.prototype]. *)
Definition inherited (k : string) : bool :=
  existsb (String.eqb k) Object_prototype_names.

(** [!!o[k]] on a plain object whose own properties are [o]: the members
    inherited from [Object.prototype] are functions and objects, hence
    truthy. *)
Definition obj_truthy (o : props) (k : string) : bool :=
  match obj_get o k with
  | Some v => truthy v
  | None => inherited k
  end.

(** ** Strings *)

(** The characters of a string, each as a one-character string: what
    [s[i]] yields for [i < s.length]. *)
Fixpoint chars (s : string) : list string :=
  match s with
  | EmptyString => []
  | String c r => String c EmptyString :: chars r
  end.

(** [s.indexOf(p) == 0] *)
Definition starts_with (p s : string) : bool := String.prefix p s.

(** [s.slice(n)] for [0 <= n] *)
Fixpoint slice_from (n : nat) (s : string) : string :=
  match n, s with
  | O, _ => s
  | S n', String _ r => slice_from n' r
  | S _, EmptyString => EmptyString
  end.

(** [s.split('/')] *)
Fixpoint split_slash (s : string) : list string :=
  match s with
  | EmptyString => [EmptyString]
  | String c r =>
      if Ascii.eqb c "/"%char then EmptyString :: split_slash r
      else match split_slash r with
           | seg :: segs => String c seg :: segs
           | [] => [String c EmptyString]
           end
  end.

(** [segs.join('/')] *)
Definition join_slash (segs : list string) : string := String.concat "/" segs.

(** [key.charAt(0) == '/'] then [key.slice(1)] *)
Definition strip_slash (key : string) : string :=
  match key with
  | String c r => if Ascii.eqb c "/"%char then r else key
  | EmptyString => key
  end.

(** A decimal digit, and a name made of digits only. *)
Definition is_digit (c : ascii) : bool :=
  (48 <=? nat_of_ascii c)%nat && (nat_of_ascii c <=? 57)%nat.

Fixpoint digits_only (s : string) : bool :=
  match s with
  | EmptyString => true
  | String c r => is_digit c && digits_only r
  end.

(** The number a string of digits denotes, continuing from [acc]. *)
Fixpoint digits_value (acc : N) (s : string) : N :=
  match s with
  | EmptyString => acc
  | String c r =>
      digits_value (10 * acc + (N.of_nat (nat_of_ascii c) - 48))%N r
  end.

(** The array index a property name denotes: the name is the canonical
    decimal form of an integer below [2^32 - 1]. *)
Definition index_of (k : string) : option nat :=
  if negb (String.eqb k "") && digits_only k then
    let n := digits_value 0%N k in
    if String.eqb (pretty n) k && (n <? 4294967295)%N
    then Some (N.to_nat n) else None
  else None.

(** Own enumerable properties of a value, as [Object.assign] and spreading
    read them: an object's properties, the indexed elements of an array, the
    indexed characters of a string, nothing for the other primitives. *)
Definition indexed (l : list value) : props :=
  imap (fun i v => (pretty i, v)) l.

Definition own_enumerable (v : value) : props :=
  match v with
  | VObj o => o
  | VArr l => indexed l
  | VStr s => indexed (VStr <$> chars s)
  | _ => []
  end.

(** [assign(target, ...sources)] of [object-assign]: the sources' own
    enumerable properties are written onto the target in order, later
    sources overwriting earlier ones; [null] and [undefined] sources are
    skipped.  Each property is written by the assignment [to[key] = ...],
    modelled for ordinary names: a source property named [__proto__] would
    set the prototype of the target instead, and the fields of a store
    passed as a source are not represented. *)
Definition assign_one (target : props) (source : value) : props :=
  fold_left (fun t kv => obj_set t kv.1 kv.2) (own_enumerable source) target.

Definition assign (target : props) (sources : list value) : props :=
  fold_left assign_one sources target.

(** * Errors and effects *)

Inductive js_error : Type :=
| TypeError                         (* thrown by the language itself *)
| ReferenceCycleError               (* an alias chain longer than the bound *)
| TransportError (status : value).  (* a failed load, carrying [err.status] *)

(** [err.status] *)
Definition error_status (e : js_error) : value :=
  match e with
  | TypeError | ReferenceCycleError => VUndefined
  | TransportError s => s
  end.

(** A computation that returns or throws. *)
Inductive result (A : Type) : Type :=
| Ok (a : A)
| Throw (e : js_error).
Arguments Ok {A} a.
Arguments Throw {A} e.

#[global] Instance result_ret : MRet result := fun A a => Ok a.
#[global] Instance result_bind : MBind result :=
  fun A B f m => match m with Ok a => f a | Throw e => Throw e end.

Definition of_option {A : Type} (o : option A) : result A :=
  match o with Some a => Ok a | None => Throw TypeError end.

(** [v[k]]: throws on [undefined] and [null]; own properties of objects,
    elements and [length] of arrays and strings; [undefined] otherwise.
    Inherited members (those of [Object.prototype], the methods of arrays,
    strings, numbers and functions) are not represented: the model is exact
    for the reads that [reads_own] below accepts. *)
Definition member (v : value) (k : string) : result value :=
  match v with
  | VUndefined | VNull => Throw TypeError
  | VObj o => Ok (obj_read o k)
  | VArr l =>
      Ok (obj_read (indexed l ++ [("length", VNum (Z.of_nat (length l)))]) k)
  | VStr s =>
      Ok (obj_read (indexed (VStr <$> chars s)
                    ++ [("length", VNum (Z.of_nat (String.length s)))]) k)
  | _ => Ok VUndefined
  end.

(** [[a, b] = v]: the first two items of an iterable. *)
Definition destructure2 (v : value) : result (value * value) :=
  match v with
  | VArr l => Ok (default VUndefined (l !! 0), default VUndefined (l !! 1))
  | VStr s =>
      let l := VStr <$> chars s in
      Ok (default VUndefined (l !! 0), default VUndefined (l !! 1))
  | _ => Throw TypeError
  end.

(** * lib/HandlerContext.js *)

Module HandlerContext.

(** A context is a JavaScript object: [signature] and [store] are ordinary
    properties of it, next to the ones copied from the call arguments. *)

(** The entries of a signature, read through [signature.length] and
    [signature[i]]: the elements of an array of strings, the characters of a
    string, nothing for a value without [length].  [None]: the read throws
    ([undefined], [null], an entry without [indexOf]), or the signature is an
    array-like object or a function, which the model does not represent. *)
Definition as_signature (signature : value) : option (list string) :=
  match signature with
  | VArr items =>
      mapM (fun v => match v with VStr s => Some s | _ => None end) items
  | VStr s => Some (chars s)
  | VBool _ | VNum _ | VNaN | VRegExp _ | VStore => Some []
  | VObj o => if obj_has o "length" then None else Some []
  | VUndefined | VNull | VFun _ => None
  end.

(** [args.slice(i)] *)
Definition slice_args (args : value) (i : nat) : result value :=
  match args with
  | VArr l => Ok (VArr (drop i l))
  | VStr s => Ok (VStr (slice_from i s))
  | _ => Throw TypeError
  end.

(** The body of the constructor's loop, from index [i] on. *)
Fixpoint copy_arguments (this : props) (sig : list string) (i : nat)
    (args : value) : result props :=
  match sig with
  | [] => Ok this
  | prop :: sig' =>
      this' ←
        (if starts_with "..." prop
         then rest ← slice_args args i;
              Ok (obj_set this (slice_from 3 prop) rest)
         else arg ← member args (pretty i);
              Ok (obj_set this prop arg));
      copy_arguments this' sig' (S i) args
  end.

(** [constructor (store, signature, args)].  The context is modelled by its
    own properties; its methods live on the prototype, so that a parameter
    named like one of them ([METHOD_NAMES] below) would shadow the method. *)
Definition new (store signature args : value) : result props :=
  sig ← of_option (as_signature signature);
  let this := obj_set (obj_set [] "signature" signature) "store" store in
  copy_arguments this sig 0 args.

(** [mergeOptions (options)]: [this.options = assign({}, options, this.options)] *)
Definition mergeOptions (this : props) (options : value) : props :=
  obj_set this "options"
    (VObj (assign [] [options; obj_read this "options"])).

(** [...v]: the elements of an array, the characters of a string;
    [None] when [v] is not iterable. *)
Definition spread (v : value) : option (list value) :=
  match v with
  | VArr l => Some l
  | VStr s => Some (VStr <$> chars s)
  | _ => None
  end.

Fixpoint collect_arguments (this : props) (sig : list string)
    : result (list value) :=
  match sig with
  | [] => Ok []
  | prop :: sig' =>
      head_args ←
        (if starts_with "..." prop
         then of_option (spread (obj_read this (slice_from 3 prop)))
         else Ok [obj_read this prop]);
      rest ← collect_arguments this sig';
      Ok (head_args ++ rest)
  end.

(** The methods of the class, which a context inherits. *)
Definition METHOD_NAMES : list string :=
  ["constructor"; "batchKey"; "mergeOptions"; "toArguments"; "destroy"].

(** [toArguments ()] *)
Definition toArguments (this : props) : result (list value) :=
  sig ← of_option (as_signature (obj_read this "signature"));
  collect_arguments this sig.

(** [destroy ()]: every property is set to [null]. *)
Definition destroy (this : props) : props :=
  (fun kv : string * value => (kv.1, VNull)) <$> this.

(** [batchKey (key, value)].  The array or hash kept in [this.key] is
    modelled by value.  [None]: the outcome is not represented by the model
    (a named property written on an array, on a function or on a boxed
    primitive, a [push] method supplied by the hash itself, or the fields of
    a store merged into the hash). *)
Definition batchKey (this : props) (key value : value)
    : option (result props) :=
  let this :=
    if negb (truthy (obj_read this "key")) then obj_set this "key" (VStr "")
    else this in
  let asArray := match value with VUndefined => true | _ => false end in
  let this :=
    match obj_read this "key" with
    | VStr k0 =>
        let this :=
          obj_set this "key"
            (if asArray then VArr [VStr k0]
             else VObj [(k0, obj_read this "value")]) in
        if obj_has this "value" then obj_set this "value" VNull else this
    | _ => this
    end in
  if asArray then
    match obj_read this "key" with
    | VArr l =>
        match key with
        | VStr _ => Some (Ok (obj_set this "key" (VArr (l ++ [key]))))
        | _ =>
            match spread key with
            | Some ks => Some (Ok (obj_set this "key" (VArr (l ++ ks))))
            | None => Some (Throw TypeError)
            end
        end
    | VObj o =>
        if isFunction (obj_read o "push") then None else Some (Throw TypeError)
    | _ => Some (Throw TypeError)
    end
  else
    match key with
    | VStr k =>
        match obj_read this "key" with
        | VObj o => Some (Ok (obj_set this "key" (VObj (obj_set o k value))))
        | VBool _ | VNum _ => Some (Throw TypeError)
        | _ => None
        end
    | VStore => None
    | _ =>
        match obj_read this "key" with
        | VObj o => Some (Ok (obj_set this "key" (VObj (assign_one o key))))
        | _ => None
        end
    end.

End HandlerContext.


(** What the store touches outside itself. *)
Inductive effect : Type :=
| CursorDestroyed (key : string)        (* [cursor.destroy()] *)
| ListenersRemoved                      (* [removeAllListeners()] *)
| ClockCancelled (key : value)          (* [clock.cancel(key)] *)
| AgentAbortedFetched (fetchedKeys : props)
    (* [agent.abortAll(req => _fetchedKeys[req.__agentId])], with the
       registry [_fetchedKeys] the test reads *)
| AgentAborted (key : value).           (* [agent.abortAll(key)] *)

(** The host environment the library runs in. *)
Class Host : Type := {
  (** [runtime.isBrowser] *)
  isBrowser : bool;
  (** [re.test(key)] for the RegExp object [rid] *)
  regexp_test : nat -> value -> bool;
  (** calling the handler function [fid] on a context: the context as the
      handler leaves it, or the error it throws (handlers act on the context
      they are given, not on the store behind it) *)
  call_handler : nat -> props -> result props;
  (** [Number(new Date(x))] *)
  date_number : value -> value;
  (** [new Date(x).toUTCString()] *)
  utc_string : value -> string;
  (** [a + b] and [a > b] when an operand is a string or an object *)
  host_plus : value -> value -> value;
  host_gt : value -> value -> bool
}.

(** * lib/DataStore.js *)

Module DataStore.

Definition REF_KEY : string := "__ref:".

(** An entry of [_handlers]: [{ handler, match }]. *)
Record handler_entry : Type := {
  handler : nat;      (* the handler function, by reference *)
  match_ : value      (* what it was registered with *)
}.

Record t : Type := {
  destroyed : bool;
  isWritable : bool;
  _cursors : list string;        (* the keys cursors are registered under *)
  _data : value;
  _handlers : list handler_entry;
  _serialisableKeys : value;
  (* lib/FetchableDataStore.js *)
  _fetchedKeys : props;
  GRACE : value
}.

Definition with_data (st : t) (d : value) : t :=
  {| destroyed := destroyed st; isWritable := isWritable st;
     _cursors := _cursors st; _data := d; _handlers := _handlers st;
     _serialisableKeys := _serialisableKeys st;
     _fetchedKeys := _fetchedKeys st; GRACE := GRACE st |}.

Definition with_handlers (st : t) (hs : list handler_entry) : t :=
  {| destroyed := destroyed st; isWritable := isWritable st;
     _cursors := _cursors st; _data := _data st; _handlers := hs;
     _serialisableKeys := _serialisableKeys st;
     _fetchedKeys := _fetchedKeys st; GRACE := GRACE st |}.

Definition with_fetchedKeys (st : t) (fk : props) : t :=
  {| destroyed := destroyed st; isWritable := isWritable st;
     _cursors := _cursors st; _data := _data st; _handlers := _handlers st;
     _serialisableKeys := _serialisableKeys st;
     _fetchedKeys := fk; GRACE := GRACE st |}.

(** A stateful call: the store it leaves, and what it returns or throws. *)
Definition call (A : Type) : Type := t * result A.

(** [matches]: the pairs [use] and [unuse] work through. *)
Definition handler_pairs (match_arg handler_arg : value) : list value :=
  match match_arg with
  | VArr pairs => pairs
  | _ => [VArr [match_arg; handler_arg]]
  end.

(** One pair of [use]. *)
Definition use_pair (hs : list handler_entry) (pair : value)
    : result (list handler_entry) :=
  '(m, h) ← destructure2 pair;
  let '(m, h) := if isFunction m then (VStr "", m) else (m, h) in
  match h with
  | VFun fid => Ok (hs ++ [{| handler := fid; match_ := m |}])
  | _ => Ok hs
  end.

Fixpoint use_pairs (hs : list handler_entry) (pairs : list value)
    : list handler_entry * result unit :=
  match pairs with
  | [] => (hs, Ok ())
  | p :: pairs' =>
      match use_pair hs p with
      | Ok hs' => use_pairs hs' pairs'
      | Throw e => (hs, Throw e)
      end
  end.

(** [use (match, handler)] *)
Definition use (st : t) (match_arg handler_arg : value) : call unit :=
  let '(hs, r) := use_pairs (_handlers st) (handler_pairs match_arg handler_arg) in
  (with_handlers st hs, r).

(** [this._handlers[j].handler === handler] *)
Definition same_handler (e : handler_entry) (h : value) : bool :=
  match h with
  | VFun fid => Nat.eqb (handler e) fid
  | _ => false
  end.

(** The loop [while (--j >= 0) { ... splice(j, 1) ... }] of [unuse], entered
    with counter [j]. Reading [this._handlers[j]] past the end of the array
    yields [undefined], whose [.handler] throws. *)
Fixpoint unuse_scan (h : value) (j : nat) (hs : list handler_entry)
    : list handler_entry * result unit :=
  match j with
  | O => (hs, Ok ())
  | S j' =>
      match hs !! j' with
      | None => (hs, Throw TypeError)
      | Some e =>
          unuse_scan h j' (if same_handler e h then delete j' hs else hs)
      end
  end.

(** One pair of [unuse]. *)
Definition unuse_pair (hs : list handler_entry) (pair : value)
    : list handler_entry * result unit :=
  match destructure2 pair with
  | Throw e => (hs, Throw e)
  | Ok (m, h) =>
      let h := if isFunction m then m else h in
      unuse_scan h (length hs) hs
  end.

Fixpoint unuse_pairs (hs : list handler_entry) (pairs : list value)
    : list handler_entry * result unit :=
  match pairs with
  | [] => (hs, Ok ())
  | p :: pairs' =>
      match unuse_pair hs p with
      | (hs', Ok _) => unuse_pairs hs' pairs'
      | (hs', Throw e) => (hs', Throw e)
      end
  end.

(** [unuse (match, handler)] *)
Definition unuse (st : t) (match_arg handler_arg : value) : call unit :=
  let '(hs, r) :=
    unuse_pairs (_handlers st) (handler_pairs match_arg handler_arg) in
  (with_handlers st hs, r).

(** [_isMatchKey (key, match)].  [key.indexOf] exists on strings and arrays
    only. *)
Definition _isMatchKey `{Host} (key : value) (m : value) : result bool :=
  if negb (truthy m) then Ok true
  else match m with
       | VRegExp rid => Ok (regexp_test rid key)
       | VStr p =>
           match key with
           | VStr s => Ok (starts_with p s)
           | VArr l =>
               Ok (match l with
                   | VStr s :: _ => String.eqb s p
                   | _ => false
                   end)
           | _ => Throw TypeError
           end
       | _ => Ok false
       end.

(** [_isRefValue (value)] *)
Definition _isRefValue (v : value) : bool :=
  if negb (truthy v) then false
  else match v with
       | VStr s => starts_with REF_KEY s
       | _ => false
       end.

(** [ref.slice(REF_KEY.length)] *)
Definition after_REF_KEY (ref : string) : string :=
  slice_from (String.length REF_KEY) ref.

(** [_parseRefKey (ref)] *)
Definition _parseRefKey (ref : value) : value :=
  match ref with
  | VStr s => VStr (after_REF_KEY s)
  | _ => ref
  end.

(** The loop of [_resolveRefKey] from segment [idx] on, with [value] the node
    reached so far: the alias target it stops at, if any, and the final
    [idx].  Each step reads [value[segs[idx]]] through [member]. *)
Fixpoint walk_to_ref (v : value) (segs : list string) (idx : nat)
    : result (option string * nat) :=
  match segs with
  | [] => Ok (None, idx)
  | seg :: segs' =>
      next ← member v seg;
      if isNullish next then Ok (None, idx)
      else match next with
           | VStr s =>
               if _isRefValue next then Ok (Some (after_REF_KEY s), idx)
               else walk_to_ref next segs' (S idx)
           | _ => walk_to_ref next segs' (S idx)
           end
  end.

(** [_resolveRefKey (key)] for a string [key]. *)
Definition resolve_string (st : t) (key : string) : result string :=
  if _isRefValue (VStr key) then Ok (after_REF_KEY key)
  else
    let key := strip_slash key in
    let segs := split_slash key in
    let n := length segs in
    '(found, idx) ← walk_to_ref (_data st) segs 0;
    let ref := default key found in
    if negb (String.eqb ref key) && (S idx <? n)%nat
    then Ok (ref +:+ "/" +:+ join_slash (drop (S idx) segs))
    else Ok ref.

(** [_resolveRefKey (key)]: anything but a string has no [charAt]. *)
Definition _resolveRefKey (st : t) (key : value) : result string :=
  match key with
  | VStr s => resolve_string st s
  | _ => Throw TypeError
  end.

(** [reset (store, data)], the bound implementation of [reset]. *)
Definition reset (st : t) (args : list value) : call value :=
  (with_data st (default VUndefined (args !! 0)), Ok VUndefined).

(** [signature[0] == 'key'] and the destructuring [[key = '', ...rest] = args],
    then the trimming of a leading separator. *)
Definition routed_key (signature : list string) (args : list value)
    : result value :=
  let isKeyed :=
    match signature with s :: _ => String.eqb s "key" | [] => false end in
  let key :=
    match args with
    | VUndefined :: _ | [] => VStr ""
    | a :: _ => a
    end in
  if isKeyed && truthy key
  then match key with
       | VStr s => Ok (VStr (strip_slash s))
       | _ => Throw TypeError
       end
  else Ok key.

(** The loop over [_handlers]: every matching handler is called on the shared
    context, in registration order. *)
Fixpoint run_handlers `{Host} (key : value) (hs : list handler_entry)
    (context : props) : result props :=
  match hs with
  | [] => Ok context
  | e :: hs' =>
      matched ← _isMatchKey key (match_ e);
      context' ← (if matched : bool then call_handler (handler e) context
                  else Ok context);
      run_handlers key hs' context'
  end.

(** [new HandlerContext(this, methodName, signature, args)] as written in
    [_routeHandledMethod]: the constructor has three parameters
    [(store, signature, args)], arguments are bound by position and the
    fourth is dropped. *)
Definition new_context (methodName : string) (signature : list string)
    (args : list value) : result props :=
  let actuals :=
    [VStore; VStr methodName; VArr (VStr <$> signature); VArr args] in
  HandlerContext.new (default VUndefined (actuals !! 0))
                     (default VUndefined (actuals !! 1))
                     (default VUndefined (actuals !! 2)).

(** The arguments the bound implementation is called with, after the store
    itself. *)
Definition routed_arguments `{Host} (st : t) (methodName : string)
    (signature : list string) (args : list value) : result (list value) :=
  key ← routed_key signature args;
  match _handlers st with
  | [] => Ok (key :: tail args)
  | _ :: _ =>
      context ← new_context methodName signature args;
      context' ← run_handlers key (_handlers st) context;
      HandlerContext.toArguments context'
  end.

(** [_routeHandledMethod (methodName, fn, signature, ...args)].  The call
    [context.destroy()] that follows [fn] only clears the context, which
    nothing reads afterwards. *)
Definition _routeHandledMethod `{Host} {R : Type} (st : t)
    (methodName : string) (fn : t -> list value -> call R)
    (signature : list string) (args : list value) : call R :=
  match routed_arguments st methodName signature args with
  | Ok args' => fn st args'
  | Throw e => (st, Throw e)
  end.

(** A loop of calls on the store: it stops at the first one that throws. *)
Fixpoint for_each {A : Type} (f : t -> A -> call value) (st : t) (l : list A)
    : call value :=
  match l with
  | [] => (st, Ok VUndefined)
  | a :: l' =>
      match f st a with
      | (st', Ok _) => for_each f st' l'
      | (st', Throw e) => (st', Throw e)
      end
  end.

(** [destroy ()].  The loop [for (const key in this._cursors)] is modelled
    in the order the cursors were created. *)
Definition destroy (st : t) : t * list effect :=
  ({| destroyed := true; isWritable := isWritable st;
      _cursors := []; _data := VObj []; _handlers := [];
      _serialisableKeys := VObj [];
      _fetchedKeys := _fetchedKeys st; GRACE := GRACE st |},
   (CursorDestroyed <$> _cursors st) ++ [ListenersRemoved]).

Definition with_cursors (st : t) (cs : list string) : t :=
  {| destroyed := destroyed st; isWritable := isWritable st;
     _cursors := cs; _data := _data st; _handlers := _handlers st;
     _serialisableKeys := _serialisableKeys st;
     _fetchedKeys := _fetchedKeys st; GRACE := GRACE st |}.

Definition with_serialisableKeys (st : t) (c : value) : t :=
  {| destroyed := destroyed st; isWritable := isWritable st;
     _cursors := _cursors st; _data := _data st; _handlers := _handlers st;
     _serialisableKeys := c;
     _fetchedKeys := _fetchedKeys st; GRACE := GRACE st |}.

(** [createCursor (key)].  A cursor is identified by the key it is
    registered under; [new Cursor(key, this)] belongs to
    [lib/DataStoreCursor.js]. *)
Definition createCursor (st : t) (key : value) : call string :=
  match _resolveRefKey st (if truthy key then key else VStr "") with
  | Throw e => (st, Throw e)
  | Ok key =>
      let key :=
        if negb (String.eqb key "") && negb (starts_with "/" key)
        then "/" +:+ key else key in
      if bool_decide (key ∈ _cursors st) then (st, Ok key)
      else (with_cursors st (_cursors st ++ [key]), Ok key)
  end.

(** [this._serialisableKeys[key] = value], after the trimming of a leading
    separator.  A primitive cannot take a property in strict mode; [None]: a
    property written on an array, a function or another object is not
    represented. *)
Definition mark_serialisable (st : t) (key : string) (v : value)
    : option (call unit) :=
  match _serialisableKeys st with
  | VObj c =>
      Some (with_serialisableKeys st (VObj (obj_set c (strip_slash key) v)),
            Ok ())
  | VUndefined | VNull | VBool _ | VNum _ | VNaN | VStr _ =>
      Some (st, Throw TypeError)
  | VArr _ | VFun _ | VRegExp _ | VStore => None
  end.

(** The batch loop [for (const k in key) this.setSerialisabilityOfKey(k, value)]. *)
Fixpoint mark_all_serialisable (st : t) (ks : list string) (v : value)
    : option (call unit) :=
  match ks with
  | [] => Some (st, Ok ())
  | k :: ks' =>
      match mark_serialisable st k v with
      | Some (st', Ok _) => mark_all_serialisable st' ks' v
      | other => other
      end
  end.

(** [setSerialisabilityOfKey (key, value)] *)
Definition setSerialisabilityOfKey (st : t) (key v : value)
    : option (call unit) :=
  match key with
  | VObj o => mark_all_serialisable st o.*1 v
  | VStr s => mark_serialisable st s v
  | _ => Some (st, Throw TypeError)
  end.

(** [key ? `${key}/${prop}` : prop], for a [key] that is [null] or a string. *)
Definition key_chain (key : option string) (prop : string) : string :=
  match key with
  | Some k => if String.eqb k "" then prop else k +:+ "/" +:+ prop
  | None => prop
  end.

(** [serialise (key, data, config)], for a [key] that is [null] ([None]) or a
    string.  Among the values of the model only a reference to the store has
    a [toJSON] method; [None]: the call [value.toJSON()] on it is not
    represented. *)
Fixpoint serialise (key : option string) (data config : value) {struct data}
    : option (result value) :=
  match data with
  | VObj o =>
      match
        (fix each (o : props) (obj : props) {struct o}
             : option (result props) :=
           match o with
           | [] => Some (Ok obj)
           | kx :: o' =>
               let keyChain := key_chain key kx.1 in
               match member config keyChain with
               | Throw e => Some (Throw e)
               | Ok (VBool false) => each o' obj
               | Ok _ =>
                   match kx.2 with
                   | VObj _ =>
                       match serialise (Some keyChain) kx.2 config with
                       | Some (Ok x) => each o' (obj_set obj kx.1 x)
                       | Some (Throw e) => Some (Throw e)
                       | None => None
                       end
                   | VStore => None
                   | x => each o' (obj_set obj kx.1 x)
                   end
               end
           end) o []
      with
      | Some (Ok obj) => Some (Ok (VObj obj))
      | Some (Throw e) => Some (Throw e)
      | None => None
      end
  | _ =>
      match member config (match key with Some k => k | None => "null" end) with
      | Throw e => Some (Throw e)
      | Ok (VBool false) => Some (Ok VNull)
      | Ok _ => Some (Ok data)
      end
  end.

(** The loop of [serialise] over the properties [o] of a mapping, with [obj]
    the object built so far. *)
Definition serialise_each (key : option string) (config : value)
    : props -> props -> option (result props) :=
  fix each (o obj : props) {struct o} : option (result props) :=
    match o with
    | [] => Some (Ok obj)
    | kx :: o' =>
        let keyChain := key_chain key kx.1 in
        match member config keyChain with
        | Throw e => Some (Throw e)
        | Ok (VBool false) => each o' obj
        | Ok _ =>
            match kx.2 with
            | VObj _ =>
                match serialise (Some keyChain) kx.2 config with
                | Some (Ok x) => each o' (obj_set obj kx.1 x)
                | Some (Throw e) => Some (Throw e)
                | None => None
                end
            | VStore => None
            | x => each o' (obj_set obj kx.1 x)
            end
        end
    end.

End DataStore.

(** * The path accessor [@yr/property] *)

Module property.

(** Modelled from the spec: the path accessor is an external collaborator
    whose code is not part of the repository.  Section 2 describes it as
    "get/set a value at a path inside a nested mapping, with optional
    deep-merge and optional copy-on-write semantics", section 3 says that
    "the empty key addresses the tree root", and the README documents
    [merge] as "merge value into the underlying data object (true), or
    overwrite an existing key (false) [default: true]".  The tree is
    modelled by value, so copy-on-write and in-place writes yield the same
    tree.  Where the spec is silent the model writes as assignment does: a
    node on the way that is neither a mapping nor a sequence is replaced by
    a new mapping, and a sequence is written by index.  A root that is
    neither, a write at the root and a segment that is no index on a
    sequence leave the tree as it is. *)
Definition path_of (key : string) : list string :=
  if String.eqb key "" then [] else split_slash key.

(** Modelled from the spec: reading a path; [undefined] where it leads
    nowhere.  Sequences are read by index, as in the README's
    [store.get('stuff/0')]. *)
Fixpoint get_path (tree : value) (path : list string) : value :=
  match path with
  | [] => tree
  | seg :: path' =>
      match tree with
      | VObj o => get_path (obj_read o seg) path'
      | VArr l => get_path (obj_read (indexed l) seg) path'
      | _ => VUndefined
      end
  end.

(** Modelled from the spec: [get(tree, key)]. *)
Definition get (tree : value) (key : string) : value :=
  get_path tree (path_of key).

(** Modelled from the spec: deep merge of a mapping into a mapping; anything
    else is overwritten. *)
Fixpoint merge_value (old new : value) {struct new} : value :=
  match old, new with
  | VObj oo, VObj no =>
      VObj (fold_left
              (fun acc kv => obj_set acc kv.1 (merge_value (obj_read acc kv.1) kv.2))
              no oo)
  | _, _ => new
  end.

(** Modelled from the spec: the node a write descends into; what is neither
    a mapping nor a sequence gives way to a new mapping. *)
Definition container (v : value) : value :=
  match v with
  | VObj _ | VArr _ => v
  | _ => VObj []
  end.

(** Modelled from the spec: [l[i] = x] on a sequence, which grows to hold
    the index. *)
Definition list_write (l : list value) (i : nat) (x : value) : list value :=
  if (i <? length l)%nat then <[i := x]> l
  else l ++ replicate (i - length l) VUndefined ++ [x].

(** Modelled from the spec: writing at a path; missing intermediate nodes
    become mappings. *)
Fixpoint set_path (tree : value) (path : list string) (v : value)
    (merge : bool) : value :=
  match path with
  | [] => tree
  | seg :: path' =>
      let written (old : value) : value :=
        match path' with
        | [] => if merge then merge_value old v else v
        | _ :: _ => set_path (container old) path' v merge
        end in
      match tree with
      | VObj o => VObj (obj_set o seg (written (obj_read o seg)))
      | VArr l =>
          match index_of seg with
          | Some i =>
              VArr (list_write l i (written (default VUndefined (l !! i))))
          | None => tree
          end
      | _ => tree
      end
  end.

(** Modelled from the spec: [set(tree, key, value, {merge, immutable})];
    [merge] defaults to [true]. *)
Definition set (tree : value) (key : string) (v : value) (options : props)
    : value :=
  let merge :=
    match obj_get options "merge" with
    | Some m => truthy m
    | None => true
    end in
  set_path tree (path_of key) v merge.

End property.

(** * lib/methods/get.js and lib/methods/set.js *)

Module methods.

(** Modelled from the spec: [lib/methods/get.js] is not among the sources.
    Section 4.1: "recursively walk the result value (through mappings and
    sequences) substituting any nested Alias values with their dereferenced
    target values".  [follow] says what an alias is replaced with. *)
Fixpoint substitute_aliases (follow : value -> result value) (v : value)
    : result value :=
  match v with
  | VObj o =>
      o' ← (fix fields (o : props) : result props :=
              match o with
              | [] => Ok []
              | kx :: o' =>
                  x' ← substitute_aliases follow kx.2;
                  r ← fields o'; Ok ((kx.1, x') :: r)
              end) o;
      Ok (VObj o')
  | VArr l =>
      l' ← (fix items (l : list value) : result (list value) :=
              match l with
              | [] => Ok []
              | x :: l' =>
                  x' ← substitute_aliases follow x;
                  r ← items l'; Ok (x' :: r)
              end) l;
      Ok (VArr l')
  | VStr _ => if DataStore._isRefValue v then follow v else Ok v
  | _ => Ok v
  end.

(** Modelled from the spec: dereferencing "under the same cycle bound".  An
    alias is dereferenced by resolving its target key with the store's
    [_resolveRefKey], reading the node there and dereferencing what is read.
    [hops] is the number of alias substitutions still allowed on the way
    down; running out of them "signals a reference-cycle error". *)
Fixpoint dereference (hops : nat) (st : DataStore.t) (v : value) {struct hops}
    : result value :=
  substitute_aliases
    (fun alias =>
       match hops with
       | O => Throw ReferenceCycleError
       | S hops' =>
           target ← DataStore._resolveRefKey st (DataStore._parseRefKey alias);
           dereference hops' st (property.get (DataStore._data st) target)
       end) v.

(** Modelled from the spec: [get (store, key)], section 4.1: "resolve the
    key, read the node; if resolveReferences is true" (the default, and
    [DataStore.get] passes no options) dereference the result.  An empty
    key addresses the whole tree. *)
Definition get (max_hops : nat) (st : DataStore.t) (key : value)
    : result value :=
  if negb (truthy key) then dereference max_hops st (DataStore._data st)
  else
    resolved ← DataStore._resolveRefKey st key;
    dereference max_hops st (property.get (DataStore._data st) resolved).

(** [DEFAULT_OPTIONS] of [lib/methods/set.js] *)
Definition DEFAULT_OPTIONS `{Host} : value :=
  VObj [("immutable", VBool isBrowser); ("merge", VBool true)].

(** [doSet (store, key, value, options)].  Both branches leave the tree that
    [property.set] yields in [store._data]: a new one under [immutable], the
    same one written in place otherwise. *)
Definition doSet (st : DataStore.t) (key v : value) (options : props)
    : DataStore.call value :=
  match DataStore._resolveRefKey st key with
  | Throw e => (st, Throw e)
  | Ok resolved =>
      (DataStore.with_data st
         (property.set (DataStore._data st) resolved v options),
       Ok VUndefined)
  end.

(** [[k, v, o = {}] = entry] *)
Definition destructure3 (entry : value) : result (value * value * value) :=
  items ← of_option (HandlerContext.spread entry);
  let o := match default VUndefined (items !! 2) with
           | VUndefined => VObj []
           | o => o
           end in
  Ok (default VUndefined (items !! 0), default VUndefined (items !! 1), o).

(** [set (store, key, value, options)], the bound implementation of [set].
    The loop [for (const k in key)] is modelled for a hash whose names are
    visited in insertion order. *)
Definition set `{Host} (st : DataStore.t) (args : list value)
    : DataStore.call value :=
  let key := default VUndefined (args !! 0) in
  let v := default VUndefined (args !! 1) in
  let options := default VUndefined (args !! 2) in
  if negb (truthy key) then (st, Ok VUndefined)
  else
    let options := assign [] [DEFAULT_OPTIONS; options] in
    match key with
    | VStr _ => doSet st key v options
    | VObj o =>
        DataStore.for_each
          (fun st kv => doSet st (VStr kv.1) kv.2 options) st o
    | VArr l =>
        DataStore.for_each
          (fun st entry =>
             match destructure3 entry with
             | Throw e => (st, Throw e)
             | Ok (k, v, o) => doSet st k v (assign [] [DEFAULT_OPTIONS; o])
             end) st l
    | _ => (st, Ok VUndefined)
    end.

End methods.

(** * The public methods of [DataStore] that route to bound implementations *)

Module Store.

(** [this._handledMethods.set(...args)] *)
Definition handled_set `{Host} (st : DataStore.t) (args : list value)
    : DataStore.call value :=
  DataStore._routeHandledMethod st "set" methods.set
    ["key"; "value"; "options"] args.

(** [this._handledMethods.reset(...args)] *)
Definition handled_reset `{Host} (st : DataStore.t) (args : list value)
    : DataStore.call value :=
  DataStore._routeHandledMethod st "reset" DataStore.reset ["data"] args.

(** [get (key)] *)
Definition get (max_hops : nat) (st : DataStore.t) (key : value)
    : result value :=
  if negb (truthy key) || isString key then methods.get max_hops st key
  else match key with
       | VArr keys =>
           xs ← (fix each (ks : list value) : result (list value) :=
                   match ks with
                   | [] => Ok []
                   | k :: ks' =>
                       x ← methods.get max_hops st k;
                       r ← each ks'; Ok (x :: r)
                   end) keys;
           Ok (VArr xs)
       | _ => Ok VUndefined
       end.

(** [set (key, value, options)] *)
Definition set `{Host} (st : DataStore.t) (key v options : value)
    : DataStore.call value :=
  if negb (DataStore.isWritable st) || negb (truthy key)
  then (st, Ok VUndefined)
  else match key with
       | VStr _ => handled_set st [key; v; options]
       | VObj o =>
           DataStore.for_each
             (fun st kv => handled_set st [VStr kv.1; kv.2; options]) st o
       | VArr l =>
           DataStore.for_each
             (fun st entry =>
                match HandlerContext.spread entry with
                | None => (st, Throw TypeError)
                | Some args => handled_set st args
                end) st l
       | _ => (st, Ok VUndefined)
       end.

(** [explode (store, data)], with [get] standing for [store.get].  The
    recursion on what [get] returns is not structural: [fuel] bounds the
    number of aliases followed in a row, and [None] means that it ran out,
    where the code would still be recursing. *)
Fixpoint explode (get : value -> result value) (fuel : nat) (data : value)
    {struct fuel} : option (result value) :=
  (fix walk (data : value) : option (result value) :=
     match data with
     | VObj o =>
         match
           (fix fields (o : props) : option (result props) :=
              match o with
              | [] => Some (Ok [])
              | kx :: o' =>
                  match walk kx.2 with
                  | None => None
                  | Some (Throw e) => Some (Throw e)
                  | Some (Ok x') =>
                      match fields o' with
                      | Some (Ok r) => Some (Ok ((kx.1, x') :: r))
                      | other => other
                      end
                  end
              end) o
         with
         | Some (Ok o') => Some (Ok (VObj o'))
         | Some (Throw e) => Some (Throw e)
         | None => None
         end
     | VArr l =>
         match
           (fix items (l : list value) : option (result (list value)) :=
              match l with
              | [] => Some (Ok [])
              | x :: l' =>
                  match walk x with
                  | None => None
                  | Some (Throw e) => Some (Throw e)
                  | Some (Ok x') =>
                      match items l' with
                      | Some (Ok r) => Some (Ok (x' :: r))
                      | other => other
                      end
                  end
              end) l
         with
         | Some (Ok l') => Some (Ok (VArr l'))
         | Some (Throw e) => Some (Throw e)
         | None => None
         end
     | VStr _ =>
         if DataStore._isRefValue data then
           match fuel with
           | O => None
           | S fuel' =>
               match get (DataStore._parseRefKey data) with
               | Throw e => Some (Throw e)
               | Ok target => explode get fuel' target
               end
           end
         else Some (Ok data)
     | _ => Some (Ok data)
     end) data.

(** [dump ()], without stringifying *)
Definition dump (max_hops fuel : nat) (st : DataStore.t)
    : option (result value) :=
  explode (get max_hops st) fuel (DataStore._data st).

(** [reset (data)] *)
Definition reset `{Host} (st : DataStore.t) (data : value)
    : DataStore.call value :=
  match handled_reset st [data] with
  | (st', Ok _) => (st', Ok VUndefined)
  | r => r
  end.

(** [constructor (id, data, options = {})]; the fields of the fetch-capable
    store start as its own constructor leaves them. *)
Definition create `{Host} (id data : value) (options : props)
    : DataStore.call value :=
  let this :=
    {| DataStore.destroyed := false;
       DataStore.isWritable :=
         match obj_get options "isWritable" with
         | Some w => truthy w
         | None => true
         end;
       DataStore._cursors := [];
       DataStore._data := VObj [];
       DataStore._handlers := [];
       DataStore._serialisableKeys :=
         (let k := obj_read options "serialisableKeys" in
          if truthy k then k else VObj []);
       DataStore._fetchedKeys := [];
       DataStore.GRACE := VUndefined |} in
  let '(this, used) :=
    if truthy (obj_read options "handlers")
    then DataStore.use this (obj_read options "handlers") VUndefined
    else (this, Ok ()) in
  match used with
  | Throw e => (this, Throw e)
  | Ok _ => reset this (if truthy data then data else VObj [])
  end.

(** [toJSON (key)].  [None]: a truthy key that is not a string would be
    spliced into the key chain through its string conversion, which is not
    represented. *)
Definition toJSON (max_hops : nat) (st : DataStore.t) (key : value)
    : option (result value) :=
  if truthy key then
    match methods.get max_hops st key with
    | Throw e => Some (Throw e)
    | Ok data =>
        match key with
        | VStr s =>
            DataStore.serialise (Some s) data (DataStore._serialisableKeys st)
        | _ => None
        end
    end
  else
    DataStore.serialise None (DataStore._data st)
      (DataStore._serialisableKeys st).

End Store.

(** * Numbers *)

(** [ToNumber] on [undefined], [null], booleans and numbers; [None] for
    strings and objects, whose conversion is left to the host. *)
Definition to_number (v : value) : option value :=
  match v with
  | VUndefined | VNaN => Some VNaN
  | VNull => Some (VNum 0)
  | VBool b => Some (VNum (if b then 1 else 0))
  | VNum n => Some (VNum n)
  | _ => None
  end.

(** [a + b].  Numbers are integers here and the sum is the exact one, as it
    is for doubles while operands and sum stay within [2^53]. *)
Definition js_plus `{Host} (a b : value) : value :=
  match to_number a, to_number b with
  | Some (VNum x), Some (VNum y) => VNum (x + y)
  | Some _, Some _ => VNaN
  | _, _ => host_plus a b
  end.

(** [a > b] *)
Definition js_gt `{Host} (a b : value) : bool :=
  match to_number a, to_number b with
  | Some (VNum x), Some (VNum y) => (y <? x)%Z
  | Some _, Some _ => false
  | _, _ => host_gt a b
  end.

(** * Promises *)

Inductive promise (A : Type) : Type :=
| Pending
| Resolved (a : A)
| Rejected (e : js_error).
Arguments Pending {A}.
Arguments Resolved {A} a.
Arguments Rejected {A} e.

(** * lib/methods/fetch.js *)

Module fetch_js.

Definition DEFAULT_LOAD_OPTIONS : value :=
  VObj [("minExpiry", VNum 60000); ("retry", VNum 2); ("timeout", VNum 5000)].

(** [store.EXPIRES_KEY], set by the constructor of [FetchableDataStore]. *)
Definition EXPIRES_KEY : string := "__expires".

(** What [fetch] resolves with: [{ body, duration, error, headers, key }]. *)
Record response : Type := {
  body : value;
  duration : value;
  error : option js_error;
  headers : value;
  key : value
}.

(** What the HTTP collaborator resolves with. *)
Record http_response : Type := {
  res_body : value;
  res_duration : value;
  res_headers : value
}.

(** The final answer of [agent.get(url, options).timeout(timeout).retry(retry)]. *)
Inductive transport_result : Type :=
| Loaded (res : http_response)
| Failed (err : js_error).

(** A call [load (store, key, url, options)]; it makes one call
    [agent.get(url, options)] with [options.id = key]. *)
Record load_call : Type := {
  load_key : value;
  load_url : value;
  load_options : props
}.

(** [getExpiry (dateString, minimum, grace)] at time [now] *)
Definition getExpiry `{Host} (now : Z) (dateString minimum grace : value)
    : value :=
  let expires := js_plus (date_number dateString) grace in
  if js_gt expires (VNum now) then expires else js_plus (VNum now) minimum.

(** [hasExpired (obj, expiresKey)] at time [now], as a condition *)
Definition hasExpired `{Host} (now : Z) (obj : value) (expiresKey : string)
    : bool :=
  truthy obj &&
  match obj with
  | VObj o => obj_has o expiresKey && js_gt (VNum now) (obj_read o expiresKey)
  | _ => false
  end.

(** [res.headers && 'expires' in res.headers]: [in] throws on a primitive. *)
Definition has_expires_header (hdrs : value) : result bool :=
  if negb (truthy hdrs) then Ok false
  else match hdrs with
       | VObj h => Ok (obj_has h "expires")
       | VStr _ | VNum _ | VBool _ => Throw TypeError
       | _ => Ok false
       end.

(** [data[store.EXPIRES_KEY] = expiry] in strict mode, for a truthy [data]:
    a primitive cannot take a property; a property written on an array or
    on a function is not represented. *)
Definition set_expiry (data : value) (expiry : value) : result value :=
  match data with
  | VObj o => Ok (VObj (obj_set o EXPIRES_KEY expiry))
  | VStr _ | VNum _ | VBool _ => Throw TypeError
  | _ => Ok data
  end.

(** The callback [.then(res => { ... return res })] of [load], run at [now].
    [data] is [res.body] itself, so the response returned carries the body
    with its expiry. *)
Definition load_then `{Host} (now : Z) (st : DataStore.t) (lc : load_call)
    (res : http_response) : DataStore.call http_response :=
  if truthy (res_body res) then
    match
      (expires ← has_expires_header (res_headers res);
       if expires : bool
       then set_expiry (res_body res)
              (getExpiry now (obj_read (own_enumerable (res_headers res)) "expires")
                 (obj_read (load_options lc) "minExpiry") (DataStore.GRACE st))
       else Ok (res_body res))
    with
    | Throw e => (st, Throw e)
    | Ok data =>
        match Store.set st (load_key lc) data (VObj (load_options lc)) with
        | (st', Ok _) =>
            (st', Ok {| res_body := data; res_duration := res_duration res;
                        res_headers := res_headers res |})
        | (st', Throw e) => (st', Throw e)
        end
    end
  else (st, Ok res).

(** The callback [.catch(err => { ... throw err })] of [load]. *)
Definition load_catch `{Host} (st : DataStore.t) (lc : load_call)
    (err : js_error) : DataStore.t * promise http_response :=
  if negb (truthy (obj_read (load_options lc) "staleIfError")) then
    match Store.set st (load_key lc) VUndefined (VObj (load_options lc)) with
    | (st', Ok _) => (st', Rejected err)
    | (st', Throw e') => (st', Rejected e')
    end
  else (st, Rejected err).

(** The promise [load] returns, once the transport has answered. *)
Definition load_settle `{Host} (now : Z) (st : DataStore.t) (lc : load_call)
    (answer : transport_result) : DataStore.t * promise http_response :=
  match answer with
  | Loaded res =>
      match load_then now st lc res with
      | (st', Ok r) => (st', Resolved r)
      | (st', Throw e) => load_catch st' lc e
      end
  | Failed err => load_catch st lc err
  end.

(** What [doFetch] returns. *)
Inductive fetch_plan : Type :=
| Settled (r : response)
    (* [Promise.resolve(r)] *)
| Loading (lc : load_call) (stale : value)
    (* [promiseToLoad] *)
| Revalidating (r : response) (lc : load_call) (stale : value).
    (* [Promise.resolve(r)], with [promiseToLoad] left running *)

(** The calls made to the HTTP collaborator. *)
Definition transport_calls (p : fetch_plan) : list load_call :=
  match p with
  | Settled _ => []
  | Loading lc _ | Revalidating _ lc _ => [lc]
  end.

(** [doFetch (store, key, url, options)] at time [now], up to its return. *)
Definition doFetch `{Host} (max_hops : nat) (now : Z) (st : DataStore.t)
    (k url : value) (options : props) : result fetch_plan :=
  let staleWhileRevalidate := obj_read options "staleWhileRevalidate" in
  v ← methods.get max_hops st k;
  let isMissingOrExpired := negb (truthy v) || hasExpired now v EXPIRES_KEY in
  let current :=
    {| body := v; duration := VNum 0; error := None;
       headers := VObj [("status", VNum 200)]; key := k |} in
  if isMissingOrExpired then
    if negb (truthy url) then
      Ok (Settled {| body := v; duration := VNum 0; error := None;
                     headers := VObj [("status", VNum 500)]; key := k |})
    else
      let lc := {| load_key := k; load_url := url;
                   load_options := obj_set options "id" k |} in
      if negb (truthy v && truthy staleWhileRevalidate)
      then Ok (Loading lc v)
      else Ok (Revalidating current lc v)
  else Ok (Settled current).

(** [promiseToLoad], once the transport has answered at time [now]. *)
Definition promiseToLoad_settle `{Host} (max_hops : nat) (now : Z)
    (st : DataStore.t) (lc : load_call) (stale : value)
    (answer : transport_result) : DataStore.t * promise response :=
  let options := load_options lc in
  let on_error (err : js_error) : promise response :=
    if negb (truthy (obj_read options "staleIfError")) then Rejected err
    else Resolved
           {| body := stale; duration := VNum 0; error := Some err;
              headers :=
                VObj [("expires",
                       VStr (utc_string
                               (js_plus (VNum now) (obj_read options "minExpiry"))));
                      ("status", error_status err)];
              key := load_key lc |} in
  match load_settle now st lc answer with
  | (st', Resolved res) =>
      match methods.get max_hops st' (load_key lc) with
      | Ok b =>
          (st', Resolved {| body := b; duration := res_duration res;
                            error := None; headers := res_headers res;
                            key := load_key lc |})
      | Throw e => (st', on_error e)
      end
  | (st', Rejected err) => (st', on_error err)
  | (st', Pending) => (st', Pending)
  end.

(** The promise [doFetch] returned, once the transport has answered (if it was
    asked at all). *)
Definition settle `{Host} (max_hops : nat) (now : Z) (st : DataStore.t)
    (p : fetch_plan) (answer : transport_result)
    : DataStore.t * promise response :=
  match p with
  | Settled r => (st, Resolved r)
  | Loading lc stale => promiseToLoad_settle max_hops now st lc stale answer
  | Revalidating r lc stale =>
      ((promiseToLoad_settle max_hops now st lc stale answer).1, Resolved r)
  end.

(** [fetch (store, key, url, options)] at time [now], up to its return. *)
Definition fetch `{Host} (max_hops : nat) (now : Z) (st : DataStore.t)
    (k url options : value) : result fetch_plan :=
  if negb (truthy k) then
    Ok (Settled {| body := VUndefined; duration := VNum 0; error := None;
                   headers := VObj [("status", VNum 500)]; key := k |})
  else doFetch max_hops now st k url (assign [] [DEFAULT_LOAD_OPTIONS; options]).




(** The first rejection among settled promises. *)
Fixpoint first_rejection {A : Type} (timeline : list (nat * promise A))
    : option js_error :=
  match timeline with
  | [] => None
  | (_, Rejected e) :: _ => Some e
  | _ :: timeline' => first_rejection timeline'
  end.




End fetch_js.

(** * lib/FetchableDataStore.js *)

Module FetchableDataStore.

Definition DEFAULT_LOAD_OPTIONS : value :=
  VObj [("minExpiry", VNum 60000); ("retry", VNum 2); ("timeout", VNum 5000)].

(** What the method [fetch] returns. *)
Inductive fetch_return : Type :=
| ReturnsUndefined
| ReturnsPromise (p : fetch_js.fetch_plan)
| ReturnsAll (ps : list fetch_js.fetch_plan).

(** [this._handledMethods.fetch(...args)], bound to [fetch] of
    [lib/methods/fetch.js] with the signature [['key', 'url', 'options']]. *)
Definition handled_fetch `{Host} (max_hops : nat) (now : Z) (st : DataStore.t)
    (args : list value) : DataStore.call fetch_js.fetch_plan :=
  DataStore._routeHandledMethod st "fetch"
    (fun st args =>
       (st, fetch_js.fetch max_hops now st
              (default VUndefined (args !! 0))
              (default VUndefined (args !! 1))
              (default VUndefined (args !! 2))))
    ["key"; "url"; "options"] args.

(** [if (!this._fetchedKeys[key]) this._fetchedKeys[key] = true]: the
    registry is a plain object, which answers to the names of
    [Object.prototype] as well. *)
Definition mark_fetched (st : DataStore.t) (k : string) : DataStore.t :=
  if negb (obj_truthy (DataStore._fetchedKeys st) k)
  then DataStore.with_fetchedKeys st
         (obj_set (DataStore._fetchedKeys st) k (VBool true))
  else st.

(** The batch branch of [fetch]: [Object.keys(key).map(k => ...)]. *)
Fixpoint fetch_keys `{Host} (max_hops : nat) (now : Z) (st : DataStore.t)
    (entries : props) (options : value)
    : DataStore.call (list fetch_js.fetch_plan) :=
  match entries with
  | [] => (st, Ok [])
  | (k, url) :: entries' =>
      match handled_fetch max_hops now (mark_fetched st k) [VStr k; url; options] with
      | (st', Throw e) => (st', Throw e)
      | (st', Ok p) =>
          match fetch_keys max_hops now st' entries' options with
          | (st'', Ok ps) => (st'', Ok (p :: ps))
          | r => r
          end
      end
  end.

(** [fetch (key, url, options)] called at time [now] *)
Definition fetch `{Host} (max_hops : nat) (now : Z) (st : DataStore.t)
    (k url options : value) : DataStore.call fetch_return :=
  if negb (truthy k) then (st, Ok ReturnsUndefined)
  else
    let options := VObj (assign [] [DEFAULT_LOAD_OPTIONS; options]) in
    match k with
    | VStr s =>
        match handled_fetch max_hops now (mark_fetched st s) [k; url; options] with
        | (st', Ok p) => (st', Ok (ReturnsPromise p))
        | (st', Throw e) => (st', Throw e)
        end
    | VObj entries =>
        match fetch_keys max_hops now st entries options with
        | (st', Ok ps) => (st', Ok (ReturnsAll ps))
        | (st', Throw e) => (st', Throw e)
        end
    | _ => (st, Ok ReturnsUndefined)
    end.

(** [delete o[k]] *)
Definition obj_delete (o : props) (k : string) : props :=
  List.filter (fun kv => negb (String.eqb kv.1 k)) o.

(** One round of [key.forEach(k => ...)] in [abort].  Keys are strings; the
    registry entry another kind of key would name is not represented. *)
Definition abort_key `{Host} (st : DataStore.t) (k : value)
    : DataStore.t * list effect :=
  ((match k with
    | VStr s =>
        DataStore.with_fetchedKeys st (obj_delete (DataStore._fetchedKeys st) s)
    | _ => st
    end),
   (if isBrowser then [AgentAborted k] else []) ++ [ClockCancelled k]).

Fixpoint abort_keys `{Host} (st : DataStore.t) (ks : list value)
    : DataStore.t * list effect :=
  match ks with
  | [] => (st, [])
  | k :: ks' =>
      let '(st', es) := abort_key st k in
      let '(st'', es') := abort_keys st' ks' in
      (st'', es ++ es')
  end.

(** [abort (key)].  The loop [for (var _key in this._fetchedKeys)] is
    modelled in the order of the registry. *)
Definition abort `{Host} (st : DataStore.t) (k : value)
    : DataStore.t * list effect * result unit :=
  if negb (truthy k) then
    (DataStore.with_fetchedKeys st [],
     (if isBrowser
      then [AgentAbortedFetched (DataStore._fetchedKeys st)]
      else [])
     ++ ((fun k => ClockCancelled (VStr k)) <$> (DataStore._fetchedKeys st).*1),
     Ok ())
  else
    match (match k with VStr _ => VArr [k] | _ => k end) with
    | VArr ks => (abort_keys st ks, Ok ())
    | _ => (st, [], Throw TypeError)
    end.

(** [destroy ()]: [this.abort()], then [DataStore.prototype.destroy]. *)
Definition destroy `{Host} (st : DataStore.t) : DataStore.t * list effect :=
  let '(st', aborted, _) := abort st VUndefined in
  let '(st'', destroyed) := DataStore.destroy st' in
  (st'', aborted ++ destroyed).

End FetchableDataStore.

(** * Notions used in the statements *)



(** A plain parameter name: not variadic, and not one of the context's own
    two fields. *)
Definition plain_name (name : string) : Prop :=
  starts_with "..." name = false /\ name <> "signature" /\ name <> "store".

(** No alias anywhere inside a value. *)
Fixpoint alias_free (v : value) : bool :=
  match v with
  | VObj o => forallb (fun kx => alias_free kx.2) o
  | VArr l => forallb alias_free l
  | _ => negb (DataStore._isRefValue v)
  end.

(** The methods numbers have beyond those of [Object.prototype]. *)
Definition Number_prototype_names : list string :=
  ["toExponential"; "toFixed"; "toPrecision"].

(** The read [v[k]] is decided by the own properties of [v], so that
    [member] is exact on it: [k] names an own property of a mapping, or a
    name that a mapping does not inherit; an index or the length of a
    sequence or of a string; a name that numbers and booleans do not
    inherit. *)
Definition reads_own (v : value) (k : string) : bool :=
  match v with
  | VUndefined | VNull => true
  | VObj o => obj_has o k || negb (inherited k)
  | VArr _ | VStr _ =>
      match index_of k with Some _ => true | None => String.eqb k "length" end
  | VBool _ | VNum _ | VNaN =>
      negb (inherited k) && negb (existsb (String.eqb k) Number_prototype_names)
  | VFun _ | VRegExp _ | VStore => false
  end.

(** Every read of the walk of [_resolveRefKey] over [segs] from [v] on is
    decided by own properties. *)
Fixpoint walks_own (v : value) (segs : list string) : bool :=
  match segs with
  | [] => true
  | seg :: segs' =>
      reads_own v seg &&
      match member v seg with
      | Ok next =>
          isNullish next || DataStore._isRefValue next || walks_own next segs'
      | Throw _ => true
      end
  end.

(** [_resolveRefKey (key)] reads own properties only. *)
Definition resolves_by_own_reads (st : DataStore.t) (key : string) : bool :=
  DataStore._isRefValue (VStr key) ||
  walks_own (DataStore._data st) (split_slash (strip_slash key)).

(** The path accessor, as modelled, writes at [path]: the root is a mapping
    or a sequence, every segment read on the way is decided by own
    properties, and a segment that addresses a sequence is an index. *)
Fixpoint addressable (tree : value) (path : list string) : bool :=
  match path with
  | [] => false
  | seg :: path' =>
      let rest (old : value) : bool :=
        match path' with
        | [] => true
        | _ :: _ => addressable (property.container old) path'
        end in
      match tree with
      | VObj o => (obj_has o seg || negb (inherited seg)) && rest (obj_read o seg)
      | VArr l =>
          match index_of seg with
          | Some i => rest (default VUndefined (l !! i))
          | None => false
          end
      | _ => false
      end
  end.

(** An integer that doubles hold exactly, with room for one addition. *)
Definition safe_integer (n : Z) : Prop := (- 2 ^ 52 <= n <= 2 ^ 52)%Z.

Definition safe_number (v : value) : Prop :=
  match v with VNum n => safe_integer n | _ => True end.

(** A write of [v] at [key] merges: merging is on, and both [v] and what is
    stored at [key] are mappings. *)
Definition merges (tree : value) (key : string) (v : value) (options : props)
    : bool :=
  match obj_get options "merge" with Some m => truthy m | None => true end
  && isPlainObject v && isPlainObject (property.get tree key).

(** A property name that assignment treats like any other.  Assigning to
    [__proto__] sets the prototype of an object instead of a property, which
    the model does not represent. *)
Definition ordinary_name (k : string) : Prop := k <> "__proto__".

(** A parameter name that binds a property of the context like any other:
    it is ordinary, and it shadows no method of the context. *)
Definition free_name (name : string) : Prop :=
  ordinary_name name /\ name ∉ HandlerContext.METHOD_NAMES.

(** A source [assign] is exact on: its own enumerable properties have
    distinct, ordinary names, and it is not the store. *)
Definition plain_source (v : value) : Prop :=
  v <> VStore /\
  NoDup (own_enumerable v).*1 /\
  Forall ordinary_name (own_enumerable v).*1.

(** A tree of plain data: the properties of every mapping have distinct,
    ordinary names, and the tree holds no reference to the store. *)
Fixpoint plain_tree (v : value) : bool :=
  match v with
  | VObj o =>
      bool_decide (NoDup o.*1) && bool_decide ("__proto__" ∉ o.*1) &&
      forallb (fun kx => plain_tree kx.2) o
  | VArr l => forallb plain_tree l
  | VStore => false
  | _ => true
  end.

(** What is found by descending from [v] through the properties named by
    [path], while there are mappings to descend into. *)
Fixpoint descend (v : value) (path : list string) : option value :=
  match path with
  | [] => Some v
  | p :: path' =>
      match v with
      | VObj o =>
          match obj_get o p with
          | Some x => descend x path'
          | None => None
          end
      | _ => None
      end
  end.

(** The key chain [serialise] has built once it has descended from [key]
    through the properties named by [path]. *)
Definition chain_of (key : option string) (path : list string)
    : option string :=
  fold_left (fun k p => Some (DataStore.key_chain k p)) path key.

(** * Hosts and stores of the examples *)

(** A server runtime whose handlers only observe. *)
Definition server_host : Host :=
  {| isBrowser := false;
     regexp_test := fun _ _ => false;
     call_handler := fun _ context => Ok context;
     date_number := fun _ => VNaN;
     utc_string := fun _ => "";
     host_plus := fun _ _ => VNaN;
     host_gt := fun _ _ => false |}.

(** A browser runtime whose handlers only observe. *)
Definition browser_host : Host :=
  {| isBrowser := true;
     regexp_test := fun _ _ => false;
     call_handler := fun _ context => Ok context;
     date_number := fun _ => VNaN;
     utc_string := fun _ => "";
     host_plus := fun _ _ => VNaN;
     host_gt := fun _ _ => false |}.

(** [create('store', data)] on the server. *)
Definition store_of (data : value) : DataStore.t :=
  (@Store.create server_host (VStr "store") data []).1.

(** The README's store after [set('foo/bar', { bat: true })]. *)
Definition readme_store : DataStore.t :=
  store_of (VObj [("foo", VObj [("bar", VObj [("bat", VBool true)])])]).

(** A store with one handler registered for every key: [use(handler)]. *)
Definition observed_store : DataStore.t :=
  (DataStore.use (store_of (VObj [])) (VFun 0) VUndefined).1.

(** A store constructed with [{ isWritable: false }]. *)
Definition readonly_store : DataStore.t :=
  (@Store.create server_host (VStr "store")
     (VObj [("foo", VNum 1)]) [("isWritable", VBool false)]).1.

(** A fetch-capable store that has fetched [beep] and has a cursor. *)
Definition fetching_store : DataStore.t :=
  {| DataStore.destroyed := false; DataStore.isWritable := true;
     DataStore._cursors := ["/beep"];
     DataStore._data := VObj [("beep", VObj [("beep", VStr "foo")])];
     DataStore._handlers := [];
     DataStore._serialisableKeys := VObj [];
     DataStore._fetchedKeys := [("beep", VBool true)];
     DataStore.GRACE := VUndefined |}.



(** A store caching [beep] until time 5000. *)
Definition fresh_store : DataStore.t :=
  store_of (VObj [("beep", VObj [("beep", VStr "foo"); ("__expires", VNum 5000)])]).



(** The README's store after [set('stuff', reference('foo/bar'))]. *)
Definition aliased_store : DataStore.t :=
  store_of (VObj [("foo", VObj [("bar", VObj [("bat", VBool true)])]);
                  ("stuff", VStr "__ref:foo/bar")]).

(** [a/x] is an alias of [a] itself. *)
Definition self_nested_store : DataStore.t :=
  store_of (VObj [("a", VObj [("x", VStr "__ref:a")])]).

(** A server runtime in which the handler function [0] throws and the others
    only observe. *)
Definition failing_host : Host :=
  {| isBrowser := false;
     regexp_test := fun _ _ => false;
     call_handler := fun fid context =>
                       if Nat.eqb fid 0 then Throw TypeError else Ok context;
     date_number := fun _ => VNaN;
     utc_string := fun _ => "";
     host_plus := fun _ _ => VNaN;
     host_gt := fun _ _ => false |}.

(** * Properties *)

(** Induction on values, through arrays and objects. *)
Lemma value_nested_ind (P : value -> Prop) :
  P VUndefined -> P VNull -> (forall b, P (VBool b)) -> (forall n, P (VNum n)) ->
  P VNaN -> (forall s, P (VStr s)) ->
  (forall l, Forall P l -> P (VArr l)) ->
  (forall o, Forall (fun kx => P kx.2) o -> P (VObj o)) ->
  (forall f, P (VFun f)) -> (forall r, P (VRegExp r)) -> P VStore ->
  forall v, P v.
Proof.
  intros Hu Hn Hb Hz Hnan Hs Harr Hobj Hf Hr Hst.
  fix IH 1. intros [| |b|n| |s|l|o|f|r|].
  - exact Hu.
  - exact Hn.
  - apply Hb.
  - apply Hz.
  - exact Hnan.
  - apply Hs.
  - apply Harr. induction l as [|x l IHl]; constructor; [apply IH | exact IHl].
  - apply Hobj. induction o as [|[k x] o IHo]; constructor;
      [apply IH | exact IHo].
  - apply Hf.
  - apply Hr.
  - exact Hst.
Qed.

(** ** Lookups through [obj_set] and [assign] *)

Lemma obj_get_set_eq (o : props) (k : string) (v : value) :
  obj_get (obj_set o k v) k = Some v.
Proof.
  induction o as [|[k' v'] o IH]; simpl.
  - by rewrite String.eqb_refl.
  - destruct (String.eqb k' k) eqn:E; simpl; rewrite E; [done | exact IH].
Qed.

Lemma obj_get_set_ne (o : props) (k k' : string) (v : value) :
  k <> k' -> obj_get (obj_set o k v) k' = obj_get o k'.
Proof.
  intros Hne. induction o as [|[k0 v0] o IH]; simpl.
  - destruct (String.eqb k k') eqn:E; [|done].
    apply String.eqb_eq in E. contradiction.
  - destruct (String.eqb k0 k) eqn:E; simpl.
    + apply String.eqb_eq in E. subst k0.
      destruct (String.eqb k k') eqn:E'; [|done].
      apply String.eqb_eq in E'. contradiction.
    + destruct (String.eqb k0 k'); [done | exact IH].
Qed.

Lemma obj_get_None_keys (o : props) (k : string) :
  k ∉ o.*1 -> obj_get o k = None.
Proof.
  induction o as [|[k0 v0] o IH]; simpl; [done|].
  intros Hnot. destruct (String.eqb k0 k) eqn:E.
  - apply String.eqb_eq in E. subst. exfalso. apply Hnot. left.
  - apply IH. intros Hin. apply Hnot. by right.
Qed.

(** Writing the properties of a well-formed source (distinct names) onto a
    target: the source's value wins, the target keeps what the source lacks. *)
Lemma obj_get_assign_props (src tgt : props) (k : string) :
  NoDup src.*1 ->
  obj_get (fold_left (fun t kv => obj_set t kv.1 kv.2) src tgt) k =
  match obj_get src k with Some x => Some x | None => obj_get tgt k end.
Proof.
  revert tgt. induction src as [|[k0 v0] src IH]; intros tgt Hnd; [done|].
  cbn [fmap list_fmap fst] in Hnd. apply NoDup_cons in Hnd as [Hk0 Hnd].
  cbn [fold_left fst snd obj_get]. rewrite (IH _ Hnd).
  destruct (String.eqb k0 k) eqn:E.
  - apply String.eqb_eq in E. subst k0.
    by rewrite (obj_get_None_keys _ _ Hk0), obj_get_set_eq.
  - apply String.eqb_neq in E.
    destruct (obj_get src k); [done|]. by apply obj_get_set_ne.
Qed.

(** The names the model takes for inherited are those of
    [Object.prototype]. *)
Lemma inherited_false (k : string) :
  inherited k = false <-> k ∉ Object_prototype_names.
Proof.
  unfold inherited. split.
  - intros Hno Hin. apply not_true_iff_false in Hno. apply Hno.
    apply existsb_exists. exists k. split; [| apply String.eqb_refl].
    by apply list_elem_of_In.
  - intros Hnot. apply not_true_iff_false. intros Hex.
    apply existsb_exists in Hex as (k' & Hin & Heq).
    apply String.eqb_eq in Heq. subst k'. by apply Hnot, list_elem_of_In.
Qed.

(** C10. [mergeOptions] keeps, for every field, the value the context's own
    options already have, and takes the value of the passed object only for
    fields the context's options lack.  Both option objects are plain
    sources: their property names are distinct and none is [__proto__],
    which [assign] would not write as a property. *)
Theorem mergeOptions_existing_options_win
    (this : props) (options : value) (k : string) :
  plain_source options ->
  plain_source (obj_read this "options") ->
  exists merged : props,
    obj_get (HandlerContext.mergeOptions this options) "options"
      = Some (VObj merged) /\
    obj_get merged k =
      match obj_get (own_enumerable (obj_read this "options")) k with
      | Some x => Some x
      | None => obj_get (own_enumerable options) k
      end.
Proof.
  intros (_ & Hopt & _) (_ & Hold & _).
  exists (assign [] [options; obj_read this "options"]). split.
  - unfold HandlerContext.mergeOptions. apply obj_get_set_eq.
  - unfold assign, assign_one. simpl.
    rewrite (obj_get_assign_props _ _ _ Hold).
    destruct (obj_get (own_enumerable (obj_read this "options")) k); [done|].
    rewrite (obj_get_assign_props _ _ _ Hopt).
    by destruct (obj_get (own_enumerable options) k).
Qed.

(** The README's handler merging [{merge: false}]: a [set] call made with
    [{immutable: true}] keeps its own [immutable] although the handler passes
    [immutable: false]. *)
Lemma mergeOptions_existing_options_win_witness :
  let this := [("key", VStr "foo/bat");
               ("options", VObj [("immutable", VBool true)])] in
  let options := VObj [("merge", VBool false); ("immutable", VBool false)] in
  plain_source options /\
  plain_source (obj_read this "options") /\
  exists merged : props,
    obj_get (HandlerContext.mergeOptions this options) "options"
      = Some (VObj merged) /\
    obj_get merged "immutable" = Some (VBool true).
Proof.
  intros this options.
  assert (H1 : plain_source options).
  { split; [done | split].
    - vm_compute. apply (bool_decide_unpack _). vm_compute. exact I.
    - repeat constructor; discriminate. }
  assert (H2 : plain_source (obj_read this "options")).
  { split; [done | split].
    - vm_compute. apply (bool_decide_unpack _). vm_compute. exact I.
    - repeat constructor; discriminate. }
  split; [exact H1 | split; [exact H2 |]].
  exact (mergeOptions_existing_options_win this options "immutable" H1 H2).
Defined.

(** ** The handler registry *)

(** The backwards scan of [unuse], entered with counter [j] on a list of at
    least [j] entries, never reads past the end of the array; it filters the
    first [j] entries and leaves the others in place. *)
Lemma unuse_scan_filter (h : value) (j : nat) (hs : list DataStore.handler_entry) :
  j <= length hs ->
  DataStore.unuse_scan h j hs =
    (List.filter (fun e => negb (DataStore.same_handler e h)) (take j hs)
       ++ drop j hs, Ok ()).
Proof.
  revert hs. induction j as [|j IH]; intros hs Hj.
  - simpl. by rewrite drop_0.
  - destruct (lookup_lt_is_Some_2 hs j) as [e He]; [lia|].
    cbn [DataStore.unuse_scan]. rewrite He.
    rewrite (take_S_r _ _ _ He), List.filter_app. cbn [List.filter].
    destruct (DataStore.same_handler e h) eqn:Hsame; cbn [negb].
    + rewrite IH by (rewrite length_delete by eauto; lia).
      rewrite delete_take_drop.
      rewrite take_app_length' by (rewrite length_take; lia).
      rewrite drop_app_length' by (rewrite length_take; lia).
      by rewrite app_nil_r.
    + rewrite IH by lia.
      rewrite (drop_S _ _ _ He). by rewrite <- app_assoc.
Qed.

Lemma unuse_scan_all (h : value) (hs : list DataStore.handler_entry) :
  DataStore.unuse_scan h (length hs) hs =
    (List.filter (fun e => negb (DataStore.same_handler e h)) hs, Ok ()).
Proof.
  rewrite unuse_scan_filter by lia.
  by rewrite firstn_all, drop_all, app_nil_r.
Qed.

(** C8. [unuse (match, handler)] called with anything but a batch list
    returns without throwing and leaves registered exactly the entries whose
    handler function is not the given one ([handler], or [match] itself when
    the function is passed alone), in their order and whatever matcher they
    were registered with; nothing else of the store changes. *)
Theorem unuse_removes_exactly_the_handler
    (st : DataStore.t) (m h : value) :
  isArray m = false ->
  let given := if isFunction m then m else h in
  DataStore.unuse st m h =
    (DataStore.with_handlers st
       (List.filter (fun e => negb (DataStore.same_handler e given))
                    (DataStore._handlers st)),
     Ok ()).
Proof.
  intros Harr given. unfold DataStore.unuse.
  assert (Hp : DataStore.handler_pairs m h = [VArr [m; h]])
    by (destruct m; simpl in *; congruence).
  rewrite Hp. unfold DataStore.unuse_pairs, DataStore.unuse_pair.
  simpl destructure2. cbv iota beta. fold given.
  by rewrite unuse_scan_all.
Qed.

(** [unuse('foo', h)] on a registry holding [h] twice, under different
    matchers, and another handler once. *)
Lemma unuse_removes_exactly_the_handler_witness :
  let st := DataStore.with_handlers (store_of (VObj []))
              [ {| DataStore.handler := 1; DataStore.match_ := VStr "foo" |};
                {| DataStore.handler := 2; DataStore.match_ := VStr "foo" |};
                {| DataStore.handler := 1; DataStore.match_ := VRegExp 0 |} ] in
  isArray (VStr "foo") = false /\
  DataStore.unuse st (VStr "foo") (VFun 1) =
    (DataStore.with_handlers st
       [ {| DataStore.handler := 2; DataStore.match_ := VStr "foo" |} ],
     Ok ()).
Proof.
  intros st. split; [reflexivity |].
  exact (unuse_removes_exactly_the_handler st (VStr "foo") (VFun 1) eq_refl).
Defined.

(** ** Misuse *)

(** C7. [set] with a falsy key, [set] on a store that is not writable and
    [fetch] with a falsy key all return [undefined] without throwing and
    leave the whole store, its data tree included, as it was. *)
Theorem misuse_is_a_silent_no_op `{Host}
    (st : DataStore.t) (k v options url : value) (max_hops : nat) (now : Z) :
  (DataStore.isWritable st = false \/ truthy k = false ->
     Store.set st k v options = (st, Ok VUndefined)) /\
  (truthy k = false ->
     FetchableDataStore.fetch max_hops now st k url options
       = (st, Ok FetchableDataStore.ReturnsUndefined)).
Proof.
  split.
  - intros [Hw | Hk]; unfold Store.set.
    + by rewrite Hw.
    + rewrite Hk. by rewrite orb_true_r.
  - intros Hk. unfold FetchableDataStore.fetch. by rewrite Hk.
Qed.

(** [set('foo', 2)] on a store constructed with [{isWritable: false}], and
    [fetch(undefined, url)] on a fetch-capable store. *)
Lemma misuse_is_a_silent_no_op_witness :
  DataStore.isWritable readonly_store = false /\
  @Store.set server_host readonly_store (VStr "foo") (VNum 2) VUndefined
    = (readonly_store, Ok VUndefined) /\
  truthy VUndefined = false /\
  @FetchableDataStore.fetch server_host 8 1000 fetching_store VUndefined
      (VStr "http://localhost/beep") VUndefined
    = (fetching_store, Ok FetchableDataStore.ReturnsUndefined).
Proof.
  split; [reflexivity | split; [| split; [reflexivity |]]].
  - exact (proj1 (@misuse_is_a_silent_no_op server_host readonly_store
                    (VStr "foo") (VNum 2) VUndefined VUndefined 8 1000)
             (or_introl eq_refl)).
  - exact (proj2 (@misuse_is_a_silent_no_op server_host fetching_store
                    VUndefined VUndefined VUndefined
                    (VStr "http://localhost/beep") 8 1000)
             eq_refl).
Defined.

(** ** Destroying a fetch-capable store *)

(** C5, as the code has it. [destroy] of the fetch-capable store calls
    [abort()] first and [destroy] of the plain store after it.  What it
    touches outside the store is, in this order: in a browser the network
    calls whose id the registry of fetched keys answers to are aborted (on
    a server none is); the timer of every fetched key is cancelled, once
    each; every cursor is destroyed, once each; the listeners are removed.
    The first two are the effects of [abort()], the last two those of the
    plain [destroy].  It leaves the registry of fetched keys empty, the
    store marked destroyed and cursors, handlers, data and serialisability
    state cleared.  (Within the timers, and within the cursors, the order
    is that of [for..in], which is left open here.) *)
Theorem destroy_aborts_fetches_first `{Host} (st : DataStore.t) :
  exists cancelled destroyed,
    FetchableDataStore.destroy st =
      ({| DataStore.destroyed := true;
          DataStore.isWritable := DataStore.isWritable st;
          DataStore._cursors := [];
          DataStore._data := VObj [];
          DataStore._handlers := [];
          DataStore._serialisableKeys := VObj [];
          DataStore._fetchedKeys := [];
          DataStore.GRACE := DataStore.GRACE st |},
       (if isBrowser then [AgentAbortedFetched (DataStore._fetchedKeys st)]
        else [])
       ++ cancelled ++ destroyed ++ [ListenersRemoved]) /\
    cancelled ≡ₚ (fun k => ClockCancelled (VStr k)) <$> (DataStore._fetchedKeys st).*1 /\
    destroyed ≡ₚ CursorDestroyed <$> DataStore._cursors st /\
    (FetchableDataStore.abort st VUndefined).1.2
      = (if isBrowser then [AgentAbortedFetched (DataStore._fetchedKeys st)]
         else [])
        ++ cancelled /\
    (DataStore.destroy (FetchableDataStore.abort st VUndefined).1.1).2
      = destroyed ++ [ListenersRemoved].
Proof.
  exists ((fun k => ClockCancelled (VStr k)) <$> (DataStore._fetchedKeys st).*1),
         (CursorDestroyed <$> DataStore._cursors st).
  unfold FetchableDataStore.destroy, FetchableDataStore.abort,
    DataStore.destroy. cbn [truthy negb fst snd].
  split; [| done].
  f_equal. by rewrite <- app_assoc.
Qed.

(** C5 as stated fails: destroying a store that has fetched [beep] cancels
    the timer of [beep] and forgets the key, without any call to [abort] by
    the caller. *)
Lemma destroy_cancels_the_timer_of_beep :
  ClockCancelled (VStr "beep")
    ∈ (@FetchableDataStore.destroy server_host fetching_store).2 /\
  DataStore._fetchedKeys fetching_store = [("beep", VBool true)] /\
  DataStore._fetchedKeys
    (@FetchableDataStore.destroy server_host fetching_store).1 = [].
Proof.
  split; [| split; reflexivity].
  vm_compute. apply list_elem_of_here.
Qed.

(** In a browser, destroying the same store first aborts the network calls
    of [beep]. *)
Lemma destroy_in_a_browser_aborts_the_calls :
  (@FetchableDataStore.destroy browser_host fetching_store).2
    = [AgentAbortedFetched [("beep", VBool true)]; ClockCancelled (VStr "beep");
       CursorDestroyed "/beep"; ListenersRemoved].
Proof. reflexivity. Qed.

(** ** The context, used as its constructor documents *)

Lemma obj_get_indexed_from (n : nat) (l : list value) (i : nat) :
  obj_get (imap (fun j v => (pretty (n + j), v)) l) (pretty (n + i)) = l !! i.
Proof.
  revert n i. induction l as [|x l IH]; intros n i; [done |].
  cbn [imap obj_get]. destruct (String.eqb (pretty (n + 0)) (pretty (n + i))) eqn:E.
  - apply String.eqb_eq, (inj pretty) in E.
    assert (i = 0) as -> by lia. done.
  - apply String.eqb_neq in E. destruct i as [|i]; [done |].
    change ((x :: l) !! S i) with (l !! i).
    rewrite <- (IH (S n) i).
    replace (n + S i) with (S n + i) by lia.
    f_equal. apply imap_ext. intros j y _. simpl. do 2 f_equal. lia.
Qed.

(** [args[i]] for an index within the array. *)
Lemma member_of_array (l : list value) (i : nat) (x : value) :
  l !! i = Some x -> member (VArr l) (pretty i) = Ok x.
Proof.
  intros Hx. simpl. unfold obj_read, indexed.
  assert (Hget : obj_get (imap (fun j v => (pretty j, v)) l) (pretty i) = Some x).
  { rewrite <- Hx. apply (obj_get_indexed_from 0). }
  revert Hget. generalize (imap (fun j v => (pretty j, v)) l). intros o Hget.
  assert (Happ : forall o', obj_get (o ++ o') (pretty i) = Some x).
  { induction o as [|[k y] o IHo]; [done |]. intros o'. simpl in *.
    destruct (String.eqb k (pretty i)); [done | by apply IHo]. }
  by rewrite Happ.
Qed.

Lemma copy_arguments_plain (names : list string) (this : props) (i : nat)
    (args : list value) :
  NoDup names -> Forall plain_name names -> i + length names <= length args ->
  exists this',
    HandlerContext.copy_arguments this names i (VArr args) = Ok this' /\
    (forall k, k ∉ names -> obj_get this' k = obj_get this k) /\
    (forall j name, names !! j = Some name -> obj_get this' name = args !! (i + j)).
Proof.
  revert this i. induction names as [|name names IH]; intros this i Hnd Hplain Hlen.
  - exists this. split; [done | split; [done |]].
    intros j name Hj. by destruct j.
  - apply NoDup_cons in Hnd as [Hfresh Hnd].
    apply Forall_cons in Hplain as [[Hvar _] Hplain].
    destruct (lookup_lt_is_Some_2 args i) as [x Hx]; [simpl in Hlen; lia |].
    cbn [HandlerContext.copy_arguments]. rewrite Hvar.
    rewrite (member_of_array _ _ _ Hx). cbn [mbind result_bind].
    destruct (IH (obj_set this name x) (S i) Hnd Hplain) as (this' & Hcopy & Hother & Hnames);
      [simpl in Hlen; lia |].
    exists this'. split; [exact Hcopy | split].
    + intros k Hk. apply not_elem_of_cons in Hk as [Hne Hk].
      rewrite (Hother k Hk). by apply obj_get_set_ne.
    + intros [|j] name' Hj; simpl in Hj.
      * injection Hj as <-. rewrite (Hother name Hfresh), obj_get_set_eq.
        by rewrite Nat.add_0_r.
      * rewrite (Hnames j name' Hj). f_equal. lia.
Qed.

Lemma collect_arguments_plain (this : props) (names : list string) :
  Forall plain_name names ->
  HandlerContext.collect_arguments this names = Ok (obj_read this <$> names).
Proof.
  induction 1 as [|name names [Hvar _] _ IH]; [done |].
  cbn [HandlerContext.collect_arguments]. rewrite Hvar, IH. done.
Qed.

Lemma as_signature_names (names : list string) :
  HandlerContext.as_signature (VArr (VStr <$> names)) = Some names.
Proof.
  simpl. apply mapM_Some.
  induction names as [|name names IH]; constructor; [done | exact IH].
Qed.

(** Built as its constructor documents, from a signature of distinct plain
    names and at least as many arguments, the context binds each name to its
    argument and [toArguments] gives the arguments back, in order. *)
Lemma context_gives_its_arguments_back (store : value) (names : list string)
    (args : list value) :
  NoDup names -> Forall plain_name names -> length names <= length args ->
  exists context,
    HandlerContext.new store (VArr (VStr <$> names)) (VArr args) = Ok context /\
    (forall j name, names !! j = Some name -> obj_get context name = args !! j) /\
    HandlerContext.toArguments context = Ok (take (length names) args).
Proof.
  intros Hnd Hplain Hlen. unfold HandlerContext.new.
  rewrite as_signature_names. cbn [of_option mbind result_bind].
  destruct (copy_arguments_plain names
              (obj_set (obj_set [] "signature" (VArr (VStr <$> names))) "store" store)
              0 args Hnd Hplain) as (context & Hcopy & Hother & Hnames); [lia |].
  exists context. split; [exact Hcopy | split; [exact Hnames |]].
  unfold HandlerContext.toArguments.
  assert (Hsig : obj_read context "signature" = VArr (VStr <$> names)).
  { unfold obj_read. rewrite Hother; [done |].
    intros Hin. by destruct (proj1 (Forall_forall _ _) Hplain _ Hin) as (_ & Hne & _). }
  rewrite Hsig, as_signature_names. cbn [of_option mbind result_bind].
  rewrite (collect_arguments_plain _ _ Hplain). f_equal.
  apply list_eq. intros j. rewrite list_lookup_fmap.
  destruct (names !! j) as [name|] eqn:Hj; simpl.
  - unfold obj_read. rewrite (Hnames j name Hj).
    apply lookup_lt_Some in Hj.
    rewrite lookup_take_lt by done. change (0 + j) with j.
    destruct (lookup_lt_is_Some_2 args j) as [x ->]; [lia | done].
  - apply lookup_ge_None in Hj. symmetry. apply lookup_ge_None.
    rewrite length_take. lia.
Qed.

(** ** The handler pipeline *)

(** C1 fails on the code. With a handler registered, [set('foo', 1)] builds
    the context from the method name and the signature instead of the
    signature and the call arguments: its fields are [s], [e] and [t], bound
    to the names ['key'], ['value'] and ['options'], and the bound
    implementation is called with those names, not with [('foo', 1,
    undefined)]. *)
Theorem routed_set_passes_the_signature_names :
  DataStore.new_context "set" ["key"; "value"; "options"]
      [VStr "foo"; VNum 1; VUndefined]
    = Ok [("signature", VStr "set"); ("store", VStore);
          ("s", VStr "key"); ("e", VStr "value"); ("t", VStr "options")] /\
  @DataStore.routed_arguments server_host observed_store "set"
      ["key"; "value"; "options"] [VStr "foo"; VNum 1; VUndefined]
    = Ok [VStr "key"; VStr "value"; VStr "options"] /\
  DataStore._data
    (@Store.set server_host observed_store (VStr "foo") (VNum 1) VUndefined).1
    = VObj [("key", VStr "value")].
Proof. repeat split; reflexivity. Qed.

(** ** Key resolution *)

Lemma member_not_nullish (v : value) (k : string) :
  isNullish v = false -> exists x, member v k = Ok x.
Proof. destruct v; simpl; intros; try discriminate; eauto. Qed.


Lemma starts_with_app (p s : string) : starts_with p (p +:+ s) = true.
Proof.
  unfold starts_with. induction p as [|c p IH]; simpl.
  - by destruct s.
  - destruct (Ascii.ascii_dec c c); [exact IH | done].
Qed.

Lemma slice_from_app (p s : string) : slice_from (String.length p) (p +:+ s) = s.
Proof. induction p as [|c p IH]; simpl; [by destruct s | exact IH]. Qed.

(** ** The fetch engine *)

(** C9. A load that succeeds with a falsy body writes nothing: the store is
    left exactly as it was, the promise of [load] resolves with the
    response, and the promise of the fetch that issued the load resolves
    with what the store holds at the key. *)
Theorem load_with_empty_body_writes_nothing `{Host}
    (max_hops : nat) (now : Z) (st : DataStore.t) (lc : fetch_js.load_call)
    (res : fetch_js.http_response) :
  truthy (fetch_js.res_body res) = false ->
  fetch_js.load_settle now st lc (fetch_js.Loaded res) = (st, Resolved res) /\
  forall stale held,
    methods.get max_hops st (fetch_js.load_key lc) = Ok held ->
    fetch_js.settle max_hops now st (fetch_js.Loading lc stale)
        (fetch_js.Loaded res)
      = (st, Resolved {| fetch_js.body := held;
                         fetch_js.duration := fetch_js.res_duration res;
                         fetch_js.error := None;
                         fetch_js.headers := fetch_js.res_headers res;
                         fetch_js.key := fetch_js.load_key lc |}).
Proof.
  intros Hbody.
  assert (Hload : fetch_js.load_settle now st lc (fetch_js.Loaded res)
                  = (st, Resolved res)).
  { unfold fetch_js.load_settle, fetch_js.load_then. by rewrite Hbody. }
  split; [exact Hload |].
  intros stale held Hheld. simpl. unfold fetch_js.promiseToLoad_settle.
  by rewrite Hload, Hheld.
Qed.

(** A load of [beep] answered with an empty string. *)
Lemma load_with_empty_body_writes_nothing_witness :
  let lc := {| fetch_js.load_key := VStr "beep";
               fetch_js.load_url := VStr "http://localhost/beep";
               fetch_js.load_options := [("id", VStr "beep")] |} in
  let res := {| fetch_js.res_body := VStr "";
                fetch_js.res_duration := VNum 10;
                fetch_js.res_headers := VObj [("expires", VNum 5000)] |} in
  truthy (fetch_js.res_body res) = false /\
  @fetch_js.load_settle server_host 1000 fetching_store lc (fetch_js.Loaded res)
    = (fetching_store, Resolved res).
Proof.
  intros lc res. split; [reflexivity |].
  exact (proj1 (@load_with_empty_body_writes_nothing server_host 8 1000
                  fetching_store lc res eq_refl)).
Defined.

(** *** Reading only looks at the tree *)

Lemma substitute_aliases_ext (f g : value -> result value) (v : value) :
  (forall alias, f alias = g alias) ->
  methods.substitute_aliases f v = methods.substitute_aliases g v.
Proof.
  intros Hfg.
  induction v as [| |b|n| |s|l IHl|o IHo|fid|r|] using value_nested_ind;
    simpl; try done.
  - by rewrite Hfg.
  - assert (Hitems :
      (fix items (l : list value) : result (list value) :=
         match l with
         | [] => Ok []
         | x :: l' =>
             x' ← methods.substitute_aliases f x; r ← items l'; Ok (x' :: r)
         end) l =
      (fix items (l : list value) : result (list value) :=
         match l with
         | [] => Ok []
         | x :: l' =>
             x' ← methods.substitute_aliases g x; r ← items l'; Ok (x' :: r)
         end) l).
    { induction IHl as [|x l Hx _ IH]; [done |]. by rewrite Hx, IH. }
    by rewrite Hitems.
  - assert (Hfields :
      (fix fields (o : props) : result props :=
         match o with
         | [] => Ok []
         | kx :: o' =>
             x' ← methods.substitute_aliases f kx.2;
             r ← fields o'; Ok ((kx.1, x') :: r)
         end) o =
      (fix fields (o : props) : result props :=
         match o with
         | [] => Ok []
         | kx :: o' =>
             x' ← methods.substitute_aliases g kx.2;
             r ← fields o'; Ok ((kx.1, x') :: r)
         end) o).
    { induction IHo as [|kx o Hx _ IH]; [done |]. by rewrite Hx, IH. }
    by rewrite Hfields.
Qed.

Lemma resolveRefKey_reads_the_tree (st1 st2 : DataStore.t) (k : value) :
  DataStore._data st1 = DataStore._data st2 ->
  DataStore._resolveRefKey st1 k = DataStore._resolveRefKey st2 k.
Proof.
  intros Hdata. destruct k; try done. simpl.
  unfold DataStore.resolve_string. by rewrite Hdata.
Qed.

Lemma dereference_reads_the_tree (hops : nat) (st1 st2 : DataStore.t) (v : value) :
  DataStore._data st1 = DataStore._data st2 ->
  methods.dereference hops st1 v = methods.dereference hops st2 v.
Proof.
  intros Hdata. revert v. induction hops as [|hops IH]; intros v; simpl.
  - done.
  - apply substitute_aliases_ext. intros alias.
    rewrite (resolveRefKey_reads_the_tree st1 st2 _ Hdata), Hdata.
    destruct (DataStore._resolveRefKey st2 _); [apply IH | done].
Qed.

Lemma get_reads_the_tree (hops : nat) (st1 st2 : DataStore.t) (k : value) :
  DataStore._data st1 = DataStore._data st2 ->
  methods.get hops st1 k = methods.get hops st2 k.
Proof.
  intros Hdata. unfold methods.get.
  rewrite (resolveRefKey_reads_the_tree st1 st2 _ Hdata), Hdata.
  destruct (negb (truthy k)); [by apply dereference_reads_the_tree |].
  destruct (DataStore._resolveRefKey st2 k); [| done].
  by apply dereference_reads_the_tree.
Qed.

(** A value whose expiry is not yet past is served as it is. *)
Lemma fresh_value_is_served `{Host}
    (max_hops : nat) (now : Z) (st : DataStore.t) (k url options : value)
    (cached : props) (expiresAt : Z) :
  truthy k = true ->
  methods.get max_hops st k = Ok (VObj cached) ->
  obj_get cached fetch_js.EXPIRES_KEY = Some (VNum expiresAt) ->
  (now <= expiresAt)%Z ->
  fetch_js.fetch max_hops now st k url options =
    Ok (fetch_js.Settled
          {| fetch_js.body := VObj cached;
             fetch_js.duration := VNum 0;
             fetch_js.error := None;
             fetch_js.headers := VObj [("status", VNum 200)];
             fetch_js.key := k |}).
Proof.
  intros Hk Hget Hexp Hnow.
  unfold fetch_js.fetch. rewrite Hk. simpl.
  unfold fetch_js.doFetch. rewrite Hget. simpl.
  unfold fetch_js.hasExpired, obj_has, obj_read. rewrite Hexp. simpl.
  unfold js_gt. simpl.
  assert (Hlt : (expiresAt <? now)%Z = false) by (apply Z.ltb_ge; lia).
  by rewrite Hlt.
Qed.

Lemma mark_fetched_keeps_the_rest (st : DataStore.t) (s : string) :
  DataStore._data (FetchableDataStore.mark_fetched st s) = DataStore._data st /\
  DataStore._handlers (FetchableDataStore.mark_fetched st s)
    = DataStore._handlers st.
Proof. unfold FetchableDataStore.mark_fetched. by destruct (negb _). Qed.

(** The method [fetch] of a fetch-capable store with no handler registered
    serves a fresh value in the same way, after registering the key.  (With
    a handler registered the call is routed through a context built from
    the method name and the signature.) *)
Lemma store_fetch_of_a_fresh_value `{Host}
    (max_hops : nat) (now : Z) (st : DataStore.t) (s : string)
    (url options : value) (cached : props) (expiresAt : Z) :
  s <> "" -> strip_slash s = s -> DataStore._handlers st = [] ->
  methods.get max_hops st (VStr s) = Ok (VObj cached) ->
  obj_get cached fetch_js.EXPIRES_KEY = Some (VNum expiresAt) ->
  (now <= expiresAt)%Z ->
  FetchableDataStore.fetch max_hops now st (VStr s) url options
    = (FetchableDataStore.mark_fetched st s,
       Ok (FetchableDataStore.ReturnsPromise
             (fetch_js.Settled
                {| fetch_js.body := VObj cached;
                   fetch_js.duration := VNum 0;
                   fetch_js.error := None;
                   fetch_js.headers := VObj [("status", VNum 200)];
                   fetch_js.key := VStr s |}))).
Proof.
  intros Hs Hstrip Hnone Hget Hexp Hnow.
  assert (Hk : truthy (VStr s) = true).
  { cbn [truthy]. apply String.eqb_neq in Hs. by rewrite Hs. }
  destruct (mark_fetched_keeps_the_rest st s) as [Hdata Hhandlers].
  unfold FetchableDataStore.fetch. rewrite Hk. cbn [negb].
  unfold FetchableDataStore.handled_fetch, DataStore._routeHandledMethod,
    DataStore.routed_arguments.
  rewrite Hhandlers, Hnone.
  assert (Hrouted : DataStore.routed_key ["key"; "url"; "options"]
            [VStr s; url;
             VObj (assign [] [FetchableDataStore.DEFAULT_LOAD_OPTIONS; options])]
          = Ok (VStr s)).
  { unfold DataStore.routed_key. simpl in *. rewrite Hk. by rewrite Hstrip. }
  rewrite Hrouted. cbn [mbind result_bind tail lookup list_lookup default].
  erewrite fresh_value_is_served; [done | done | | exact Hexp | exact Hnow].
  by rewrite (get_reads_the_tree _ _ st _ Hdata).
Qed.



(** *** Settling one fetch *)








(** *** The entries of a batch *)



(** *** [Promise.all] *)

Lemma first_rejection_Some {A : Type} (timeline : list (nat * promise A))
    (e : js_error) :
  fetch_js.first_rejection timeline = Some e ->
  exists i, (i, Rejected e) ∈ timeline.
Proof.
  induction timeline as [|[i [|a|e']] timeline IH]; simpl; [done | | |].
  - intros Hf. destruct (IH Hf) as [j Hj]. exists j. by right.
  - intros Hf. destruct (IH Hf) as [j Hj]. exists j. by right.
  - intros [= ->]. exists i. left.
Qed.







(** ** Writing, then reading *)

(** A value without aliases is its own dereference. *)
Lemma substitute_aliases_alias_free (follow : value -> result value) (v : value) :
  alias_free v = true -> methods.substitute_aliases follow v = Ok v.
Proof.
  induction v as [| |b|n| |s|l IHl|o IHo|f|r|] using value_nested_ind;
    simpl; try done.
  - intros Hfree. apply negb_true_iff in Hfree. by rewrite Hfree.
  - intros Hfree.
    assert (Hitems :
      (fix items (l : list value) : result (list value) :=
         match l with
         | [] => Ok []
         | x :: l' =>
             x' ← methods.substitute_aliases follow x;
             r ← items l'; Ok (x' :: r)
         end) l = Ok l).
    { induction IHl as [|x l Hx _ IH]; [done |].
      simpl in Hfree. apply andb_true_iff in Hfree as [Hfx Hfl].
      rewrite (Hx Hfx). simpl. rewrite (IH Hfl). done. }
    rewrite Hitems. done.
  - intros Hfree.
    assert (Hfields :
      (fix fields (o : props) : result props :=
         match o with
         | [] => Ok []
         | kx :: o' =>
             x' ← methods.substitute_aliases follow kx.2;
             r ← fields o'; Ok ((kx.1, x') :: r)
         end) o = Ok o).
    { induction IHo as [|[k x] o Hx _ IH]; [done |].
      simpl in Hfree. apply andb_true_iff in Hfree as [Hfx Hfl].
      simpl in Hx. cbn [fst snd]. rewrite (Hx Hfx). simpl.
      rewrite (IH Hfl). done. }
    rewrite Hfields. done.
Qed.

Lemma dereference_alias_free (hops : nat) (st : DataStore.t) (v : value) :
  alias_free v = true -> methods.dereference hops st v = Ok v.
Proof.
  intros Hfree. destruct hops; simpl; by apply substitute_aliases_alias_free.
Qed.

Lemma obj_read_set_eq (o : props) (k : string) (v : value) :
  obj_read (obj_set o k v) k = v.
Proof. unfold obj_read. by rewrite obj_get_set_eq. Qed.

Lemma get_path_of_nothing (tree : value) (path : list string) :
  isNullish tree = true -> path <> [] -> property.get_path tree path = VUndefined.
Proof. destruct tree, path; simpl; done. Qed.

Lemma get_path_of_undefined (path : list string) :
  property.get_path VUndefined path = VUndefined.
Proof. by destruct path. Qed.

(** Reading below a node sees nothing unless the node is a mapping or a
    sequence. *)
Lemma get_path_container (old : value) (path : list string) :
  path <> [] ->
  property.get_path (property.container old) path = property.get_path old path.
Proof.
  destruct path as [|seg path]; [done |]. intros _.
  destruct old; try reflexivity; simpl; apply get_path_of_undefined.
Qed.

Lemma list_write_lookup (l : list value) (i : nat) (x : value) :
  property.list_write l i x !! i = Some x.
Proof.
  unfold property.list_write. destruct (i <? length l)%nat eqn:E.
  - apply Nat.ltb_lt in E. by apply list_lookup_insert_eq.
  - apply Nat.ltb_ge in E.
    rewrite lookup_app_r by done.
    rewrite lookup_app_r by (rewrite length_replicate; lia).
    rewrite length_replicate.
    by replace (i - length l - (i - length l)) with 0 by lia.
Qed.

(** A name that denotes an index is the decimal form of that index. *)
Lemma index_of_pretty (seg : string) (i : nat) :
  index_of seg = Some i -> seg = pretty i.
Proof.
  unfold index_of. destruct (negb _ && _); [| done].
  destruct (String.eqb (pretty (digits_value 0 seg)) seg) eqn:E; [| done].
  destruct (_ <? _)%N; [| done]. simpl. intros [= <-].
  apply String.eqb_eq in E. rewrite <- E at 1.
  unfold pretty at 2, pretty_nat. by rewrite N2Nat.id.
Qed.

Lemma obj_read_indexed (l : list value) (i : nat) :
  obj_read (indexed l) (pretty i) = default VUndefined (l !! i).
Proof.
  unfold obj_read, indexed.
  assert (Hget : obj_get (imap (fun j v => (pretty j, v)) l) (pretty i) = l !! i)
    by apply (obj_get_indexed_from 0).
  rewrite Hget. by destruct (l !! i).
Qed.

Lemma set_path_in_a_mapping (o : props) (seg : string) (path : list string)
    (v : value) (merge : bool) :
  property.set_path (VObj o) (seg :: path) v merge =
    VObj (obj_set o seg
            match path with
            | [] => if merge then property.merge_value (obj_read o seg) v else v
            | _ :: _ =>
                property.set_path (property.container (obj_read o seg)) path v merge
            end).
Proof. reflexivity. Qed.

Lemma set_path_in_a_sequence (l : list value) (seg : string) (i : nat)
    (path : list string) (v : value) (merge : bool) :
  index_of seg = Some i ->
  property.set_path (VArr l) (seg :: path) v merge =
    VArr (property.list_write l i
            match path with
            | [] =>
                if merge
                then property.merge_value (default VUndefined (l !! i)) v
                else v
            | _ :: _ =>
                property.set_path
                  (property.container (default VUndefined (l !! i))) path v merge
            end).
Proof. intros Hi. cbn [property.set_path]. by rewrite Hi. Qed.

Lemma get_path_in_a_mapping (o : props) (seg : string) (path : list string) :
  property.get_path (VObj o) (seg :: path) = property.get_path (obj_read o seg) path.
Proof. reflexivity. Qed.

Lemma get_path_in_a_sequence (l : list value) (i : nat) (path : list string) :
  property.get_path (VArr l) (pretty i :: path)
    = property.get_path (default VUndefined (l !! i)) path.
Proof. cbn [property.get_path]. by rewrite obj_read_indexed. Qed.

(** One step of a write at an addressable path: the tree written is the
    root with the node below [seg] replaced, reading [seg] gives the new
    node, and the rest of the path is addressable below. *)
Lemma addressable_step (tree : value) (seg : string) (path : list string)
    (v : value) (merge : bool) :
  addressable tree (seg :: path) = true ->
  exists old,
    property.get_path tree (seg :: path) = property.get_path old path /\
    (path <> [] -> addressable (property.container old) path = true) /\
    let new :=
      match path with
      | [] => if merge then property.merge_value old v else v
      | _ :: _ => property.set_path (property.container old) path v merge
      end in
    property.get_path (property.set_path tree (seg :: path) v merge) (seg :: path)
      = property.get_path new path /\
    member (property.set_path tree (seg :: path) v merge) seg = Ok new.
Proof.
  destruct tree as [| | | | | |l|o | | |]; try done.
  - cbn [addressable]. destruct (index_of seg) as [i|] eqn:Hi; [| done].
    intros Hrest. exists (default VUndefined (l !! i)).
    pose proof (index_of_pretty _ _ Hi) as ->.
    rewrite get_path_in_a_sequence. split; [done |].
    split; [by destruct path |].
    rewrite (set_path_in_a_sequence _ _ _ _ _ _ Hi).
    rewrite get_path_in_a_sequence, list_write_lookup. split; [done |].
    apply member_of_array, list_write_lookup.
  - cbn [addressable]. intros Hrest.
    apply andb_true_iff in Hrest as [_ Hrest].
    exists (obj_read o seg). rewrite get_path_in_a_mapping. split; [done |].
    split; [by destruct path |].
    rewrite set_path_in_a_mapping, get_path_in_a_mapping, obj_read_set_eq.
    split; [done |]. cbn [member]. by rewrite obj_read_set_eq.
Qed.

(** Reading back a path just written: the value written, merged into what
    was there when merging is on. *)
Lemma get_path_set_path (path : list string) (tree v : value) (merge : bool) :
  addressable tree path = true ->
  property.get_path (property.set_path tree path v merge) path =
    if merge then property.merge_value (property.get_path tree path) v else v.
Proof.
  revert tree. induction path as [|seg path IH]; intros tree Hpath; [done |].
  destruct (addressable_step tree seg path v merge Hpath)
    as (old & Hold & Hrest & Hnew & _).
  rewrite Hnew, Hold. destruct path as [|seg' path']; [done |].
  rewrite IH by (by apply Hrest).
  by rewrite get_path_container.
Qed.

Lemma merge_value_not_merging (old v : value) :
  isPlainObject v && isPlainObject old = false ->
  property.merge_value old v = v.
Proof. destruct old, v; simpl; done. Qed.

(** The path accessor reads back what it wrote at an addressable path, when
    nothing is merged. *)
Lemma property_get_set (tree : value) (key : string) (v : value)
    (options : props) :
  addressable tree (property.path_of key) = true ->
  merges tree key v options = false ->
  property.get (property.set tree key v options) key = v.
Proof.
  intros Hpath Hmerge. unfold property.get, property.set.
  rewrite get_path_set_path by done.
  unfold merges, property.get in Hmerge.
  destruct (match obj_get options "merge" with
            | Some m => truthy m
            | None => true
            end); [| done].
  apply merge_value_not_merging.
  rewrite andb_true_l in Hmerge. exact Hmerge.
Qed.

(** *** Resolving a key again after writing under it *)

Lemma set_path_is_a_container (tree : value) (path : list string) (v : value)
    (merge : bool) :
  isPlainObject tree || isArray tree = true ->
  isPlainObject (property.set_path tree path v merge)
  || isArray (property.set_path tree path v merge) = true.
Proof.
  destruct path as [|seg path]; [done |].
  destruct tree; try done. cbn [property.set_path].
  by destruct (index_of seg).
Qed.

Lemma container_is_a_container (old : value) :
  isPlainObject (property.container old) || isArray (property.container old)
    = true.
Proof. by destruct old. Qed.

Lemma merge_value_is_no_alias (old v : value) :
  DataStore._isRefValue v = false ->
  DataStore._isRefValue (property.merge_value old v) = false.
Proof. destruct old, v; simpl; done. Qed.

(** The walk of [_resolveRefKey] down an addressable path just written, with
    no alias written, meets no alias. *)
Lemma walk_after_set_path (path : list string) (tree v : value) (merge : bool)
    (idx : nat) :
  addressable tree path = true ->
  DataStore._isRefValue v = false ->
  exists idx',
    DataStore.walk_to_ref (property.set_path tree path v merge) path idx
      = Ok (None, idx').
Proof.
  revert tree idx. induction path as [|seg path IH]; intros tree idx; [done |].
  intros Hpath Hv.
  destruct (addressable_step tree seg path v merge Hpath)
    as (old & _ & Hrest & _ & Hmember).
  cbn zeta in Hmember. cbn [DataStore.walk_to_ref]. rewrite Hmember.
  cbn [mbind result_bind].
  destruct path as [|seg' path'].
  - set (w := if merge then property.merge_value old v else v).
    assert (Hw : DataStore._isRefValue w = false).
    { unfold w. destruct merge; [by apply merge_value_is_no_alias | done]. }
    destruct (isNullish w); [eauto |].
    destruct w; try (by eexists); rewrite Hw; by eexists.
  - destruct (IH (property.container old) (S idx)) as [idx' Hwalk];
      [by apply Hrest | done |].
    pose proof (set_path_is_a_container (property.container old) (seg' :: path')
                  v merge (container_is_a_container old)) as Hc.
    destruct (property.set_path (property.container old) (seg' :: path') v merge);
      try done; by exists idx'.
Qed.

(** A key that is its own resolution still is after a write under it: the
    last hypothesis of [set_then_get] holds for it. *)
Lemma plain_key_resolves_the_same_after_set (st : DataStore.t) (k : string)
    (v : value) (options : props) :
  strip_slash k = k ->
  k <> "" ->
  DataStore._isRefValue (VStr k) = false ->
  addressable (DataStore._data st) (property.path_of k) = true ->
  DataStore._isRefValue v = false ->
  DataStore._resolveRefKey
    (DataStore.with_data st (property.set (DataStore._data st) k v options))
    (VStr k) = Ok k.
Proof.
  intros Hstrip Hk Href Hpath Hv. simpl. unfold DataStore.resolve_string.
  rewrite Href, Hstrip.
  change (DataStore._data (DataStore.with_data st ?d)) with d.
  unfold property.set, property.path_of in *.
  destruct (String.eqb k "") eqn:E; [by apply String.eqb_eq in E |].
  destruct (walk_after_set_path (split_slash k) (DataStore._data st) v
              (match obj_get options "merge" with
               | Some m => truthy m
               | None => true
               end) 0 Hpath Hv) as [idx' ->].
  cbn [mbind result_bind default]. by rewrite String.eqb_refl.
Qed.

Lemma obj_read_set_ne (o : props) (k k' : string) (v : value) :
  k <> k' -> obj_read (obj_set o k v) k' = obj_read o k'.
Proof. intros Hne. unfold obj_read. by rewrite obj_get_set_ne. Qed.

(** A write under one top-level property of a tree that is no sequence
    leaves the walk of a key that starts with another one as it was. *)
Lemma walk_elsewhere (segs path : list string) (tree v : value) (merge : bool)
    (idx : nat) :
  isArray tree = false ->
  head path <> head segs ->
  DataStore.walk_to_ref (property.set_path tree path v merge) segs idx
    = DataStore.walk_to_ref tree segs idx.
Proof.
  intros Hseq Hhead. destruct segs as [|s0 segs]; [done |].
  destruct path as [|p0 path]; [done |].
  assert (Hne : p0 <> s0) by (intros ->; by apply Hhead).
  destruct tree as [| | | | | | |o | | |]; try done.
  rewrite set_path_in_a_mapping.
  cbn [DataStore.walk_to_ref member]. by rewrite obj_read_set_ne.
Qed.

(** A key that resolves under another top-level property than its own
    resolves the same after a write there: the last hypothesis of
    [set_then_get] holds for it too. *)
Lemma key_resolving_elsewhere_resolves_the_same_after_set (st : DataStore.t)
    (k resolved : string) (v : value) (options : props) :
  isArray (DataStore._data st) = false ->
  head (property.path_of resolved) <> head (split_slash (strip_slash k)) ->
  DataStore._resolveRefKey
    (DataStore.with_data st
       (property.set (DataStore._data st) resolved v options))
    (VStr k) = DataStore._resolveRefKey st (VStr k).
Proof.
  intros Hseq Hhead. simpl. unfold DataStore.resolve_string.
  destruct (DataStore._isRefValue (VStr k)); [done |].
  change (DataStore._data (DataStore.with_data st ?d)) with d.
  unfold property.set. by rewrite walk_elsewhere.
Qed.

(** With no handler registered, a [set] call on a string key reaches the
    bound implementation with the key trimmed of its leading separator. *)
Lemma handled_set_without_handlers `{Host}
    (st : DataStore.t) (k : string) (v options : value) :
  DataStore._handlers st = [] ->
  k <> "" ->
  Store.handled_set st [VStr k; v; options]
    = methods.set st [VStr (strip_slash k); v; options].
Proof.
  intros Hnone Hk. unfold Store.handled_set, DataStore._routeHandledMethod,
    DataStore.routed_arguments, DataStore.routed_key.
  rewrite Hnone. simpl.
  destruct (String.eqb k "") eqn:E; [by apply String.eqb_eq in E |].
  reflexivity.
Qed.

(** C4, as the code has it. On a writable store with no handler registered,
    for a key [k] that is not empty once its leading separator is trimmed
    and a value [v] holding no alias: when [k] resolves to [resolved], the
    write does not merge [v] into a mapping already stored there, and [k]
    still resolves to [resolved] after the write, then [set(k, v, options)]
    returns and [get(k)] afterwards returns [v].  The key is one the model
    is exact on: resolving it reads own properties only, and the path
    accessor, as modelled, writes at the path of [resolved]. *)
Theorem set_then_get `{Host}
    (max_hops : nat) (st : DataStore.t) (k : string) (v options : value)
    (resolved : string) :
  DataStore.isWritable st = true ->
  DataStore._handlers st = [] ->
  strip_slash k <> "" ->
  alias_free v = true ->
  DataStore._resolveRefKey st (VStr (strip_slash k)) = Ok resolved ->
  resolves_by_own_reads st (strip_slash k) = true ->
  addressable (DataStore._data st) (property.path_of resolved) = true ->
  merges (DataStore._data st) resolved v
    (assign [] [methods.DEFAULT_OPTIONS; options]) = false ->
  DataStore._resolveRefKey (Store.set st (VStr k) v options).1 (VStr k)
    = Ok resolved ->
  (Store.set st (VStr k) v options).2 = Ok VUndefined /\
  Store.get max_hops (Store.set st (VStr k) v options).1 (VStr k) = Ok v.
Proof.
  intros Hw Hnone Hk Hfree Hres _ Hpath Hmerge.
  assert (Hk' : k <> "") by (intros ->; by apply Hk).
  assert (Hset : Store.set st (VStr k) v options =
            (DataStore.with_data st
               (property.set (DataStore._data st) resolved v
                  (assign [] [methods.DEFAULT_OPTIONS; options])),
             Ok VUndefined)).
  { unfold Store.set. rewrite Hw. simpl.
    destruct (String.eqb k "") eqn:E; [by apply String.eqb_eq in E |]. simpl.
    rewrite handled_set_without_handlers by done.
    unfold methods.set. simpl.
    destruct (String.eqb (strip_slash k) "") eqn:E';
      [by apply String.eqb_eq in E' |]. simpl.
    unfold methods.doSet. by rewrite Hres. }
  rewrite Hset. cbn [fst snd]. intros Hstable. split; [done |].
  unfold Store.get. cbn [truthy isString negb orb].
  destruct (String.eqb k "") eqn:E; [by apply String.eqb_eq in E |].
  cbn [negb orb]. unfold methods.get. cbn [truthy]. rewrite E. cbn [negb].
  rewrite Hstable.
  change (DataStore._data (DataStore.with_data st ?d)) with d.
  cbn [mbind result_bind].
  rewrite property_get_set by done.
  by apply dereference_alias_free.
Qed.

(** A write through the README's alias: [set('stuff/bat', false)] lands on
    [foo/bar/bat], and [get('stuff/bat')] reads it back. *)
Lemma set_then_get_witness :
  let st := aliased_store in
  let after := (@Store.set server_host st (VStr "stuff/bat") (VBool false) VUndefined).1 in
  DataStore.isWritable st = true /\
  DataStore._handlers st = [] /\
  strip_slash "stuff/bat" <> "" /\
  alias_free (VBool false) = true /\
  DataStore._resolveRefKey st (VStr (strip_slash "stuff/bat")) = Ok "foo/bar/bat" /\
  resolves_by_own_reads st (strip_slash "stuff/bat") = true /\
  addressable (DataStore._data st) (property.path_of "foo/bar/bat") = true /\
  merges (DataStore._data st) "foo/bar/bat" (VBool false)
    (assign [] [@methods.DEFAULT_OPTIONS server_host; VUndefined]) = false /\
  DataStore._resolveRefKey after (VStr "stuff/bat") = Ok "foo/bar/bat" /\
  (@Store.set server_host st (VStr "stuff/bat") (VBool false) VUndefined).2
    = Ok VUndefined /\
  Store.get 8 after (VStr "stuff/bat") = Ok (VBool false).
Proof.
  intros st after.
  assert (H1 : DataStore.isWritable st = true) by reflexivity.
  assert (H2 : DataStore._handlers st = []) by reflexivity.
  assert (H3 : strip_slash "stuff/bat" <> "") by discriminate.
  assert (H4 : alias_free (VBool false) = true) by reflexivity.
  assert (H5 : DataStore._resolveRefKey st (VStr (strip_slash "stuff/bat"))
               = Ok "foo/bar/bat") by reflexivity.
  assert (H5' : resolves_by_own_reads st (strip_slash "stuff/bat") = true)
    by reflexivity.
  assert (H6 : addressable (DataStore._data st) (property.path_of "foo/bar/bat")
               = true) by reflexivity.
  assert (H7 : merges (DataStore._data st) "foo/bar/bat" (VBool false)
                 (assign [] [@methods.DEFAULT_OPTIONS server_host; VUndefined])
               = false) by reflexivity.
  assert (H8 : DataStore._resolveRefKey after (VStr "stuff/bat")
               = Ok "foo/bar/bat") by reflexivity.
  repeat (split; [assumption |]).
  exact (@set_then_get server_host 8 st "stuff/bat" (VBool false) VUndefined
           "foo/bar/bat" H1 H2 H3 H4 H5 H5' H6 H7 H8).
Defined.

(** The same on what the earlier writes left in the way: under a number the
    write puts a new mapping, and in a sequence it writes the element. *)
Lemma set_then_get_through_a_number_and_into_a_sequence :
  let st := store_of (VObj [("n", VNum 1); ("l", VArr [VNum 1; VNum 2])]) in
  Store.get 8 (@Store.set server_host st (VStr "n/x") (VNum 5) VUndefined).1
    (VStr "n/x") = Ok (VNum 5) /\
  DataStore._data (@Store.set server_host st (VStr "n/x") (VNum 5) VUndefined).1
    = VObj [("n", VObj [("x", VNum 5)]); ("l", VArr [VNum 1; VNum 2])] /\
  Store.get 8 (@Store.set server_host st (VStr "l/3") (VNum 5) VUndefined).1
    (VStr "l/3") = Ok (VNum 5) /\
  DataStore._data (@Store.set server_host st (VStr "l/3") (VNum 5) VUndefined).1
    = VObj [("n", VNum 1); ("l", VArr [VNum 1; VNum 2; VUndefined; VNum 5])].
Proof. repeat split; reflexivity. Qed.

(** C4 as stated fails.  A mapping set where a mapping is stored is merged
    into it: after [set('foo/bar', {x: 1})] on the README's store,
    [get('foo/bar')] returns [{bat: true, x: 1}].  The key ['/'] is empty
    once trimmed: [set('/', 1)] writes nothing and [get('/')] returns the
    whole tree.  A write can move the key: where [a/x] is an alias of
    [a], [set('a/x', 5)] overwrites [a], after which [a/x] addresses
    nothing.  And a value that is no alias can hold one: after
    [set('k', {x: '__ref:foo/bar'})], [get('k')] returns the mapping with
    the alias replaced by what it names. *)
Lemma set_then_get_returns_something_else :
  Store.get 8
    (@Store.set server_host readme_store (VStr "foo/bar")
       (VObj [("x", VNum 1)]) VUndefined).1 (VStr "foo/bar")
    = Ok (VObj [("bat", VBool true); ("x", VNum 1)]) /\
  @Store.set server_host readme_store (VStr "/") (VNum 1) VUndefined
    = (readme_store, Ok VUndefined) /\
  Store.get 8 readme_store (VStr "/")
    = Ok (VObj [("foo", VObj [("bar", VObj [("bat", VBool true)])])]) /\
  DataStore._data
    (@Store.set server_host self_nested_store (VStr "a/x") (VNum 5) VUndefined).1
    = VObj [("a", VNum 5)] /\
  Store.get 8
    (@Store.set server_host self_nested_store (VStr "a/x") (VNum 5) VUndefined).1
    (VStr "a/x")
    = Ok VUndefined /\
  DataStore._isRefValue (VObj [("x", VStr "__ref:foo/bar")]) = false /\
  Store.get 8
    (@Store.set server_host readme_store (VStr "k")
       (VObj [("x", VStr "__ref:foo/bar")]) VUndefined).1 (VStr "k")
    = Ok (VObj [("x", VObj [("bat", VBool true)])]).
Proof. repeat split; reflexivity. Qed.

(** ** Aliases: one hop in [_resolveRefKey], the bound of [get] in [dump] *)

(** The loops of [explode] over the elements of an array and over the
    properties of a mapping, when every element comes back unchanged. *)
Ltac explode_items get n :=
  let IHl := fresh "IHl" in
  let Hfree := fresh "Hfree" in
  assert (forall l,
    Forall (fun x => alias_free x = true ->
                     Store.explode get n x = Some (Ok x)) l ->
    forallb alias_free l = true ->
    (fix items (l : list value) : option (result (list value)) :=
       match l with
       | [] => Some (Ok [])
       | x :: l' =>
           match Store.explode get n x with
           | None => None
           | Some (Throw e) => Some (Throw e)
           | Some (Ok x') =>
               match items l' with
               | Some (Ok r) => Some (Ok (x' :: r))
               | other => other
               end
           end
       end) l = Some (Ok l));
  [ clear; intros l IHl;
    induction IHl as [|x l Hx _ IH]; [done |];
    intros Hfree; simpl in Hfree;
    apply andb_true_iff in Hfree as [Hfx Hfl];
    by rewrite (Hx Hfx), (IH Hfl)
  | ].

Ltac explode_fields get n :=
  let IHo := fresh "IHo" in
  let Hfree := fresh "Hfree" in
  assert (forall o,
    Forall (fun kx => alias_free kx.2 = true ->
                      Store.explode get n kx.2 = Some (Ok kx.2)) o ->
    forallb (fun kx => alias_free kx.2) o = true ->
    (fix fields (o : props) : option (result props) :=
       match o with
       | [] => Some (Ok [])
       | kx :: o' =>
           match Store.explode get n kx.2 with
           | None => None
           | Some (Throw e) => Some (Throw e)
           | Some (Ok x') =>
               match fields o' with
               | Some (Ok r) => Some (Ok ((kx.1, x') :: r))
               | other => other
               end
           end
       end) o = Some (Ok o));
  [ clear; intros o IHo;
    induction IHo as [|[k x] o Hx _ IH]; [done |];
    intros Hfree; simpl in Hfree;
    apply andb_true_iff in Hfree as [Hfx Hfl];
    cbn [fst snd] in *; by rewrite (Hx Hfx), (IH Hfl)
  | ].

(** Data without aliases is rebuilt as it is, with any fuel. *)
Lemma explode_alias_free (get : value -> result value) (fuel : nat)
    (data : value) :
  alias_free data = true ->
  Store.explode get fuel data = Some (Ok data).
Proof.
  destruct fuel as [|fuel];
    induction data as [| |b|n| |s|l IHl|o IHo|f|r|] using value_nested_ind;
    intros Hfree; try reflexivity; simpl in Hfree.
  - apply negb_true_iff in Hfree. simpl. by rewrite Hfree.
  - explode_items get 0. specialize (H l IHl Hfree).
    simpl in H. simpl. by rewrite H.
  - explode_fields get 0. specialize (H o IHo Hfree).
    simpl in H. simpl. by rewrite H.
  - apply negb_true_iff in Hfree. simpl. by rewrite Hfree.
  - explode_items get (S fuel). specialize (H l IHl Hfree).
    simpl in H. simpl. by rewrite H.
  - explode_fields get (S fuel). specialize (H o IHo Hfree).
    simpl in H. simpl. by rewrite H.
Qed.


(** [explode] carries no bound of its own: it recurses on whatever
    [store.get] returns, so under a [get] that hands an alias back unchanged
    it never returns. *)
Lemma explode_has_no_bound_of_its_own (get : value -> result value)
    (alias : value) :
  DataStore._isRefValue alias = true ->
  get (DataStore._parseRefKey alias) = Ok alias ->
  forall fuel, Store.explode get fuel alias = None.
Proof.
  intros Href Hget fuel.
  assert (Hstr : exists s, alias = VStr s).
  { unfold DataStore._isRefValue in Href.
    destruct alias; try (by destruct (negb _)). eauto. }
  destruct Hstr as [s ->].
  induction fuel as [|fuel IH].
  - simpl. by rewrite Href.
  - cbn [Store.explode]. rewrite Href, Hget. exact IH.
Qed.

Lemma leaf_alias_free (v : value) :
  isPlainObject v = false -> isArray v = false ->
  DataStore._isRefValue v = false -> alias_free v = true.
Proof.
  destruct v; cbn [alias_free isPlainObject isArray]; try done;
    by intros _ _ ->.
Qed.

Lemma only_a_string_is_an_alias (v : value) :
  isString v = false -> DataStore._isRefValue v = false.
Proof.
  unfold DataStore._isRefValue. destruct v; try done;
    by destruct (negb (truthy _)).
Qed.

(** *** What [get] returns holds no alias *)

Lemma substitute_aliases_leaves_no_alias (follow : value -> result value)
    (v v' : value) :
  (forall alias x, follow alias = Ok x -> alias_free x = true) ->
  methods.substitute_aliases follow v = Ok v' -> alias_free v' = true.
Proof.
  intros Hfollow. revert v'.
  induction v as [| |b|n| |s|l IHl|o IHo|f|r|] using value_nested_ind;
    intros v'; simpl;
    try (intros [= <-]; apply leaf_alias_free; try done;
         by apply only_a_string_is_an_alias).
  - destruct (DataStore._isRefValue (VStr s)) eqn:Href; [apply Hfollow |].
    intros [= <-]. by apply leaf_alias_free.
  - assert (Hitems : forall l',
      (fix items (l : list value) : result (list value) :=
         match l with
         | [] => Ok []
         | x :: l' =>
             x' ← methods.substitute_aliases follow x;
             r ← items l'; Ok (x' :: r)
         end) l = Ok l' -> forallb alias_free l' = true).
    { induction IHl as [|x l Hx _ IH]; intros l'; [by intros [= <-] |].
      destruct (methods.substitute_aliases follow x) as [x'|e] eqn:Hsub;
        simpl; [| done].
      match goal with
      | |- context [mbind _ ?m] => destruct m as [r|e] eqn:Hr
      end; simpl; [| done].
      intros [= <-]. simpl. by rewrite (Hx x' eq_refl), (IH r eq_refl). }
    match goal with
    | |- context [mbind _ ?m] => destruct m as [l'|e] eqn:Hl
    end; simpl; [| done].
    intros [= <-]. simpl. by apply Hitems.
  - assert (Hfields : forall o',
      (fix fields (o : props) : result props :=
         match o with
         | [] => Ok []
         | kx :: o' =>
             x' ← methods.substitute_aliases follow kx.2;
             r ← fields o'; Ok ((kx.1, x') :: r)
         end) o = Ok o' -> forallb (fun kx => alias_free kx.2) o' = true).
    { induction IHo as [|[k x] o Hx _ IH]; intros o'; [by intros [= <-] |].
      cbn [fst snd] in *.
      destruct (methods.substitute_aliases follow x) as [x'|e] eqn:Hsub;
        simpl; [| done].
      match goal with
      | |- context [mbind _ ?m] => destruct m as [r|e] eqn:Hr
      end; simpl; [| done].
      intros [= <-]. simpl. by rewrite (Hx x' eq_refl), (IH r eq_refl). }
    match goal with
    | |- context [mbind _ ?m] => destruct m as [o'|e] eqn:Ho
    end; simpl; [| done].
    intros [= <-]. simpl. by apply Hfields.
Qed.

Lemma dereference_leaves_no_alias (hops : nat) (st : DataStore.t) (v v' : value) :
  methods.dereference hops st v = Ok v' -> alias_free v' = true.
Proof.
  revert v v'. induction hops as [|hops IH]; intros v v' Hd; simpl in Hd;
    eapply substitute_aliases_leaves_no_alias; try exact Hd;
    intros alias x; simpl; [done |].
  destruct (DataStore._resolveRefKey st (DataStore._parseRefKey alias));
    simpl; [apply IH | done].
Qed.

(** [get] hands no alias back: what it returns is dereferenced. *)
Lemma get_leaves_no_alias (max_hops : nat) (st : DataStore.t) (k v : value) :
  methods.get max_hops st k = Ok v -> alias_free v = true.
Proof.
  unfold methods.get. destruct (negb (truthy k)).
  - apply dereference_leaves_no_alias.
  - destruct (DataStore._resolveRefKey st k); simpl; [| done].
    apply dereference_leaves_no_alias.
Qed.

(** Under a [get] that hands no alias back, [explode] follows at most one
    alias in a row: it returns with any positive fuel, with data that holds
    no alias or with an error that [get] reported for an alias. *)
Lemma explode_after_get (get : value -> result value) (fuel : nat)
    (data : value) :
  (forall s v, get (VStr s) = Ok v -> alias_free v = true) ->
  exists r,
    Store.explode get (S fuel) data = Some r /\
    match r with
    | Ok d => alias_free d = true
    | Throw e =>
        exists alias,
          DataStore._isRefValue alias = true /\
          get (DataStore._parseRefKey alias) = Throw e
    end.
Proof.
  intros Hget.
  induction data as [| |b|n| |s|l IHl|o IHo|f|r|] using value_nested_ind;
    try (eexists; split; [reflexivity |];
         apply leaf_alias_free; try done; by apply only_a_string_is_an_alias).
  - cbn [Store.explode].
    destruct (DataStore._isRefValue (VStr s)) eqn:Href.
    + destruct (get (DataStore._parseRefKey (VStr s))) as [target|e] eqn:Ht.
      * exists (Ok target).
        pose proof (Hget _ _ Ht) as Hfree.
        split; [by apply explode_alias_free | done].
      * exists (Throw e). split; [done |]. by exists (VStr s).
    + exists (Ok (VStr s)). split; [done |]. by apply leaf_alias_free.
  - assert (Hitems : exists r,
      (fix items (l : list value) : option (result (list value)) :=
         match l with
         | [] => Some (Ok [])
         | x :: l' =>
             match Store.explode get (S fuel) x with
             | None => None
             | Some (Throw e) => Some (Throw e)
             | Some (Ok x') =>
                 match items l' with
                 | Some (Ok r) => Some (Ok (x' :: r))
                 | other => other
                 end
             end
         end) l = Some r /\
      match r with
      | Ok l' => forallb alias_free l' = true
      | Throw e =>
          exists alias,
            DataStore._isRefValue alias = true /\
            get (DataStore._parseRefKey alias) = Throw e
      end).
    { induction IHl as [|x l (rx & Hx & Hfx) _ (rl & Hl & Hfl)].
      - by exists (Ok []).
      - rewrite Hx. destruct rx as [x'|e].
        + rewrite Hl. destruct rl as [l'|e].
          * exists (Ok (x' :: l')). split; [done |]. simpl.
            by rewrite Hfx, Hfl.
          * by exists (Throw e).
        + by exists (Throw e). }
    destruct Hitems as (rl & Hl & Hfl). simpl in Hl. simpl. rewrite Hl.
    destruct rl as [l'|e]; [by exists (Ok (VArr l')) | by exists (Throw e)].
  - assert (Hfields : exists r,
      (fix fields (o : props) : option (result props) :=
         match o with
         | [] => Some (Ok [])
         | kx :: o' =>
             match Store.explode get (S fuel) kx.2 with
             | None => None
             | Some (Throw e) => Some (Throw e)
             | Some (Ok x') =>
                 match fields o' with
                 | Some (Ok r) => Some (Ok ((kx.1, x') :: r))
                 | other => other
                 end
             end
         end) o = Some r /\
      match r with
      | Ok o' => forallb (fun kx => alias_free kx.2) o' = true
      | Throw e =>
          exists alias,
            DataStore._isRefValue alias = true /\
            get (DataStore._parseRefKey alias) = Throw e
      end).
    { induction IHo as [|[k x] o (rx & Hx & Hfx) _ (ro & Ho & Hfo)].
      - by exists (Ok []).
      - cbn [fst snd] in *. rewrite Hx. destruct rx as [x'|e].
        + rewrite Ho. destruct ro as [o'|e].
          * exists (Ok ((k, x') :: o')). split; [done |]. simpl.
            by rewrite Hfx, Hfo.
          * by exists (Throw e).
        + by exists (Throw e). }
    destruct Hfields as (ro & Ho & Hfo). simpl in Ho. simpl. rewrite Ho.
    destruct ro as [o'|e]; [by exists (Ok (VObj o')) | by exists (Throw e)].
Qed.

(** [store.get] called by [explode], on the target of an alias. *)
Lemma store_get_leaves_no_alias (max_hops : nat) (st : DataStore.t)
    (k v : value) :
  isArray k = false ->
  Store.get max_hops st k = Ok v -> alias_free v = true.
Proof.
  unfold Store.get. destruct (negb (truthy k) || isString k).
  - intros _. apply get_leaves_no_alias.
  - destruct k; try done; by intros _ [= <-].
Qed.

(** [dump()] returns on every tree, with any positive fuel: it follows at
    most one alias in a row, what [get] returns being dereferenced already;
    it returns data that holds no alias, or an error that [get] reported
    for an alias. *)
Lemma dump_returns (max_hops fuel : nat) (st : DataStore.t) :
  exists r,
    Store.dump max_hops (S fuel) st = Some r /\
    match r with
    | Ok d => alias_free d = true
    | Throw e =>
        exists alias,
          DataStore._isRefValue alias = true /\
          Store.get max_hops st (DataStore._parseRefKey alias) = Throw e
    end.
Proof.
  unfold Store.dump. apply explode_after_get.
  intros s v. by apply store_get_leaves_no_alias.
Qed.






(** * Further properties of the code *)

(** ** [lib/HandlerContext.js]: signatures and arguments *)

Lemma obj_get_app (a b : props) (k : string) :
  obj_get (a ++ b) k =
    match obj_get a k with Some x => Some x | None => obj_get b k end.
Proof.
  induction a as [|[k' x] a IH]; [done |]. simpl.
  by destruct (String.eqb k' k).
Qed.

Lemma pretty_N_go_ne_l (x : N) (s s' : string) :
  s <> "l" +:+ s' -> pretty_N_go x s <> "l" +:+ s'.
Proof.
  revert s. induction (N.lt_wf_0 x) as [x _ IH]; intros s Hs.
  assert (x = 0 \/ 0 < x)%N as [->|Hpos] by lia.
  - by rewrite pretty_N_go_0.
  - rewrite pretty_N_go_step by done. apply IH.
    { by apply N.div_lt. }
    unfold pretty_N_char. by repeat case_match.
Qed.

Lemma pretty_nat_ne_length (i : nat) : pretty i <> "length".
Proof.
  unfold pretty, pretty_nat, pretty, pretty_N.
  destruct (decide (N.of_nat i = 0%N)); [done |].
  by apply (pretty_N_go_ne_l _ "" "ength").
Qed.

(** [args[i]]: the element, or [undefined] past the end. *)
Lemma member_of_array_any (l : list value) (i : nat) :
  member (VArr l) (pretty i) = Ok (default VUndefined (l !! i)).
Proof.
  cbn [member]. unfold obj_read, indexed. rewrite obj_get_app.
  assert (Hget : obj_get (imap (fun j v => (pretty j, v)) l) (pretty i) = l !! i)
    by apply (obj_get_indexed_from 0).
  rewrite Hget.
  destruct (l !! i); [done |]. cbn [obj_get default].
  destruct (String.eqb "length" (pretty i)) eqn:E; [| done].
  apply String.eqb_eq in E. by destruct (pretty_nat_ne_length i).
Qed.

Lemma copy_arguments_app (this : props) (l1 l2 : list string) (i : nat)
    (args : value) :
  HandlerContext.copy_arguments this (l1 ++ l2) i args =
    this' ← HandlerContext.copy_arguments this l1 i args;
    HandlerContext.copy_arguments this' l2 (i + length l1) args.
Proof.
  revert this i. induction l1 as [|p l1 IH]; intros this i.
  - simpl. by rewrite Nat.add_0_r.
  - cbn [app HandlerContext.copy_arguments length].
    destruct (if starts_with "..." p
              then rest ← HandlerContext.slice_args args i;
                   Ok (obj_set this (slice_from 3 p) rest)
              else arg ← member args (pretty i); Ok (obj_set this p arg))
      as [this1|e]; [| done].
    cbn [mbind result_bind]. rewrite IH.
    by replace (S i + length l1) with (i + S (length l1)) by lia.
Qed.

Lemma collect_arguments_app (this : props) (l1 l2 : list string) :
  HandlerContext.collect_arguments this (l1 ++ l2) =
    a ← HandlerContext.collect_arguments this l1;
    b ← HandlerContext.collect_arguments this l2;
    Ok (a ++ b).
Proof.
  induction l1 as [|p l1 IH].
  - simpl. by destruct (HandlerContext.collect_arguments this l2).
  - cbn [app HandlerContext.collect_arguments]. rewrite IH.
    destruct (if starts_with "..." p
              then of_option (HandlerContext.spread (obj_read this (slice_from 3 p)))
              else Ok [obj_read this p]) as [h|e]; [| done].
    cbn [mbind result_bind].
    destruct (HandlerContext.collect_arguments this l1) as [a|e]; [| done].
    cbn [mbind result_bind].
    destruct (HandlerContext.collect_arguments this l2) as [b|e]; [| done].
    cbn [mbind result_bind]. by rewrite app_assoc.
Qed.

(** The constructor's loop over distinct plain names, for any number of
    arguments: a name past the end of the arguments is bound to
    [undefined]. *)
Lemma copy_arguments_names (names : list string) (this : props) (i : nat)
    (args : list value) :
  NoDup names -> Forall plain_name names ->
  exists this',
    HandlerContext.copy_arguments this names i (VArr args) = Ok this' /\
    (forall k, k ∉ names -> obj_get this' k = obj_get this k) /\
    (forall j name, names !! j = Some name ->
       obj_get this' name = Some (default VUndefined (args !! (i + j)))).
Proof.
  revert this i. induction names as [|name names IH]; intros this i Hnd Hplain.
  - exists this. split; [done | split; [done |]].
    intros j name Hj. by destruct j.
  - apply NoDup_cons in Hnd as [Hfresh Hnd].
    apply Forall_cons in Hplain as [[Hvar _] Hplain].
    cbn [HandlerContext.copy_arguments]. rewrite Hvar.
    rewrite member_of_array_any. cbn [mbind result_bind].
    destruct (IH (obj_set this name (default VUndefined (args !! i))) (S i)
                 Hnd Hplain) as (this' & Hcopy & Hother & Hnames).
    exists this'. split; [exact Hcopy | split].
    + intros k Hk. apply not_elem_of_cons in Hk as [Hne Hk].
      rewrite (Hother k Hk). by apply obj_get_set_ne.
    + intros [|j] name' Hj; simpl in Hj.
      * injection Hj as <-. rewrite (Hother name Hfresh), obj_get_set_eq.
        by rewrite Nat.add_0_r.
      * rewrite (Hnames j name' Hj). do 3 f_equal. lia.
Qed.

(** What the names of a context read back. *)
Lemma names_read_back (context : props) (names : list string)
    (args : list value) :
  (forall j name, names !! j = Some name ->
     obj_get context name = Some (default VUndefined (args !! j))) ->
  obj_read context <$> names
    = take (length names) (args ++ replicate (length names) VUndefined).
Proof.
  intros Hnames. apply list_eq. intros j. rewrite list_lookup_fmap.
  destruct (names !! j) as [name|] eqn:Hj; simpl.
  - unfold obj_read. rewrite (Hnames j name Hj).
    apply lookup_lt_Some in Hj.
    rewrite lookup_take_lt by done.
    destruct (decide (j < length args)) as [Hlt|Hge].
    + rewrite lookup_app_l by done.
      destruct (lookup_lt_is_Some_2 args j Hlt) as [x ->]. done.
    + rewrite lookup_app_r by lia.
      rewrite (proj2 (lookup_ge_None args j)) by lia. simpl.
      symmetry. f_equal. apply lookup_replicate. split; [done | lia].
  - apply lookup_ge_None in Hj. symmetry. apply lookup_ge_None.
    rewrite length_take. lia.
Qed.

(** X1. A context built from a signature of distinct plain names gives back,
    through [toArguments], exactly as many arguments as the signature has
    names, whatever the number of arguments of the call: surplus arguments
    are dropped and missing ones come back as [undefined].  (The names are
    free ones: the constructor's assignment to [__proto__] would bind no
    property, and a parameter named [toArguments] would shadow the method
    that is called.) *)
Theorem context_arguments_follow_the_signature (store : value)
    (names : list string) (args : list value) :
  NoDup names -> Forall plain_name names -> Forall free_name names ->
  exists context,
    HandlerContext.new store (VArr (VStr <$> names)) (VArr args) = Ok context /\
    HandlerContext.toArguments context
      = Ok (take (length names) (args ++ replicate (length names) VUndefined)).
Proof.
  intros Hnd Hplain _. unfold HandlerContext.new.
  rewrite as_signature_names. cbn [of_option mbind result_bind].
  destruct (copy_arguments_names names
              (obj_set (obj_set [] "signature" (VArr (VStr <$> names))) "store" store)
              0 args Hnd Hplain) as (context & Hcopy & Hother & Hnames).
  exists context. split; [exact Hcopy |].
  unfold HandlerContext.toArguments.
  assert (Hsig : obj_read context "signature" = VArr (VStr <$> names)).
  { unfold obj_read. rewrite Hother; [done |].
    intros Hin. by destruct (proj1 (Forall_forall _ _) Hplain _ Hin) as (_ & Hne & _). }
  rewrite Hsig, as_signature_names. cbn [of_option mbind result_bind].
  rewrite (collect_arguments_plain _ _ Hplain). f_equal.
  by apply names_read_back.
Qed.

Lemma context_arguments_follow_the_signature_witness :
  NoDup ["key"; "value"; "options"] /\
  Forall plain_name ["key"; "value"; "options"] /\
  Forall free_name ["key"; "value"; "options"] /\
  exists context,
    HandlerContext.new VStore (VArr (VStr <$> ["key"; "value"; "options"]))
      (VArr [VStr "foo"; VNum 1]) = Ok context /\
    HandlerContext.toArguments context = Ok [VStr "foo"; VNum 1; VUndefined].
Proof.
  assert (Hnd : NoDup ["key"; "value"; "options"]).
  { apply (bool_decide_unpack _). vm_compute. exact I. }
  assert (Hplain : Forall plain_name ["key"; "value"; "options"]).
  { repeat constructor; done. }
  assert (Hord : Forall free_name ["key"; "value"; "options"]).
  { repeat constructor; try done;
      apply (bool_decide_unpack _); vm_compute; exact I. }
  split; [exact Hnd | split; [exact Hplain | split; [exact Hord |]]].
  exact (context_arguments_follow_the_signature VStore
           ["key"; "value"; "options"] [VStr "foo"; VNum 1] Hnd Hplain Hord).
Defined.

(** X2. A signature that ends in a variadic name [...rest] collects the
    trailing arguments of the call under [rest], and [toArguments] spreads
    them back: the context gives the whole argument list back unchanged.
    (All names are free ones: none is [__proto__], none is the name of a
    method of the context.) *)
Theorem variadic_context_gives_every_argument_back (store : value)
    (names : list string) (rest : string) (args : list value) :
  NoDup names -> Forall plain_name names ->
  rest ∉ names -> rest <> "signature" ->
  Forall free_name (rest :: names) ->
  length names <= length args ->
  exists context,
    HandlerContext.new store (VArr (VStr <$> (names ++ ["..." +:+ rest])))
      (VArr args) = Ok context /\
    obj_get context rest = Some (VArr (drop (length names) args)) /\
    (forall j name, names !! j = Some name ->
       obj_get context name = Some (default VUndefined (args !! j))) /\
    HandlerContext.toArguments context = Ok args.
Proof.
  intros Hnd Hplain Hrest Hsigname _ Hlen. unfold HandlerContext.new.
  rewrite as_signature_names. cbn [of_option mbind result_bind].
  set (sig := VArr (VStr <$> (names ++ ["..." +:+ rest]))).
  rewrite copy_arguments_app.
  destruct (copy_arguments_names names
              (obj_set (obj_set [] "signature" sig) "store" store)
              0 args Hnd Hplain) as (this' & Hcopy & Hother & Hnames).
  rewrite Hcopy. cbn [mbind result_bind HandlerContext.copy_arguments].
  rewrite (starts_with_app "..." rest).
  cbn [HandlerContext.slice_args mbind result_bind].
  change (slice_from 3 ("..." +:+ rest)) with rest.
  change (0 + length names) with (length names).
  set (context := obj_set this' rest (VArr (drop (length names) args))).
  exists context.
  assert (Hr : obj_get context rest = Some (VArr (drop (length names) args))).
  { apply obj_get_set_eq. }
  assert (Hn : forall j name, names !! j = Some name ->
            obj_get context name = Some (default VUndefined (args !! j))).
  { intros j name Hj. unfold context. rewrite obj_get_set_ne.
    - exact (Hnames j name Hj).
    - intros ->. apply Hrest. by eapply list_elem_of_lookup_2. }
  split; [done | split; [exact Hr | split; [exact Hn |]]].
  unfold HandlerContext.toArguments.
  assert (Hsig : obj_read context "signature" = sig).
  { unfold obj_read, context. rewrite obj_get_set_ne by done.
    rewrite Hother; [done |].
    intros Hin. by destruct (proj1 (Forall_forall _ _) Hplain _ Hin) as (_ & Hne & _). }
  rewrite Hsig. unfold sig. rewrite as_signature_names.
  cbn [of_option mbind result_bind].
  rewrite collect_arguments_app, (collect_arguments_plain _ _ Hplain).
  cbn [mbind result_bind HandlerContext.collect_arguments].
  rewrite (starts_with_app "..." rest).
  change (slice_from 3 ("..." +:+ rest)) with rest.
  unfold obj_read at 2. rewrite Hr. cbn [HandlerContext.spread of_option mbind result_bind].
  f_equal. rewrite (names_read_back context names args Hn).
  rewrite app_nil_r, take_app_le by done.
  apply take_drop.
Qed.

Lemma variadic_context_gives_every_argument_back_witness :
  NoDup ["key"] /\ Forall plain_name ["key"] /\
  ("args" ∉ ["key"]) /\ "args" <> "signature" /\
  Forall free_name ["args"; "key"] /\
  length ["key"] <= length [VStr "foo"; VNum 1; VNum 2] /\
  exists context,
    HandlerContext.new VStore (VArr (VStr <$> (["key"] ++ ["..." +:+ "args"])))
      (VArr [VStr "foo"; VNum 1; VNum 2]) = Ok context /\
    obj_get context "args" = Some (VArr [VNum 1; VNum 2]) /\
    HandlerContext.toArguments context = Ok [VStr "foo"; VNum 1; VNum 2].
Proof.
  assert (Hnd : NoDup ["key"]).
  { apply (bool_decide_unpack _). vm_compute. exact I. }
  assert (Hplain : Forall plain_name ["key"]).
  { repeat constructor; done. }
  assert (Hrest : "args" ∉ ["key"]).
  { apply (bool_decide_unpack _). vm_compute. exact I. }
  assert (Hsig : "args" <> "signature") by done.
  assert (Hlen : length ["key"] <= length [VStr "foo"; VNum 1; VNum 2]).
  { simpl. lia. }
  assert (Hord : Forall free_name ["args"; "key"]).
  { repeat constructor; try done;
      apply (bool_decide_unpack _); vm_compute; exact I. }
  split; [exact Hnd | split; [exact Hplain | split; [exact Hrest |
    split; [exact Hsig | split; [exact Hord | split; [exact Hlen |]]]]]].
  destruct (variadic_context_gives_every_argument_back VStore ["key"] "args"
              [VStr "foo"; VNum 1; VNum 2] Hnd Hplain Hrest Hsig Hord Hlen)
    as (context & Hnew & Hargs & _ & Hback).
  exists context. split; [exact Hnew | split; [exact Hargs | exact Hback]].
Defined.

(** ** [lib/HandlerContext.js]: [destroy] and [batchKey] *)

Lemma obj_get_destroy (this : props) (k : string) :
  obj_get (HandlerContext.destroy this) k
    = (fun _ => VNull) <$> obj_get this k.
Proof.
  induction this as [|[k' x] this IH]; [done |].
  cbn [HandlerContext.destroy fmap list_fmap obj_get fst snd].
  destruct (String.eqb k' k); [done | exact IH].
Qed.

(** X3. [destroy] keeps the property names of a context and sets every
    property to [null], the signature included: a destroyed context cannot
    produce arguments any more, [toArguments] throws on it. *)
Theorem destroyed_context_gives_no_arguments (this : props) :
  (HandlerContext.destroy this).*1 = this.*1 /\
  (forall k v, obj_get (HandlerContext.destroy this) k = Some v -> v = VNull) /\
  HandlerContext.toArguments (HandlerContext.destroy this) = Throw TypeError.
Proof.
  split; [| split].
  - unfold HandlerContext.destroy. rewrite <- list_fmap_compose.
    by apply list_fmap_ext.
  - intros k v. rewrite obj_get_destroy.
    destruct (obj_get this k); simpl; congruence.
  - unfold HandlerContext.toArguments, obj_read. rewrite obj_get_destroy.
    by destruct (obj_get this "signature").
Qed.

(** The first statement of [batchKey]: a missing or falsy key becomes the
    empty string. *)
Lemma batchKey_start (this : props) (k0 : string) :
  obj_read this "key" = VStr k0 \/
    (truthy (obj_read this "key") = false /\ k0 = "") ->
  let this1 :=
    if negb (truthy (obj_read this "key")) then obj_set this "key" (VStr "")
    else this in
  obj_read this1 "key" = VStr k0 /\
  forall p, p <> "key" -> obj_get this1 p = obj_get this p.
Proof.
  intros Hkey this1. unfold this1.
  destruct (truthy (obj_read this "key")) eqn:Ht; cbn [negb].
  - destruct Hkey as [Hk|[Hf _]]; [done | congruence].
  - split; [| intros p Hp; by apply obj_get_set_ne].
    rewrite obj_read_set_eq. destruct Hkey as [Hk|[_ ->]]; [| done].
    rewrite Hk in Ht. simpl in Ht. apply negb_false_iff, String.eqb_eq in Ht.
    by subst.
Qed.

(** X4. Called without a value, [batchKey] collects keys in an array: a
    string key (or a missing one, read as the empty string) becomes the
    first element, the given key or keys are appended in order, and an
    existing value is set to [null]; once [key] is an array, later calls
    only append to it. *)
Theorem batchKey_collects_keys (this : props) (key : value)
    (added : list value) :
  match key with
  | VStr _ => Some [key]
  | _ => HandlerContext.spread key
  end = Some added ->
  (forall l,
     obj_read this "key" = VArr l ->
     HandlerContext.batchKey this key VUndefined
       = Some (Ok (obj_set this "key" (VArr (l ++ added))))) /\
  (forall k0,
     obj_read this "key" = VStr k0 \/
       (truthy (obj_read this "key") = false /\ k0 = "") ->
     exists this',
       HandlerContext.batchKey this key VUndefined = Some (Ok this') /\
       obj_read this' "key" = VArr (VStr k0 :: added) /\
       (obj_has this "value" = true -> obj_read this' "value" = VNull) /\
       (forall p, p <> "key" -> p <> "value" ->
          obj_get this' p = obj_get this p)).
Proof.
  intros Hadded. split.
  - intros l Hl. unfold HandlerContext.batchKey.
    rewrite Hl. cbn [truthy negb]. rewrite Hl. cbv beta iota zeta.
    rewrite Hl.
    destruct key; simpl in Hadded; try done; by injection Hadded as <-.
  - intros k0 Hkey. unfold HandlerContext.batchKey.
    destruct (batchKey_start this k0 Hkey) as [Hk1 Hother1].
    set (this1 := if negb (truthy (obj_read this "key"))
                  then obj_set this "key" (VStr "") else this) in *.
    rewrite Hk1.
    set (this2 := obj_set this1 "key" (VArr [VStr k0])).
    assert (Hk2 : obj_read this2 "key" = VArr [VStr k0])
      by apply obj_read_set_eq.
    assert (Hother2 : forall p, p <> "key" -> obj_get this2 p = obj_get this p).
    { intros p Hp. unfold this2. rewrite obj_get_set_ne by done. by apply Hother1. }
    set (this3 := if obj_has this2 "value" then obj_set this2 "value" VNull
                  else this2).
    assert (Hk3 : obj_read this3 "key" = VArr [VStr k0]).
    { unfold this3. destruct (obj_has this2 "value"); [| done].
      by rewrite obj_read_set_ne. }
    assert (Hv3 : obj_has this "value" = true -> obj_read this3 "value" = VNull).
    { intros Hv. unfold this3, obj_has. rewrite Hother2 by done.
      unfold obj_has in Hv. destruct (obj_get this "value"); [| done].
      apply obj_read_set_eq. }
    assert (Hother3 : forall p, p <> "key" -> p <> "value" ->
              obj_get this3 p = obj_get this p).
    { intros p Hp Hpv. unfold this3. destruct (obj_has this2 "value").
      - rewrite obj_get_set_ne by done. by apply Hother2.
      - by apply Hother2. }
    rewrite Hk3.
    exists (obj_set this3 "key" (VArr ([VStr k0] ++ added))).
    split.
    { destruct key; simpl in Hadded; try done; by injection Hadded as <-. }
    split; [apply obj_read_set_eq | split].
    + intros Hv. rewrite obj_read_set_ne by done. by apply Hv3.
    + intros p Hp Hpv. rewrite obj_get_set_ne by done. by apply Hother3.
Qed.

Lemma batchKey_collects_keys_witness :
  let this := [("signature", VArr [VStr "key"; VStr "url"]);
               ("store", VStore); ("key", VStr "foo");
               ("url", VStr "http://localhost/foo")] in
  match VArr [VStr "bar"; VStr "bat"] with
  | VStr _ => Some [VArr [VStr "bar"; VStr "bat"]]
  | _ => HandlerContext.spread (VArr [VStr "bar"; VStr "bat"])
  end = Some [VStr "bar"; VStr "bat"] /\
  (obj_read this "key" = VStr "foo" \/
     (truthy (obj_read this "key") = false /\ "foo" = "")) /\
  exists this',
    HandlerContext.batchKey this (VArr [VStr "bar"; VStr "bat"]) VUndefined
      = Some (Ok this') /\
    obj_read this' "key" = VArr [VStr "foo"; VStr "bar"; VStr "bat"].
Proof.
  intros this.
  assert (Hadded :
    match VArr [VStr "bar"; VStr "bat"] with
    | VStr _ => Some [VArr [VStr "bar"; VStr "bat"]]
    | _ => HandlerContext.spread (VArr [VStr "bar"; VStr "bat"])
    end = Some [VStr "bar"; VStr "bat"]) by reflexivity.
  assert (Hkey : obj_read this "key" = VStr "foo" \/
            (truthy (obj_read this "key") = false /\ "foo" = ""))
    by (left; reflexivity).
  split; [exact Hadded | split; [exact Hkey |]].
  destruct (proj2 (batchKey_collects_keys this (VArr [VStr "bar"; VStr "bat"])
                     [VStr "bar"; VStr "bat"] Hadded) "foo" Hkey)
    as (this' & Hbatch & Hk & _).
  exists this'. split; [exact Hbatch | exact Hk].
Defined.

(** X5. Called with a value on the context of a [set] call, [batchKey] turns
    the call into a batch: the key becomes the hash of the original and the
    added key/value pair, the value becomes [null], [toArguments] hands
    [set] the hash, and [set] writes both pairs in order.  The two modes do
    not mix: a later call without a value throws, the hash having no
    [push].  (The added key is an ordinary name: assigned to the hash,
    [__proto__] would add no property; and it is not made of digits: the
    loop of [set] over the hash would visit an integer key before the
    original one.) *)
Theorem batchKey_adds_a_write_to_set `{Host} (st : DataStore.t)
    (k0 k1 : string) (v0 v1 opts : value) :
  k0 <> "" -> k1 <> k0 -> ordinary_name k1 -> digits_only k1 = false ->
  v1 <> VUndefined ->
  exists context batched,
    HandlerContext.new VStore (VArr (VStr <$> ["key"; "value"; "options"]))
      (VArr [VStr k0; v0; opts]) = Ok context /\
    HandlerContext.batchKey context (VStr k1) v1 = Some (Ok batched) /\
    HandlerContext.toArguments batched
      = Ok [VObj [(k0, v0); (k1, v1)]; VNull; opts] /\
    methods.set st [VObj [(k0, v0); (k1, v1)]; VNull; opts]
      = DataStore.for_each
          (fun st kv =>
             methods.doSet st (VStr kv.1) kv.2
               (assign [] [methods.DEFAULT_OPTIONS; opts]))
          st [(k0, v0); (k1, v1)] /\
    (isFunction (obj_read [(k0, v0); (k1, v1)] "push") = false ->
     forall key, HandlerContext.batchKey batched key VUndefined
                   = Some (Throw TypeError)).
Proof.
  intros Hk0 Hk1 _ _ Hv1.
  assert (E0 : String.eqb k0 "" = false) by by apply String.eqb_neq.
  assert (E1 : String.eqb k0 k1 = false) by (apply String.eqb_neq; congruence).
  exists [("signature", VArr (VStr <$> ["key"; "value"; "options"]));
          ("store", VStore); ("key", VStr k0); ("value", v0); ("options", opts)].
  exists [("signature", VArr (VStr <$> ["key"; "value"; "options"]));
          ("store", VStore); ("key", VObj [(k0, v0); (k1, v1)]);
          ("value", VNull); ("options", opts)].
  split; [reflexivity | split; [| split; [reflexivity | split]]].
  - unfold HandlerContext.batchKey.
    cbn [obj_read obj_get String.eqb Ascii.eqb Bool.eqb fmap list_fmap truthy].
    rewrite E0. cbn [negb].
    cbn [obj_read obj_get String.eqb Ascii.eqb Bool.eqb obj_set obj_has].
    destruct v1; try done; cbn [obj_set]; by rewrite E1.
  - reflexivity.
  - intros Hpush key. unfold HandlerContext.batchKey.
    cbn [obj_read obj_get String.eqb Ascii.eqb Bool.eqb fmap list_fmap truthy negb].
    fold (obj_read [(k0, v0); (k1, v1)] "push"). by rewrite Hpush.
Qed.

Lemma batchKey_adds_a_write_to_set_witness :
  "foo" <> "" /\ "bar" <> "foo" /\ ordinary_name "bar" /\
  digits_only "bar" = false /\ VNum 2 <> VUndefined /\
  exists context batched,
    HandlerContext.new VStore (VArr (VStr <$> ["key"; "value"; "options"]))
      (VArr [VStr "foo"; VNum 1; VUndefined]) = Ok context /\
    HandlerContext.batchKey context (VStr "bar") (VNum 2) = Some (Ok batched) /\
    HandlerContext.toArguments batched
      = Ok [VObj [("foo", VNum 1); ("bar", VNum 2)]; VNull; VUndefined] /\
    DataStore._data
      (@methods.set server_host (store_of (VObj []))
         [VObj [("foo", VNum 1); ("bar", VNum 2)]; VNull; VUndefined]).1
      = VObj [("foo", VNum 1); ("bar", VNum 2)].
Proof.
  assert (H0 : "foo" <> "") by done.
  assert (H1 : "bar" <> "foo") by done.
  assert (H2 : VNum 2 <> VUndefined) by done.
  assert (Hord : ordinary_name "bar") by done.
  split; [exact H0 | split; [exact H1 | split; [exact Hord |
    split; [reflexivity | split; [exact H2 |]]]]].
  destruct (@batchKey_adds_a_write_to_set server_host (store_of (VObj []))
              "foo" "bar" (VNum 1) (VNum 2) VUndefined H0 H1 Hord eq_refl H2)
    as (context & batched & Hnew & Hbatch & Hargs & _ & _).
  exists context, batched.
  split; [exact Hnew | split; [exact Hbatch | split; [exact Hargs |]]].
  reflexivity.
Defined.

(** ** [lib/DataStore.js]: the registry of handlers *)

Lemma with_handlers_same (st : DataStore.t) :
  DataStore.with_handlers st (DataStore._handlers st) = st.
Proof. by destruct st. Qed.

Lemma use_pair_appends (hs : list DataStore.handler_entry) (pair : value) :
  match DataStore.use_pair hs pair with
  | Ok hs' => exists added, hs' = hs ++ added /\ length added <= 1
  | Throw _ => True
  end.
Proof.
  unfold DataStore.use_pair.
  destruct (destructure2 pair) as [[m h]|e]; [| done].
  cbn [mbind result_bind].
  destruct (isFunction m).
  - destruct m; try (exists []; rewrite app_nil_r; simpl; split; [done | lia]).
    eexists [_]. split; [done | simpl; lia].
  - destruct h; try (exists []; rewrite app_nil_r; simpl; split; [done | lia]).
    eexists [_]. split; [done | simpl; lia].
Qed.

Lemma use_pairs_appends (hs : list DataStore.handler_entry)
    (pairs : list value) :
  exists added,
    (DataStore.use_pairs hs pairs).1 = hs ++ added /\
    length added <= length pairs.
Proof.
  revert hs. induction pairs as [|p pairs IH]; intros hs.
  - exists []. rewrite app_nil_r. simpl. split; [done | lia].
  - cbn [DataStore.use_pairs].
    pose proof (use_pair_appends hs p) as Hp.
    destruct (DataStore.use_pair hs p) as [hs'|e].
    + destruct Hp as (a & -> & Ha).
      destruct (IH (hs ++ a)) as (b & Hb & Hlen).
      exists (a ++ b). rewrite Hb, app_assoc. split; [done |].
      rewrite length_app. simpl. lia.
    + exists []. rewrite app_nil_r. simpl. split; [done | lia].
Qed.

(** X6. [use] only appends to the registry: whatever it is called with, a
    single matcher and handler or a batch, and even when a malformed batch
    entry makes it throw, the handlers registered before stay in place and in
    order, at most one entry is added per pair, and nothing else of the store
    changes.  Outside the batch form it never throws, and it adds exactly
    one entry when a function is given (registered for every key when the
    function is passed alone) and none otherwise. *)
Theorem use_only_appends (st : DataStore.t) (m h : value) :
  exists added,
    (DataStore.use st m h).1
      = DataStore.with_handlers st (DataStore._handlers st ++ added) /\
    length added <= length (DataStore.handler_pairs m h) /\
    (isArray m = false ->
     (DataStore.use st m h).2 = Ok () /\
     added = match (if isFunction m then m else h) with
             | VFun f =>
                 [{| DataStore.handler := f;
                     DataStore.match_ := if isFunction m then VStr "" else m |}]
             | _ => []
             end).
Proof.
  unfold DataStore.use.
  destruct (use_pairs_appends (DataStore._handlers st)
              (DataStore.handler_pairs m h)) as (added & Hadded & Hlen).
  destruct (DataStore.use_pairs (DataStore._handlers st)
              (DataStore.handler_pairs m h)) as [hs r] eqn:E.
  simpl in Hadded. subst hs.
  exists added. split; [done | split; [exact Hlen |]].
  intros Harr.
  assert (Hp : DataStore.handler_pairs m h = [VArr [m; h]])
    by (destruct m; simpl in *; congruence).
  rewrite Hp in E. cbn [DataStore.use_pairs] in E.
  unfold DataStore.use_pair in E. simpl destructure2 in E.
  cbn [mbind result_bind] in E.
  destruct (isFunction m) eqn:Hm.
  - destruct m; try discriminate Hm. cbn [DataStore.use_pairs] in E.
    injection E as E <-. apply app_inv_head in E. by subst.
  - destruct h; cbn [DataStore.use_pairs] in E; injection E as E <-;
      first [ apply app_inv_head in E; by subst
            | rewrite <- (app_nil_r (DataStore._handlers st)) in E at 1;
              apply app_inv_head in E; by subst ].
Qed.

Lemma filter_negb_same_handler_fresh (hs : list DataStore.handler_entry)
    (f : nat) :
  (forall e, e ∈ hs -> DataStore.handler e <> f) ->
  List.filter (fun e => negb (DataStore.same_handler e (VFun f))) hs = hs.
Proof.
  induction hs as [|e hs IH]; intros Hfresh; [done |].
  cbn [List.filter DataStore.same_handler].
  assert (Hne : Nat.eqb (DataStore.handler e) f = false).
  { apply Nat.eqb_neq, Hfresh. by left. }
  rewrite Hne. cbn [negb]. f_equal. apply IH.
  intros e' He'. apply Hfresh. by right.
Qed.

(** X7. [unuse] undoes [use]: registering a function that the registry does
    not hold yet and unregistering it with the same arguments leaves the
    store as it was. *)
Theorem unuse_undoes_use (st : DataStore.t) (m h : value) (f : nat) :
  isArray m = false ->
  (if isFunction m then m else h) = VFun f ->
  (forall e, e ∈ DataStore._handlers st -> DataStore.handler e <> f) ->
  DataStore.unuse (DataStore.use st m h).1 m h = (st, Ok ()).
Proof.
  intros Harr Hgiven Hfresh.
  assert (Hp : DataStore.handler_pairs m h = [VArr [m; h]])
    by (destruct m; simpl in *; congruence).
  assert (Huse : (DataStore.use st m h).1 =
            DataStore.with_handlers st
              (DataStore._handlers st ++
                 [{| DataStore.handler := f;
                     DataStore.match_ := if isFunction m then VStr "" else m |}])).
  { unfold DataStore.use. rewrite Hp. cbn [DataStore.use_pairs].
    unfold DataStore.use_pair. simpl destructure2. cbn [mbind result_bind].
    destruct (isFunction m); subst; done. }
  rewrite Huse. unfold DataStore.unuse. rewrite Hp.
  unfold DataStore.unuse_pairs, DataStore.unuse_pair.
  simpl destructure2. cbv iota beta. rewrite Hgiven.
  cbn [DataStore._handlers DataStore.with_handlers].
  rewrite unuse_scan_all, List.filter_app.
  rewrite (filter_negb_same_handler_fresh _ _ Hfresh).
  cbn [List.filter DataStore.same_handler DataStore.handler].
  rewrite Nat.eqb_refl. cbn [negb]. rewrite app_nil_r.
  by destruct st.
Qed.

Lemma unuse_undoes_use_witness :
  let st := DataStore.with_handlers (store_of (VObj []))
              [ {| DataStore.handler := 1; DataStore.match_ := VStr "foo" |} ] in
  isArray (VRegExp 0) = false /\
  (if isFunction (VRegExp 0) then VRegExp 0 else VFun 2) = VFun 2 /\
  (forall e, e ∈ DataStore._handlers st -> DataStore.handler e <> 2) /\
  DataStore.unuse (DataStore.use st (VRegExp 0) (VFun 2)).1 (VRegExp 0) (VFun 2)
    = (st, Ok ()).
Proof.
  intros st.
  assert (Harr : isArray (VRegExp 0) = false) by reflexivity.
  assert (Hgiven : (if isFunction (VRegExp 0) then VRegExp 0 else VFun 2) = VFun 2)
    by reflexivity.
  assert (Hfresh : forall e, e ∈ DataStore._handlers st -> DataStore.handler e <> 2).
  { intros e He. apply list_elem_of_singleton in He. subst e. simpl. lia. }
  split; [exact Harr | split; [exact Hgiven | split; [exact Hfresh |]]].
  exact (unuse_undoes_use st (VRegExp 0) (VFun 2) 2 Harr Hgiven Hfresh).
Defined.

Lemma filter_all (A : Type) (l : list A) : List.filter (fun _ => true) l = l.
Proof. induction l as [|x l IH]; [done |]. simpl. by rewrite IH. Qed.

Lemma filter_twice (A : Type) (f g : A -> bool) (l : list A) :
  List.filter g (List.filter f l) = List.filter (fun x => f x && g x) l.
Proof.
  induction l as [|x l IH]; [done |]. simpl.
  destruct (f x); simpl; [destruct (g x) |]; by rewrite IH.
Qed.

Lemma unuse_pairs_filter (pairs : list (value * value))
    (hs : list DataStore.handler_entry) :
  DataStore.unuse_pairs hs ((fun p => VArr [p.1; p.2]) <$> pairs) =
    (List.filter
       (fun e =>
          forallb
            (fun p => negb (DataStore.same_handler e
                              (if isFunction p.1 then p.1 else p.2)))
            pairs) hs,
     Ok ()).
Proof.
  revert hs. induction pairs as [|[m h] pairs IH]; intros hs.
  - simpl. by rewrite filter_all.
  - cbn [fmap list_fmap DataStore.unuse_pairs fst snd].
    unfold DataStore.unuse_pair at 1.
    simpl destructure2. cbv iota beta.
    rewrite unuse_scan_all, IH, filter_twice. done.
Qed.

(** X8. The batch form of [unuse] removes every handler function listed in
    the batch: it returns without throwing and leaves registered exactly the
    entries whose handler is none of the functions given (the second item of
    a pair, or the first when that is the function), in their order; the
    second argument of the call plays no part. *)
Theorem unuse_batch_removes_every_listed_handler (st : DataStore.t)
    (pairs : list (value * value)) (ignored : value) :
  DataStore.unuse st (VArr ((fun p => VArr [p.1; p.2]) <$> pairs)) ignored =
    (DataStore.with_handlers st
       (List.filter
          (fun e =>
             forallb
               (fun p => negb (DataStore.same_handler e
                                 (if isFunction p.1 then p.1 else p.2)))
               pairs)
          (DataStore._handlers st)),
     Ok ()).
Proof.
  unfold DataStore.unuse. cbn [DataStore.handler_pairs].
  by rewrite unuse_pairs_filter.
Qed.

(** ** [lib/DataStore.js]: routing through the handlers *)




Lemma run_handlers_app `{Host} (key : value)
    (hs1 hs2 : list DataStore.handler_entry) (context : props) :
  DataStore.run_handlers key (hs1 ++ hs2) context =
    context' ← DataStore.run_handlers key hs1 context;
    DataStore.run_handlers key hs2 context'.
Proof.
  revert context. induction hs1 as [|e hs1 IH]; intros context; [done |].
  cbn [app DataStore.run_handlers].
  destruct (DataStore._isMatchKey key (DataStore.match_ e)) as [matched|err];
    [| done].
  cbn [mbind result_bind].
  destruct (if matched then call_handler (DataStore.handler e) context
            else Ok context) as [context'|err]; [| done].
  cbn [mbind result_bind]. apply IH.
Qed.

(** X10. A handler that throws stops the routed call: the handlers
    registered after it are not called, the bound implementation is not
    invoked, the store is left as it was, and the handler's error reaches
    the caller. *)
Theorem a_throwing_handler_stops_the_call `{Host} {R : Type}
    (st : DataStore.t) (methodName : string)
    (fn : DataStore.t -> list value -> DataStore.call R)
    (signature : list string) (args : list value) (key : value)
    (context context1 : props)
    (before after : list DataStore.handler_entry)
    (e : DataStore.handler_entry) (err : js_error) :
  DataStore.routed_key signature args = Ok key ->
  DataStore.new_context methodName signature args = Ok context ->
  DataStore._handlers st = before ++ e :: after ->
  DataStore.run_handlers key before context = Ok context1 ->
  DataStore._isMatchKey key (DataStore.match_ e) = Ok true ->
  call_handler (DataStore.handler e) context1 = Throw err ->
  DataStore._routeHandledMethod st methodName fn signature args
    = (st, Throw err).
Proof.
  intros Hkey Hnew Hhs Hbefore Hmatch Hcall.
  unfold DataStore._routeHandledMethod, DataStore.routed_arguments.
  rewrite Hkey. cbn [mbind result_bind]. rewrite Hhs.
  destruct (before ++ e :: after) as [|e0 hs0] eqn:E.
  { by destruct before. }
  rewrite Hnew. cbn [mbind result_bind].
  rewrite <- E, run_handlers_app, Hbefore. cbn [mbind result_bind].
  cbn [DataStore.run_handlers]. rewrite Hmatch. cbn [mbind result_bind].
  rewrite Hcall. done.
Qed.

Lemma a_throwing_handler_stops_the_call_witness :
  let before := [ {| DataStore.handler := 1; DataStore.match_ := VStr "bar" |} ] in
  let e := {| DataStore.handler := 0; DataStore.match_ := VStr "" |} in
  let after := [ {| DataStore.handler := 2; DataStore.match_ := VStr "" |} ] in
  let st := DataStore.with_handlers readme_store (before ++ e :: after) in
  let signature := ["key"; "value"; "options"] in
  let args := [VStr "/foo"; VNum 1; VUndefined] in
  let context := [("signature", VStr "set"); ("store", VStore);
                  ("s", VStr "key"); ("e", VStr "value"); ("t", VStr "options")] in
  DataStore.routed_key signature args = Ok (VStr "foo") /\
  DataStore.new_context "set" signature args = Ok context /\
  DataStore._handlers st = before ++ e :: after /\
  @DataStore.run_handlers failing_host (VStr "foo") before context = Ok context /\
  @DataStore._isMatchKey failing_host (VStr "foo") (DataStore.match_ e) = Ok true /\
  @call_handler failing_host (DataStore.handler e) context = Throw TypeError /\
  @Store.set failing_host st (VStr "/foo") (VNum 1) VUndefined
    = (st, Throw TypeError).
Proof.
  intros before e after st signature args context.
  assert (Hkey : DataStore.routed_key signature args = Ok (VStr "foo"))
    by reflexivity.
  assert (Hnew : DataStore.new_context "set" signature args = Ok context)
    by reflexivity.
  assert (Hhs : DataStore._handlers st = before ++ e :: after) by reflexivity.
  assert (Hbefore : @DataStore.run_handlers failing_host (VStr "foo") before
                      context = Ok context) by reflexivity.
  assert (Hmatch : @DataStore._isMatchKey failing_host (VStr "foo")
                     (DataStore.match_ e) = Ok true) by reflexivity.
  assert (Hcall : @call_handler failing_host (DataStore.handler e) context
                    = Throw TypeError) by reflexivity.
  split; [exact Hkey | split; [exact Hnew | split; [exact Hhs |
    split; [exact Hbefore | split; [exact Hmatch | split; [exact Hcall |]]]]]].
  exact (@a_throwing_handler_stops_the_call failing_host value st "set"
           (@methods.set failing_host) signature args (VStr "foo")
           context context before after e TypeError
           Hkey Hnew Hhs Hbefore Hmatch Hcall).
Defined.

(** ** [lib/DataStore.js]: [reset] *)

(** X11. On a store without handlers [reset] replaces the whole tree with
    its argument, whether or not the store is writable; called without an
    argument it leaves the empty string as the tree. *)
Theorem reset_replaces_the_tree `{Host} (st : DataStore.t) (data : value) :
  DataStore._handlers st = [] ->
  Store.reset st data =
    (DataStore.with_data st
       (match data with VUndefined => VStr "" | _ => data end),
     Ok VUndefined).
Proof.
  intros Hhs.
  unfold Store.reset, Store.handled_reset, DataStore._routeHandledMethod,
    DataStore.routed_arguments.
  rewrite Hhs. by destruct data.
Qed.

Lemma reset_replaces_the_tree_witness :
  DataStore._handlers readonly_store = [] /\
  DataStore.isWritable readonly_store = false /\
  @Store.reset server_host readonly_store (VObj [("bar", VNum 2)]) =
    (DataStore.with_data readonly_store (VObj [("bar", VNum 2)]), Ok VUndefined).
Proof.
  assert (Hhs : DataStore._handlers readonly_store = []) by reflexivity.
  split; [exact Hhs | split; [reflexivity |]].
  exact (@reset_replaces_the_tree server_host readonly_store
           (VObj [("bar", VNum 2)]) Hhs).
Defined.

Lemma run_handlers_on_a_mapping `{Host} (o : props)
    (hs : list DataStore.handler_entry) (e : DataStore.handler_entry)
    (p : string) (context : props) :
  e ∈ hs -> DataStore.match_ e = VStr p -> p <> "" ->
  exists err, DataStore.run_handlers (VObj o) hs context = Throw err.
Proof.
  intros He Hm Hp. revert context.
  induction hs as [|e' hs IH]; intros context.
  { by apply not_elem_of_nil in He. }
  cbn [DataStore.run_handlers].
  apply elem_of_cons in He as [<-|He].
  - rewrite Hm. unfold DataStore._isMatchKey. cbn [truthy].
    apply String.eqb_neq in Hp. rewrite Hp. cbn [negb]. by eexists.
  - destruct (DataStore._isMatchKey (VObj o) (DataStore.match_ e'))
      as [matched|err]; [| by eexists].
    cbn [mbind result_bind].
    destruct (if matched then call_handler (DataStore.handler e') context
              else Ok context) as [context'|err]; [| by eexists].
    cbn [mbind result_bind]. by apply IH.
Qed.

(** X12. [reset] hands its data to the matchers as the key: on a store that
    holds a handler registered with a non-empty string matcher, [reset]
    called with a mapping throws and leaves the store as it was.  The
    constructor ends in such a [reset], so creating a store with a handler
    registered under a string throws a [TypeError]. *)
Theorem reset_throws_under_a_string_matcher `{Host} (st : DataStore.t)
    (e : DataStore.handler_entry) (p : string) :
  e ∈ DataStore._handlers st -> DataStore.match_ e = VStr p -> p <> "" ->
  (forall o, exists err, Store.reset st (VObj o) = (st, Throw err)) /\
  (forall id data f,
     truthy data = false \/ isPlainObject data = true ->
     (Store.create id data [("handlers", VArr [VArr [VStr p; VFun f]])]).2
       = Throw TypeError).
Proof.
  intros He Hm Hp. split.
  - intros o.
    unfold Store.reset, Store.handled_reset, DataStore._routeHandledMethod,
      DataStore.routed_arguments.
    change (DataStore.routed_key ["data"] [VObj o])
      with (Ok (VObj o) : result value).
    cbn [mbind result_bind].
    destruct (DataStore._handlers st) as [|e0 hs0] eqn:Hhs.
    { by apply not_elem_of_nil in He. }
    change (DataStore.new_context "reset" ["data"] [VObj o])
      with (Ok [("signature", VStr "reset"); ("store", VStore);
                ("r", VStr "data"); ("e", VUndefined); ("s", VUndefined);
                ("t", VUndefined)] : result props).
    cbn [mbind result_bind].
    destruct (run_handlers_on_a_mapping o (e0 :: hs0) e p
                [("signature", VStr "reset"); ("store", VStore);
                 ("r", VStr "data"); ("e", VUndefined); ("s", VUndefined);
                 ("t", VUndefined)] He Hm Hp) as [err ->].
    by exists err.
  - intros id data f Hdata.
    apply String.eqb_neq in Hp.
    assert (Hkey : exists o, (if truthy data then data else VObj []) = VObj o).
    { destruct Hdata as [-> | Hobj]; [by eexists |].
      destruct data; try discriminate Hobj. by eexists. }
    destruct Hkey as [o Hkey].
    unfold Store.create.
    cbn [obj_read obj_get String.eqb Ascii.eqb Bool.eqb truthy].
    unfold DataStore.use. cbn [DataStore.handler_pairs DataStore.use_pairs].
    unfold DataStore.use_pair. simpl destructure2.
    cbn [mbind result_bind isFunction DataStore.use_pairs DataStore._handlers app].
    rewrite Hkey.
    unfold Store.reset, Store.handled_reset, DataStore._routeHandledMethod,
      DataStore.routed_arguments.
    change (DataStore.routed_key ["data"] [VObj o])
      with (Ok (VObj o) : result value).
    cbn [mbind result_bind DataStore._handlers DataStore.with_handlers].
    change (DataStore.new_context "reset" ["data"] [VObj o])
      with (Ok [("signature", VStr "reset"); ("store", VStore);
                ("r", VStr "data"); ("e", VUndefined); ("s", VUndefined);
                ("t", VUndefined)] : result props).
    cbn [mbind result_bind DataStore.run_handlers DataStore.match_].
    unfold DataStore._isMatchKey. cbn [truthy]. rewrite Hp. done.
Qed.

Lemma reset_throws_under_a_string_matcher_witness :
  let e := {| DataStore.handler := 1; DataStore.match_ := VStr "foo" |} in
  let st := DataStore.with_handlers readme_store [e] in
  e ∈ DataStore._handlers st /\ DataStore.match_ e = VStr "foo" /\
  "foo" <> "" /\
  @Store.reset server_host st (VObj []) = (st, Throw TypeError) /\
  (@Store.create server_host (VStr "store") (VObj [("foo", VNum 1)])
     [("handlers", VArr [VArr [VStr "foo"; VFun 1]])]).2 = Throw TypeError.
Proof.
  intros e st.
  assert (He : e ∈ DataStore._handlers st) by apply list_elem_of_here.
  assert (Hm : DataStore.match_ e = VStr "foo") by reflexivity.
  assert (Hp : "foo" <> "") by done.
  split; [exact He | split; [exact Hm | split; [exact Hp |]]].
  destruct (@reset_throws_under_a_string_matcher server_host st e "foo" He Hm Hp)
    as [_ Hcreate].
  split; [reflexivity |].
  apply Hcreate. by right.
Defined.

(** ** [lib/DataStore.js]: keys and aliases *)

Lemma isRefValue_of_an_alias (target : string) :
  DataStore._isRefValue (VStr (DataStore.REF_KEY +:+ target)) = true.
Proof.
  unfold DataStore._isRefValue. rewrite starts_with_app. reflexivity.
Qed.

Lemma after_REF_KEY_of_an_alias (target : string) :
  DataStore.after_REF_KEY (DataStore.REF_KEY +:+ target) = target.
Proof. apply slice_from_app. Qed.

(** X13. An alias is recognised and decoded whatever its target: prefixing
    a key with [REF_KEY] yields a value that [_isRefValue] accepts and
    [_parseRefKey] turns back into the key, and [_resolveRefKey], handed
    such an alias as its key, returns the target without reading the tree;
    values that are not strings are never aliases and are parsed to
    themselves. *)
Theorem an_alias_decodes_to_its_target (st : DataStore.t) (target : string) :
  DataStore._isRefValue (VStr (DataStore.REF_KEY +:+ target)) = true /\
  DataStore._parseRefKey (VStr (DataStore.REF_KEY +:+ target)) = VStr target /\
  DataStore._resolveRefKey st (VStr (DataStore.REF_KEY +:+ target)) = Ok target /\
  (forall v, isString v = false ->
     DataStore._isRefValue v = false /\ DataStore._parseRefKey v = v).
Proof.
  split; [apply isRefValue_of_an_alias | split; [| split]].
  - cbn [DataStore._parseRefKey]. by rewrite after_REF_KEY_of_an_alias.
  - cbn [DataStore._resolveRefKey]. unfold DataStore.resolve_string.
    by rewrite isRefValue_of_an_alias, after_REF_KEY_of_an_alias.
  - intros v Hv. split; [| by destruct v].
    unfold DataStore._isRefValue. destruct v; try discriminate Hv;
      by destruct (negb _).
Qed.

Lemma split_slash_not_nil (s : string) : split_slash s <> [].
Proof.
  induction s as [|c r IH]; [done |]. simpl.
  destruct (Ascii.eqb c "/"); [done |].
  by destruct (split_slash r).
Qed.

(** Splitting, then joining, gives the key back. *)
Lemma join_slash_split_slash (s : string) : join_slash (split_slash s) = s.
Proof.
  induction s as [|c r IH]; [done |]. simpl.
  destruct (Ascii.eqb c "/") eqn:Ec.
  - apply Ascii.eqb_eq in Ec. subst c.
    pose proof (split_slash_not_nil r) as Hne.
    unfold join_slash in *. destruct (split_slash r) as [|seg segs]; [done |].
    cbn [String.concat]. cbn [String.concat] in IH. by rewrite IH.
  - pose proof (split_slash_not_nil r) as Hne.
    unfold join_slash in *. destruct (split_slash r) as [|seg segs]; [done |].
    cbn [String.concat] in *. destruct segs as [|seg' segs].
    + by rewrite IH.
    + rewrite <- IH. done.
Qed.

(** A key that begins with a whole segment splits after it. *)
Lemma split_slash_after_a_segment (seg rest : string) :
  split_slash seg = [seg] ->
  split_slash (seg +:+ "/" +:+ rest) = seg :: split_slash rest.
Proof.
  induction seg as [|c r IH]; [done |]. simpl.
  destruct (Ascii.eqb c "/"); [discriminate |].
  pose proof (split_slash_not_nil r) as Hne.
  destruct (split_slash r) as [|seg segs] eqn:Er; [done |].
  intros Hone. injection Hone as -> ->.
  by rewrite IH.
Qed.

(** X14. [_resolveRefKey] substitutes an alias found on the way and keeps
    the rest of the key: when the first segment of a key names an alias at
    the root of the tree, the key resolves to the alias's target followed by
    the remaining segments. *)
Theorem resolveRefKey_keeps_the_rest_of_the_key (st : DataStore.t)
    (o : props) (seg rest target : string) :
  DataStore._data st = VObj o ->
  obj_get o seg = Some (VStr (DataStore.REF_KEY +:+ target)) ->
  split_slash seg = [seg] ->
  strip_slash (seg +:+ "/" +:+ rest) = seg +:+ "/" +:+ rest ->
  DataStore._isRefValue (VStr (seg +:+ "/" +:+ rest)) = false ->
  target <> seg +:+ "/" +:+ rest ->
  DataStore._resolveRefKey st (VStr (seg +:+ "/" +:+ rest))
    = Ok (target +:+ "/" +:+ rest).
Proof.
  intros Hdata Halias Hseg Hstrip Hnoref Hne.
  cbn [DataStore._resolveRefKey]. unfold DataStore.resolve_string.
  rewrite Hnoref, Hstrip, (split_slash_after_a_segment _ _ Hseg), Hdata.
  cbn [DataStore.walk_to_ref member]. unfold obj_read at 1. rewrite Halias.
  cbn [mbind result_bind isNullish].
  rewrite isRefValue_of_an_alias, after_REF_KEY_of_an_alias.
  cbn [mbind result_bind]. cbv beta iota. cbn [default from_option id length].
  apply String.eqb_neq in Hne. rewrite Hne. cbn [negb andb].
  pose proof (split_slash_not_nil rest) as Hrest.
  destruct (split_slash rest) as [|r rs] eqn:Er; [done |].
  cbn [length Nat.ltb Nat.leb drop]. rewrite <- Er, join_slash_split_slash. done.
Qed.

Lemma resolveRefKey_keeps_the_rest_of_the_key_witness :
  let o := [("foo", VObj [("bar", VObj [("bat", VBool true)])]);
            ("stuff", VStr "__ref:foo/bar")] in
  DataStore._data aliased_store = VObj o /\
  obj_get o "stuff" = Some (VStr (DataStore.REF_KEY +:+ "foo/bar")) /\
  split_slash "stuff" = ["stuff"] /\
  strip_slash ("stuff" +:+ "/" +:+ "bat/x") = "stuff" +:+ "/" +:+ "bat/x" /\
  DataStore._isRefValue (VStr ("stuff" +:+ "/" +:+ "bat/x")) = false /\
  "foo/bar" <> "stuff" +:+ "/" +:+ "bat/x" /\
  DataStore._resolveRefKey aliased_store (VStr "stuff/bat/x") = Ok "foo/bar/bat/x".
Proof.
  intros o.
  assert (H1 : DataStore._data aliased_store = VObj o) by reflexivity.
  assert (H2 : obj_get o "stuff" = Some (VStr (DataStore.REF_KEY +:+ "foo/bar")))
    by reflexivity.
  assert (H3 : split_slash "stuff" = ["stuff"]) by reflexivity.
  assert (H4 : strip_slash ("stuff" +:+ "/" +:+ "bat/x")
                 = "stuff" +:+ "/" +:+ "bat/x") by reflexivity.
  assert (H5 : DataStore._isRefValue (VStr ("stuff" +:+ "/" +:+ "bat/x")) = false)
    by reflexivity.
  assert (H6 : "foo/bar" <> "stuff" +:+ "/" +:+ "bat/x") by done.
  split; [exact H1 | split; [exact H2 | split; [exact H3 | split; [exact H4 |
    split; [exact H5 | split; [exact H6 |]]]]]].
  exact (resolveRefKey_keeps_the_rest_of_the_key aliased_store o
           "stuff" "bat/x" "foo/bar" H1 H2 H3 H4 H5 H6).
Defined.

Lemma obj_get_imap_elem (f : nat -> string) (l : list value) (k : string)
    (x : value) :
  obj_get (imap (fun i v => (f i, v)) l) k = Some x -> x ∈ l.
Proof.
  revert f. induction l as [|y l IH]; intros f; [done |].
  cbn [imap obj_get]. destruct (String.eqb (f 0) k).
  - intros [= ->]. by left.
  - intros Hget. right. by apply (IH (f ∘ S)).
Qed.

Lemma single_character_is_no_alias (a : ascii) :
  DataStore._isRefValue (VStr (String a EmptyString)) = false.
Proof.
  unfold DataStore._isRefValue, starts_with, DataStore.REF_KEY.
  cbn [truthy String.eqb negb String.prefix].
  by destruct (ascii_dec "_" a).
Qed.

Lemma chars_are_single (s x : string) :
  x ∈ chars s -> exists a, x = String a EmptyString.
Proof.
  induction s as [|c r IH]; simpl; intros Hx.
  - by apply not_elem_of_nil in Hx.
  - apply elem_of_cons in Hx as [->|Hx]; [by eexists | by apply IH].
Qed.

Lemma length_is_no_alias (n : Z) (k : string) :
  alias_free
    match obj_get [("length", VNum n)] k with
    | Some v => v
    | None => VUndefined
    end = true.
Proof.
  unfold obj_get. destruct (String.eqb "length" k); [| done].
  cbn [alias_free]. unfold DataStore._isRefValue.
  by destruct (negb (truthy _)).
Qed.

Lemma member_of_a_string_alias_free (s k : string) (x : value) :
  member (VStr s) k = Ok x -> alias_free x = true.
Proof.
  simpl. intros [= <-]. unfold obj_read. rewrite obj_get_app.
  destruct (obj_get (indexed (VStr <$> chars s)) k) as [y|] eqn:Hy.
  - apply obj_get_imap_elem, list_elem_of_fmap in Hy as (c & -> & Hc).
    apply chars_are_single in Hc as [a ->]. simpl.
    by rewrite single_character_is_no_alias.
  - apply length_is_no_alias.
Qed.

(** Reading a member of a value without aliases yields a value without
    aliases. *)
Lemma member_alias_free (v : value) (k : string) (x : value) :
  alias_free v = true -> member v k = Ok x -> alias_free x = true.
Proof.
  intros Hfree. destruct v as [| |b|n| |s|items|fields|f|r|]; simpl;
    try (intros [= <-]; done).
  - by apply member_of_a_string_alias_free.
  - intros [= <-]. unfold obj_read. rewrite obj_get_app.
    destruct (obj_get (indexed items) k) as [y|] eqn:Hy.
    + apply obj_get_imap_elem in Hy. simpl in Hfree.
      by apply (proj1 (forallb_forall _ _) Hfree), list_elem_of_In.
    + apply length_is_no_alias.
  - intros [= <-]. unfold obj_read.
    induction fields as [|[k' y] o IH]; [done |].
    simpl in Hfree. apply andb_true_iff in Hfree as [Hy Ho].
    cbn [obj_get]. destruct (String.eqb k' k); [exact Hy | by apply IH].
Qed.

Lemma walk_without_aliases (segs : list string) (v : value) (idx : nat) :
  isNullish v = false ->
  match v with VStr _ => True | _ => alias_free v = true end ->
  exists idx', DataStore.walk_to_ref v segs idx = Ok (None, idx').
Proof.
  revert v idx. induction segs as [|seg segs IH]; intros v idx Hv Hfree.
  { by eexists. }
  cbn [DataStore.walk_to_ref].
  destruct (member_not_nullish v seg Hv) as [next Hnext].
  rewrite Hnext. cbn [mbind result_bind].
  assert (Hnfree : alias_free next = true).
  { destruct v; try (by apply (member_alias_free _ _ _ Hfree Hnext)).
    by apply (member_of_a_string_alias_free _ _ _ Hnext). }
  destruct (isNullish next) eqn:Hnull; [by eexists |].
  destruct next; try (apply IH; done).
  simpl in Hnfree. apply negb_true_iff in Hnfree. rewrite Hnfree.
  by apply IH.
Qed.

(** X15. On a tree that holds no alias, a key that is not itself an alias
    resolves to itself, with its leading separator trimmed: the walk reads
    the tree without finding anything to substitute, whether the key names
    something or not.  (The walk reads own properties only: a segment that
    names an inherited member, such as [constructor], is not covered.) *)
Theorem resolveRefKey_without_aliases (st : DataStore.t) (key : string) :
  alias_free (DataStore._data st) = true ->
  isNullish (DataStore._data st) = false ->
  DataStore._isRefValue (VStr key) = false ->
  resolves_by_own_reads st key = true ->
  DataStore._resolveRefKey st (VStr key) = Ok (strip_slash key).
Proof.
  intros Hfree Hnull Hnoref _.
  cbn [DataStore._resolveRefKey]. unfold DataStore.resolve_string.
  rewrite Hnoref.
  destruct (walk_without_aliases (split_slash (strip_slash key))
              (DataStore._data st) 0 Hnull) as [idx' ->].
  { by destruct (DataStore._data st). }
  cbn [mbind result_bind default]. by rewrite String.eqb_refl.
Qed.

Lemma resolveRefKey_without_aliases_witness :
  alias_free (DataStore._data readme_store) = true /\
  isNullish (DataStore._data readme_store) = false /\
  DataStore._isRefValue (VStr "/foo/bar/nothing/here") = false /\
  resolves_by_own_reads readme_store "/foo/bar/nothing/here" = true /\
  DataStore._resolveRefKey readme_store (VStr "/foo/bar/nothing/here")
    = Ok "foo/bar/nothing/here".
Proof.
  assert (H1 : alias_free (DataStore._data readme_store) = true) by reflexivity.
  assert (H2 : isNullish (DataStore._data readme_store) = false) by reflexivity.
  assert (H3 : DataStore._isRefValue (VStr "/foo/bar/nothing/here") = false)
    by reflexivity.
  split; [exact H1 | split; [exact H2 | split; [exact H3 |
    split; [reflexivity |]]]].
  exact (resolveRefKey_without_aliases readme_store "/foo/bar/nothing/here"
           H1 H2 H3 eq_refl).
Defined.

(** ** [lib/DataStore.js]: cursors *)

(** X16. [createCursor] registers one cursor per key: the key a cursor is
    registered under is empty or begins with the separator, asking again
    for the same key returns the same cursor and registers nothing, the
    cursors registered before stay registered, and the tree is not
    touched; a key that cannot be resolved leaves the store as it was. *)
Theorem createCursor_registers_each_key_once (st : DataStore.t) (key : value) :
  match DataStore.createCursor st key with
  | (st', Ok cursor) =>
      (cursor = "" \/ starts_with "/" cursor = true) /\
      cursor ∈ DataStore._cursors st' /\
      DataStore.createCursor st' key = (st', Ok cursor) /\
      (NoDup (DataStore._cursors st) -> NoDup (DataStore._cursors st')) /\
      (forall c, c ∈ DataStore._cursors st -> c ∈ DataStore._cursors st') /\
      DataStore._data st' = DataStore._data st
  | (st', Throw _) => st' = st
  end.
Proof.
  unfold DataStore.createCursor.
  destruct (DataStore._resolveRefKey st (if truthy key then key else VStr ""))
    as [k|err] eqn:Hk; [| done].
  set (cursor := if negb (String.eqb k "") && negb (starts_with "/" k)
                 then "/" +:+ k else k).
  assert (Hshape : cursor = "" \/ starts_with "/" cursor = true).
  { unfold cursor. destruct (String.eqb k "") eqn:Ek; cbn [negb andb].
    - left. by apply String.eqb_eq.
    - right. destruct (starts_with "/" k) eqn:Es; cbn [negb]; [done |].
      apply (starts_with_app "/" k). }
  destruct (bool_decide (cursor ∈ DataStore._cursors st)) eqn:Hin.
  - apply bool_decide_eq_true in Hin.
    split; [exact Hshape | split; [exact Hin | split; [| done]]].
    rewrite Hk. fold cursor. by rewrite bool_decide_eq_true_2.
  - apply bool_decide_eq_false in Hin.
    split; [exact Hshape | split; [| split; [| split; [| split; [| done]]]]].
    + cbn [DataStore._cursors DataStore.with_cursors].
      apply elem_of_app. right. apply list_elem_of_here.
    + rewrite (resolveRefKey_reads_the_tree _ st) by done.
      rewrite Hk. fold cursor.
      rewrite bool_decide_eq_true_2; [done |].
      cbn [DataStore._cursors DataStore.with_cursors].
      apply elem_of_app. right. apply list_elem_of_here.
    + intros Hnd. cbn [DataStore._cursors DataStore.with_cursors].
      apply NoDup_app. split; [exact Hnd | split].
      * intros c Hc Hc'. apply list_elem_of_singleton in Hc'. by subst.
      * apply NoDup_singleton.
    + intros c Hc. cbn [DataStore._cursors DataStore.with_cursors].
      apply elem_of_app. by left.
Qed.

(** X17. A leading separator makes no difference to [createCursor]: for a
    key that does not begin with the separator and is not an alias, the
    key and the key prefixed with the separator name the same cursor. *)
Theorem createCursor_ignores_a_leading_separator (st : DataStore.t)
    (k : string) :
  starts_with "/" k = false ->
  DataStore._isRefValue (VStr k) = false ->
  DataStore.createCursor st (VStr ("/" +:+ k))
    = DataStore.createCursor st (VStr k).
Proof.
  intros Hslash Hnoref.
  assert (Hstrip : strip_slash k = k).
  { destruct k as [|c r]; [done |]. unfold starts_with in Hslash.
    cbn [String.prefix] in Hslash. cbn [strip_slash].
    destruct (Ascii.eqb c "/") eqn:Ec; [| done].
    apply Ascii.eqb_eq in Ec. subst c.
    destruct (ascii_dec "/" "/"); [by destruct r | done]. }
  assert (Hresolve :
    DataStore._resolveRefKey st (VStr ("/" +:+ k))
      = DataStore._resolveRefKey st (if truthy (VStr k) then VStr k else VStr "")).
  { assert (Hk : (if truthy (VStr k) then VStr k else VStr "") = VStr k).
    { cbn [truthy]. destruct (String.eqb k "") eqn:Ek; [| done].
      apply String.eqb_eq in Ek. by subst. }
    rewrite Hk. cbn [DataStore._resolveRefKey]. unfold DataStore.resolve_string.
    rewrite Hnoref, Hstrip.
    assert (Hno : DataStore._isRefValue (VStr ("/" +:+ k)) = false).
    { unfold DataStore._isRefValue, starts_with, DataStore.REF_KEY.
      cbn [truthy String.eqb negb String.prefix String.append].
      by destruct (ascii_dec "_" "/"). }
    rewrite Hno. done. }
  unfold DataStore.createCursor.
  change (truthy (VStr ("/" +:+ k))) with true. cbv iota.
  by rewrite Hresolve.
Qed.

Lemma createCursor_ignores_a_leading_separator_witness :
  starts_with "/" "foo/bar" = false /\
  DataStore._isRefValue (VStr "foo/bar") = false /\
  DataStore.createCursor readme_store (VStr "/foo/bar")
    = DataStore.createCursor readme_store (VStr "foo/bar") /\
  DataStore.createCursor readme_store (VStr "foo/bar")
    = (DataStore.with_cursors readme_store ["/foo/bar"], Ok "/foo/bar").
Proof.
  assert (H1 : starts_with "/" "foo/bar" = false) by reflexivity.
  assert (H2 : DataStore._isRefValue (VStr "foo/bar") = false) by reflexivity.
  split; [exact H1 | split; [exact H2 | split; [| reflexivity]]].
  exact (createCursor_ignores_a_leading_separator readme_store "foo/bar" H1 H2).
Defined.

(** ** [lib/DataStore.js]: serialisation *)

Lemma obj_set_fresh (o : props) (k : string) (v : value) :
  k ∉ o.*1 -> obj_set o k v = o ++ [(k, v)].
Proof.
  induction o as [|[k' x] o IH]; [done |].
  cbn [fmap list_fmap fst]. intros Hk.
  apply not_elem_of_cons in Hk as [Hne Hk]. cbn [obj_set app].
  destruct (String.eqb k' k) eqn:E.
  - apply String.eqb_eq in E. congruence.
  - by rewrite IH.
Qed.

Lemma obj_get_Some_keys (o : props) (k : string) (v : value) :
  obj_get o k = Some v -> k ∈ o.*1.
Proof.
  induction o as [|[k' x] o IH]; [done |]. cbn [obj_get fmap list_fmap fst].
  destruct (String.eqb k' k) eqn:E.
  - apply String.eqb_eq in E. subst. intros _. by left.
  - intros Hget. right. by apply IH.
Qed.

Lemma serialise_of_a_mapping (key : option string) (o : props)
    (config : value) :
  DataStore.serialise key (VObj o) config =
    match DataStore.serialise_each key config o [] with
    | Some (Ok obj) => Some (Ok (VObj obj))
    | Some (Throw e) => Some (Throw e)
    | None => None
    end.
Proof. reflexivity. Qed.

Lemma serialise_each_cons (key : option string) (config : value)
    (k : string) (x : value) (o obj : props) :
  DataStore.serialise_each key config ((k, x) :: o) obj =
    match member config (DataStore.key_chain key k) with
    | Throw e => Some (Throw e)
    | Ok (VBool false) => DataStore.serialise_each key config o obj
    | Ok _ =>
        match x with
        | VObj _ =>
            match DataStore.serialise (Some (DataStore.key_chain key k)) x config with
            | Some (Ok y) =>
                DataStore.serialise_each key config o (obj_set obj k y)
            | Some (Throw e) => Some (Throw e)
            | None => None
            end
        | VStore => None
        | _ => DataStore.serialise_each key config o (obj_set obj k x)
        end
    end.
Proof. by destruct x. Qed.

Lemma serialise_each_leaves_out (key : option string) (config : value)
    (p : string) (o obj r : props) :
  member config (DataStore.key_chain key p) = Ok (VBool false) ->
  DataStore.serialise_each key config o obj = Some (Ok r) ->
  obj_get obj p = None -> obj_get r p = None.
Proof.
  intros Hflag. revert obj.
  induction o as [|[k x] o IH]; intros obj Heach Hobj.
  { simpl in Heach. by injection Heach as <-. }
  rewrite serialise_each_cons in Heach.
  destruct (member config (DataStore.key_chain key k)) as [flag|err] eqn:Hk;
    [| discriminate Heach].
  assert (Hstep : forall y,
    flag <> VBool false ->
    DataStore.serialise_each key config o (obj_set obj k y) = Some (Ok r) ->
    obj_get r p = None).
  { intros y Hne Hrest. apply (IH _ Hrest).
    rewrite obj_get_set_ne; [exact Hobj |].
    intros ->. rewrite Hflag in Hk. injection Hk as <-. done. }
  destruct flag as [| |[]|n| |s|l|c|f|rid|];
    try (destruct x as [| |b'|n'| |s'|l'|c'|f'|rid'|];
         try (apply (Hstep _ ltac:(done) Heach)); try discriminate Heach;
         destruct (DataStore.serialise (Some (DataStore.key_chain key k)) (VObj c') config)
           as [[y|err]|]; try discriminate Heach;
         apply (Hstep _ ltac:(done) Heach)).
  by apply (IH _ Heach).
Qed.

Lemma serialise_each_invents_nothing (key : option string) (config : value)
    (p : string) (o obj r : props) :
  DataStore.serialise_each key config o obj = Some (Ok r) ->
  obj_get r p <> None -> obj_get obj p <> None \/ p ∈ o.*1.
Proof.
  revert obj. induction o as [|[k x] o IH]; intros obj Heach Hr.
  { simpl in Heach. injection Heach as <-. by left. }
  rewrite serialise_each_cons in Heach.
  destruct (member config (DataStore.key_chain key k)) as [flag|err] eqn:Hk;
    [| discriminate Heach].
  assert (Hstep : forall y,
    DataStore.serialise_each key config o (obj_set obj k y) = Some (Ok r) ->
    obj_get obj p <> None \/ p ∈ ((k, x) :: o).*1).
  { intros y Hrest. destruct (IH _ Hrest Hr) as [Hin|Hin].
    - destruct (decide (k = p)) as [->|Hne].
      + right. cbn [fmap list_fmap fst]. by left.
      + left. by rewrite obj_get_set_ne in Hin.
    - right. cbn [fmap list_fmap fst]. by right. }
  destruct flag as [| |[]|n| |s|l|c|f|rid|];
    try (destruct x as [| |b'|n'| |s'|l'|c'|f'|rid'|];
         try (apply (Hstep _ Heach)); try discriminate Heach;
         destruct (DataStore.serialise (Some (DataStore.key_chain key k)) (VObj c') config)
           as [[y|err]|]; try discriminate Heach;
         apply (Hstep _ Heach)).
  destruct (IH _ Heach Hr) as [Hin|Hin]; [by left |].
  right. cbn [fmap list_fmap fst]. by right.
Qed.

(** What [serialise] returns for anything but a mapping is no mapping. *)
Lemma serialise_of_a_leaf (key : option string) (data config res : value) :
  isPlainObject data = false ->
  DataStore.serialise key data config = Some (Ok res) ->
  isPlainObject res = false.
Proof.
  intros Hleaf. destruct data; try done; cbn [DataStore.serialise];
    destruct (member config _) as [flag|err]; try done;
    destruct flag as [| |[]| | | | | | | |]; by intros [= <-].
Qed.

(** A property of the mapping that the loop of [serialise] builds is one
    the loop started with, or the serialisation, under its key chain, of
    the property of that name in the data. *)
Lemma serialise_each_lookup (key : option string) (config : value)
    (p : string) (x : value) (o obj r : props) :
  NoDup (obj.*1 ++ o.*1) ->
  DataStore.serialise_each key config o obj = Some (Ok r) ->
  obj_get r p = Some x ->
  obj_get obj p = Some x \/
  exists d,
    obj_get o p = Some d /\
    DataStore.serialise (Some (DataStore.key_chain key p)) d config = Some (Ok x).
Proof.
  revert obj. induction o as [|[k d] o IH]; intros obj Hnd Heach Hr.
  { simpl in Heach. injection Heach as <-. by left. }
  cbn [fmap list_fmap fst] in Hnd.
  assert (Hfresh : k ∉ obj.*1).
  { apply NoDup_app in Hnd as (_ & Hdisj & _). intros Hin.
    apply (Hdisj k Hin). by left. }
  assert (Hk : k ∉ o.*1).
  { apply NoDup_app in Hnd as (_ & _ & Hnd). by apply NoDup_cons in Hnd as [? _]. }
  assert (Hnd0 : NoDup (obj.*1 ++ o.*1)).
  { apply NoDup_app in Hnd as (Ha & Hdisj & Hb).
    apply NoDup_cons in Hb as [_ Hb]. apply NoDup_app.
    split; [done | split; [| done]].
    intros y Hy Hy'. apply (Hdisj y Hy). by right. }
  assert (Hbelow : forall d',
    obj_get o p = Some d' -> obj_get ((k, d) :: o) p = Some d').
  { intros d' Hd'. cbn [obj_get]. destruct (String.eqb k p) eqn:E; [| done].
    apply String.eqb_eq in E. subst. exfalso. apply Hk.
    by apply (obj_get_Some_keys _ _ d'). }
  rewrite serialise_each_cons in Heach.
  destruct (member config (DataStore.key_chain key k)) as [flag|err] eqn:Hflag;
    [| discriminate Heach].
  assert (Hskip :
    DataStore.serialise_each key config o obj = Some (Ok r) ->
    obj_get obj p = Some x \/
    exists d',
      obj_get ((k, d) :: o) p = Some d' /\
      DataStore.serialise (Some (DataStore.key_chain key p)) d' config
        = Some (Ok x)).
  { intros Hrest. destruct (IH _ Hnd0 Hrest Hr) as [Hin|(d' & Hd' & Hs)];
      [by left |].
    right. exists d'. split; [by apply Hbelow | done]. }
  assert (Hstep : forall y,
    DataStore.serialise (Some (DataStore.key_chain key k)) d config = Some (Ok y) ->
    DataStore.serialise_each key config o (obj_set obj k y) = Some (Ok r) ->
    obj_get obj p = Some x \/
    exists d',
      obj_get ((k, d) :: o) p = Some d' /\
      DataStore.serialise (Some (DataStore.key_chain key p)) d' config
        = Some (Ok x)).
  { intros y Hy Hrest. rewrite (obj_set_fresh _ _ _ Hfresh) in Hrest.
    assert (Hnd' : NoDup ((obj ++ [(k, y)]).*1 ++ o.*1)).
    { rewrite fmap_app. cbn [fmap list_fmap fst]. by rewrite <- app_assoc. }
    destruct (IH _ Hnd' Hrest Hr) as [Hin|(d' & Hd' & Hs)].
    - rewrite obj_get_app in Hin.
      destruct (obj_get obj p) as [x0|]; [by left |].
      cbn [obj_get] in Hin. destruct (String.eqb k p) eqn:E; [| done].
      apply String.eqb_eq in E. subst p. injection Hin as <-.
      right. exists d. cbn [obj_get]. by rewrite String.eqb_refl.
    - right. exists d'. split; [by apply Hbelow | done]. }
  assert (Hleaf : isPlainObject d = false -> d <> VStore ->
    flag <> VBool false ->
    DataStore.serialise (Some (DataStore.key_chain key k)) d config = Some (Ok d)).
  { intros Hd Hstore Hne. destruct d; try done; cbn [DataStore.serialise];
      rewrite Hflag; by destruct flag as [| |[]| | | | | | | |]. }
  destruct flag as [| |[]|n| |s|l|c|f|rid|];
    try (destruct d as [| |b'|n'| |s'|l'|c'|f'|rid'|];
         try (apply (Hstep _ (Hleaf ltac:(done) ltac:(done) ltac:(done)) Heach));
         try discriminate Heach;
         destruct (DataStore.serialise (Some (DataStore.key_chain key k)) (VObj c') config)
           as [[y|err]|]; try discriminate Heach;
         apply (Hstep _ eq_refl Heach)).
  by apply Hskip.
Qed.

Lemma serialise_lookup (key : option string) (config : value)
    (p : string) (x : value) (o r : props) :
  NoDup o.*1 ->
  DataStore.serialise key (VObj o) config = Some (Ok (VObj r)) ->
  obj_get r p = Some x ->
  exists d,
    obj_get o p = Some d /\
    DataStore.serialise (Some (DataStore.key_chain key p)) d config = Some (Ok x).
Proof.
  intros Hnd. rewrite serialise_of_a_mapping.
  destruct (DataStore.serialise_each key config o []) as [[obj|err]|] eqn:Heach;
    try discriminate.
  intros [= ->] Hr.
  by destruct (serialise_each_lookup key config p x o [] r Hnd Heach Hr).
Qed.

Lemma plain_tree_of_a_mapping (o : props) :
  plain_tree (VObj o) = true ->
  NoDup o.*1 /\ forall p d, obj_get o p = Some d -> plain_tree d = true.
Proof.
  cbn [plain_tree]. intros Hplain.
  apply andb_true_iff in Hplain as [Hnd Hall].
  apply andb_true_iff in Hnd as [Hnd _].
  apply bool_decide_eq_true in Hnd. split; [done |].
  intros p d. induction o as [|[k y] o IH]; [done |].
  cbn [forallb snd] in Hall. apply andb_true_iff in Hall as [Hy Hall].
  cbn [fmap list_fmap fst] in Hnd. apply NoDup_cons in Hnd as [_ Hnd].
  cbn [obj_get]. destruct (String.eqb k p); [by intros [= <-] | by apply IH].
Qed.

(** One step down in what [serialise] returned: the data is a mapping as
    well, and the property found is the serialisation of the property of
    that name. *)
Lemma serialise_step (key : option string) (config data res : value)
    (p : string) (y : value) :
  plain_tree data = true ->
  DataStore.serialise key data config = Some (Ok res) ->
  descend res [p] = Some y ->
  exists d,
    descend data [p] = Some d /\ plain_tree d = true /\
    DataStore.serialise (Some (DataStore.key_chain key p)) d config = Some (Ok y).
Proof.
  intros Hplain Hser Hy.
  destruct res as [| | | | | | |r| | |]; try done.
  destruct data as [| | | | | | |o| | |];
    try (by apply serialise_of_a_leaf in Hser).
  destruct (plain_tree_of_a_mapping o Hplain) as [Hnd Hbelow].
  cbn [descend] in Hy.
  destruct (obj_get r p) as [y'|] eqn:Hr; [| done]. injection Hy as ->.
  destruct (serialise_lookup _ _ _ _ _ _ Hnd Hser Hr) as (d & Hd & Hs).
  exists d. cbn [descend]. rewrite Hd. split; [done |].
  split; [by eapply Hbelow | done].
Qed.

Lemma serialise_leaves_out_step (key : option string)
    (config data res : value) (p : string) :
  DataStore.serialise key data config = Some (Ok res) ->
  member config (DataStore.key_chain key p) = Ok (VBool false) ->
  descend res [p] = None.
Proof.
  intros Hser Hflag.
  destruct res as [| | | | | | |r| | |]; try done.
  destruct data as [| | | | | | |o| | |];
    try (by apply serialise_of_a_leaf in Hser).
  rewrite serialise_of_a_mapping in Hser.
  destruct (DataStore.serialise_each key config o []) as [[obj|err]|] eqn:Heach;
    try discriminate.
  injection Hser as ->.
  apply (serialise_each_leaves_out _ _ p _ _ _ Hflag) in Heach; [| done].
  cbn [descend]. by rewrite Heach.
Qed.

Lemma descend_step (v : value) (p : string) (path : list string) :
  descend v (p :: path) =
    match descend v [p] with Some x => descend x path | None => None end.
Proof.
  cbn [descend]. destruct v; try done. by destruct (obj_get fields p).
Qed.

(** Nothing is found in what [serialise] returned along a path whose key
    chain is excluded. *)
Lemma serialise_descend_excluded (config : value) (path : list string)
    (key : option string) (data res : value) (chain : string) :
  plain_tree data = true ->
  DataStore.serialise key data config = Some (Ok res) ->
  path <> [] ->
  chain_of key path = Some chain ->
  member config chain = Ok (VBool false) ->
  descend res path = None.
Proof.
  revert key data res.
  induction path as [|p path IH]; intros key data res Hplain Hser Hne;
    [done |].
  intros Hchain Hflag. destruct path as [|q path].
  - cbn in Hchain. injection Hchain as <-.
    by apply (serialise_leaves_out_step key config data).
  - rewrite descend_step.
    destruct (descend res [p]) as [y|] eqn:Hy; [| done].
    destruct (serialise_step _ _ _ _ _ _ Hplain Hser Hy) as (d & Hd & Hpd & Hs).
    by apply (IH (Some (DataStore.key_chain key p)) d y Hpd Hs).
Qed.

(** What is found in what [serialise] returned along a path is the
    serialisation, under the key chain of the path, of what is found in the
    data along the same path. *)
Lemma serialise_descend (config : value) (path : list string)
    (key : option string) (data res x : value) :
  plain_tree data = true ->
  DataStore.serialise key data config = Some (Ok res) ->
  descend res path = Some x ->
  exists d,
    descend data path = Some d /\
    DataStore.serialise (chain_of key path) d config = Some (Ok x).
Proof.
  revert key data res.
  induction path as [|p path IH]; intros key data res Hplain Hser.
  - intros [= <-]. by exists data.
  - rewrite descend_step.
    destruct (descend res [p]) as [y|] eqn:Hy; [| done].
    destruct (serialise_step _ _ _ _ _ _ Hplain Hser Hy) as (d & Hd & Hpd & Hs).
    intros Hx.
    destruct (IH (Some (DataStore.key_chain key p)) d y Hpd Hs Hx)
      as (d' & Hd' & Hs').
    exists d'. rewrite descend_step, Hd. done.
Qed.

(** X18. At every depth, [serialise] leaves out the properties whose key
    chain is configured [false], and what it returns anywhere is the
    serialisation of the data found there: for plain data (mappings with
    distinct, ordinary property names, no reference to the store) and every
    path of property names, nothing is found in the result along a path
    whose key chain is excluded; and what is found in the result along a
    path is what [serialise] returns, under the key chain of the path, for
    what is found in the data along the same path. *)
Theorem serialise_leaves_out_the_excluded_keys (key : option string)
    (data res config : value) :
  plain_tree data = true ->
  DataStore.serialise key data config = Some (Ok res) ->
  (forall path chain,
     path <> [] ->
     chain_of key path = Some chain ->
     member config chain = Ok (VBool false) ->
     descend res path = None) /\
  (forall path x,
     descend res path = Some x ->
     exists d,
       descend data path = Some d /\
       DataStore.serialise (chain_of key path) d config = Some (Ok x)).
Proof.
  intros Hplain Hser. split.
  - intros path chain. by apply (serialise_descend_excluded config path key data).
  - intros path x. by apply (serialise_descend config path key data).
Qed.

Lemma serialise_leaves_out_the_excluded_keys_witness :
  let data := VObj [("foo", VObj [("bar", VNum 1); ("bat", VNum 2)]);
                    ("boo", VStr "boo")] in
  let config := VObj [("foo/bar", VBool false); ("boo", VBool false)] in
  let res := VObj [("foo", VObj [("bat", VNum 2)])] in
  plain_tree data = true /\
  DataStore.serialise None data config = Some (Ok res) /\
  descend res ["foo"; "bar"] = None /\
  descend data ["foo"; "bar"] = Some (VNum 1) /\
  exists d,
    descend data ["foo"; "bat"] = Some d /\
    DataStore.serialise (Some "foo/bat") d config = Some (Ok (VNum 2)).
Proof.
  intros data config res.
  assert (Hplain : plain_tree data = true).
  { vm_compute. reflexivity. }
  assert (Hs : DataStore.serialise None data config = Some (Ok res))
    by reflexivity.
  split; [exact Hplain | split; [exact Hs |]].
  destruct (serialise_leaves_out_the_excluded_keys None data res config
              Hplain Hs) as [Hout Hin].
  split; [| split; [reflexivity |]].
  - by apply (Hout ["foo"; "bar"] "foo/bar").
  - by apply (Hin ["foo"; "bat"] (VNum 2)).
Defined.

Lemma serialise_each_keeps_everything (key : option string) (config : value)
    (o obj : props) :
  (forall k, exists flag, member config k = Ok flag /\ flag <> VBool false) ->
  Forall (fun kx =>
            forall key, plain_tree kx.2 = true ->
                        DataStore.serialise key kx.2 config = Some (Ok kx.2)) o ->
  NoDup (obj.*1 ++ o.*1) ->
  forallb (fun kx => plain_tree kx.2) o = true ->
  DataStore.serialise_each key config o obj = Some (Ok (obj ++ o)).
Proof.
  intros Hconfig IHo. revert obj.
  induction IHo as [|[k x] o Hx _ IH]; intros obj Hnd Hplain.
  { by rewrite app_nil_r. }
  cbn [forallb snd] in Hplain.
  apply andb_true_iff in Hplain as [Hxplain Hplain].
  cbn [fmap list_fmap fst] in Hnd.
  assert (Hfresh : k ∉ obj.*1).
  { apply NoDup_app in Hnd as (_ & Hdisj & _). intros Hin.
    apply (Hdisj k Hin). by left. }
  assert (Hnd' : NoDup ((obj ++ [(k, x)]).*1 ++ o.*1)).
  { rewrite fmap_app. cbn [fmap list_fmap fst]. by rewrite <- app_assoc. }
  rewrite serialise_each_cons.
  destruct (Hconfig (DataStore.key_chain key k)) as (flag & -> & Hflag).
  assert (Hnext : DataStore.serialise_each key config o (obj_set obj k x)
                    = Some (Ok (obj ++ (k, x) :: o))).
  { rewrite (obj_set_fresh _ _ _ Hfresh), (IH _ Hnd' Hplain).
    by rewrite <- app_assoc. }
  destruct flag as [| |[]|n| |s|l|c|f|rid|]; try done;
    destruct x as [| |b'|n'| |s'|l'|c'|f'|rid'|]; try done;
    by rewrite (Hx _ Hxplain).
Qed.

(** X19. With no key configured [false], [serialise] returns the data as it
    is stored, aliases and expiry stamps included: on a tree of plain data
    (mappings with distinct, ordinary property names, and no reference to
    the store) the result is the tree itself. *)
Theorem serialise_without_exclusions (key : option string)
    (data config : value) :
  (forall k, exists flag, member config k = Ok flag /\ flag <> VBool false) ->
  plain_tree data = true ->
  DataStore.serialise key data config = Some (Ok data).
Proof.
  intros Hconfig. revert key.
  induction data as [| |b|n| |s|l IHl|o IHo|f|r|] using value_nested_ind;
    intros key Hplain;
    try (cbn [DataStore.serialise];
         destruct (Hconfig (match key with Some k => k | None => "null" end))
           as (flag & -> & Hflag);
         by destruct flag as [| |[]| | | | | | | |]).
  rewrite serialise_of_a_mapping.
  cbn [plain_tree] in Hplain. apply andb_true_iff in Hplain as [Hnd Hplain].
  apply andb_true_iff in Hnd as [Hnd _].
  apply bool_decide_eq_true in Hnd.
  rewrite (serialise_each_keeps_everything key config o [] Hconfig); [done | | done | done].
  eapply Forall_impl; [exact IHo |]. intros [k x] Hx key' Hp. by apply Hx.
Qed.

Lemma serialise_without_exclusions_witness :
  let data := VObj [("foo", VObj [("bar", VStr "__ref:bat")]);
                    ("bat", VArr [VNum 1; VNull])] in
  (forall k, exists flag, member (VObj []) k = Ok flag /\ flag <> VBool false) /\
  plain_tree data = true /\
  DataStore.serialise None data (VObj []) = Some (Ok data).
Proof.
  intros data.
  assert (Hconfig : forall k,
            exists flag, member (VObj []) k = Ok flag /\ flag <> VBool false).
  { intros k. exists VUndefined. split; [reflexivity | discriminate]. }
  assert (Hplain : plain_tree data = true).
  { vm_compute. reflexivity. }
  split; [exact Hconfig | split; [exact Hplain |]].
  exact (serialise_without_exclusions None data (VObj []) Hconfig Hplain).
Defined.

Lemma mark_all_serialisable_spec (st : DataStore.t) (ks : list string)
    (v : value) (c : props) :
  DataStore._serialisableKeys st = VObj c ->
  DataStore.mark_all_serialisable st ks v =
    Some (DataStore.with_serialisableKeys st
            (VObj (fold_left (fun c k => obj_set c (strip_slash k) v) ks c)),
          Ok ()).
Proof.
  revert st c. induction ks as [|k ks IH]; intros st c Hc.
  - simpl. rewrite <- Hc. by destruct st.
  - cbn [DataStore.mark_all_serialisable fold_left].
    unfold DataStore.mark_serialisable. rewrite Hc.
    rewrite (IH _ (obj_set c (strip_slash k) v)) by done.
    by destruct st.
Qed.

Lemma fold_obj_set_lookup (ks : list string) (v : value) (c : props)
    (k : string) :
  obj_get (fold_left (fun c k => obj_set c (strip_slash k) v) ks c) k =
    if bool_decide (k ∈ strip_slash <$> ks) then Some v else obj_get c k.
Proof.
  revert c. induction ks as [|k' ks IH]; intros c; [done |].
  cbn [fold_left fmap list_fmap]. rewrite IH.
  destruct (decide (k ∈ strip_slash <$> ks)) as [Hin|Hout].
  - rewrite !bool_decide_eq_true_2; [done | by right | done].
  - rewrite (bool_decide_eq_false_2 _ Hout).
    destruct (decide (strip_slash k' = k)) as [<-|Hne].
    + rewrite bool_decide_eq_true_2 by by left. apply obj_get_set_eq.
    + rewrite bool_decide_eq_false_2.
      * by apply obj_get_set_ne.
      * intros Hin. apply elem_of_cons in Hin as [?|?]; congruence.
Qed.

(** X20. [setSerialisabilityOfKey] records its second argument under each
    key it is given, with the key's leading separator trimmed, and touches
    nothing else: for a single key, and for every key of a hash in the batch
    form, where the values held by the hash play no part; the flags of the
    other keys and the tree are left as they were.  (Keys are ordinary
    names: a flag assigned to [__proto__] would not be recorded.) *)
Theorem setSerialisabilityOfKey_records_the_value (st : DataStore.t)
    (key v : value) (c : props) (keys : list string) :
  DataStore._serialisableKeys st = VObj c ->
  match key with
  | VStr s => Some [s]
  | VObj o => Some o.*1
  | _ => None
  end = Some keys ->
  Forall ordinary_name (strip_slash <$> keys) ->
  exists c',
    DataStore.setSerialisabilityOfKey st key v
      = Some (DataStore.with_serialisableKeys st (VObj c'), Ok ()) /\
    (forall k, k ∈ keys -> obj_get c' (strip_slash k) = Some v) /\
    (forall k, k ∉ strip_slash <$> keys -> obj_get c' k = obj_get c k).
Proof.
  intros Hc Hkeys _.
  exists (fold_left (fun c k => obj_set c (strip_slash k) v) keys c).
  split; [| split].
  - destruct key; try discriminate Hkeys; injection Hkeys as <-.
    + cbn [DataStore.setSerialisabilityOfKey].
      unfold DataStore.mark_serialisable. by rewrite Hc.
    + cbn [DataStore.setSerialisabilityOfKey].
      by apply mark_all_serialisable_spec.
  - intros k Hk. rewrite fold_obj_set_lookup.
    rewrite bool_decide_eq_true_2; [done |].
    apply list_elem_of_fmap. by exists k.
  - intros k Hk. rewrite fold_obj_set_lookup.
    by rewrite bool_decide_eq_false_2.
Qed.

Lemma setSerialisabilityOfKey_records_the_value_witness :
  let hash := VObj [("/foo", VBool false); ("bat", VBool false)] in
  DataStore._serialisableKeys readme_store = VObj [] /\
  match hash with
  | VStr s => Some [s]
  | VObj o => Some o.*1
  | _ => None
  end = Some ["/foo"; "bat"] /\
  Forall ordinary_name (strip_slash <$> ["/foo"; "bat"]) /\
  DataStore.setSerialisabilityOfKey readme_store hash VUndefined
    = Some (DataStore.with_serialisableKeys readme_store
              (VObj [("foo", VUndefined); ("bat", VUndefined)]), Ok ()) /\
  exists c',
    DataStore.setSerialisabilityOfKey readme_store hash (VBool false)
      = Some (DataStore.with_serialisableKeys readme_store (VObj c'), Ok ()) /\
    obj_get c' "foo" = Some (VBool false).
Proof.
  intros hash.
  assert (Hc : DataStore._serialisableKeys readme_store = VObj []) by reflexivity.
  assert (Hkeys : match hash with
                  | VStr s => Some [s]
                  | VObj o => Some o.*1
                  | _ => None
                  end = Some ["/foo"; "bat"]) by reflexivity.
  assert (Hord : Forall ordinary_name (strip_slash <$> ["/foo"; "bat"])).
  { repeat constructor; done. }
  split; [exact Hc | split; [exact Hkeys | split; [exact Hord |
    split; [reflexivity |]]]].
  destruct (setSerialisabilityOfKey_records_the_value readme_store hash
              (VBool false) [] ["/foo"; "bat"] Hc Hkeys Hord)
    as (c' & Hset & Hin & _).
  exists c'. split; [exact Hset |].
  apply (Hin "/foo"). apply list_elem_of_here.
Defined.

Lemma string_app_assoc (a b c : string) : (a +:+ b) +:+ c = a +:+ (b +:+ c).
Proof.
  induction a as [|x a IH]; [done |].
  change (String x ((a +:+ b) +:+ c) = String x (a +:+ (b +:+ c))).
  by rewrite IH.
Qed.

(** Below a key that is not empty, the key chain of a path is the key and
    the names of the path, joined by separators. *)
Lemma chain_of_below (acc : string) (path : list string) :
  acc <> "" ->
  chain_of (Some acc) path = Some (join_slash (acc :: path)).
Proof.
  revert acc. induction path as [|p path IH]; intros acc Hacc; [done |].
  unfold chain_of. cbn [fold_left DataStore.key_chain].
  destruct (String.eqb acc "") eqn:E; [by apply String.eqb_eq in E |].
  fold (chain_of (Some (acc +:+ "/" +:+ p)) path).
  rewrite IH by (by destruct acc).
  f_equal. unfold join_slash. cbn [String.concat].
  destruct path as [|q path]; [done |]. by rewrite !string_app_assoc.
Qed.

(** The key chain of the segments of a key that does not begin with a
    separator is the key itself. *)
Lemma chain_of_split_slash (s : string) :
  starts_with "/" s = false -> chain_of None (split_slash s) = Some s.
Proof.
  intros Hs. pose proof (join_slash_split_slash s) as Hjoin.
  destruct (split_slash s) as [|seg rest] eqn:Hsplit;
    [by apply split_slash_not_nil in Hsplit |].
  unfold chain_of. cbn [fold_left DataStore.key_chain].
  fold (chain_of (Some seg) rest).
  destruct (decide (seg = "")) as [-> | Hseg].
  - destruct s as [|c r]; [by injection Hsplit as <- |].
    exfalso. cbn [split_slash] in Hsplit.
    destruct (Ascii.eqb c "/") eqn:Ec.
    + apply Ascii.eqb_eq in Ec. subst c.
      unfold starts_with in Hs. simpl in Hs. by destruct r.
    + by destruct (split_slash r).
  - by rewrite chain_of_below, Hjoin.
Qed.

(** X21. A key marked unserialisable is left out of [toJSON] and of nothing
    else: after [setSerialisabilityOfKey(key, false)] the tree is what it
    was, and in what [toJSON()] returns nothing is found along the path of
    the key, at whatever depth the key lies.  (The tree is plain data, and
    the key, once its leading separator is trimmed, is an ordinary name
    that does not begin with another separator.) *)
Theorem an_unserialisable_key_is_left_out_of_toJSON (max_hops : nat)
    (st : DataStore.t) (k : string) (c : props) :
  DataStore._serialisableKeys st = VObj c ->
  plain_tree (DataStore._data st) = true ->
  ordinary_name (strip_slash k) ->
  starts_with "/" (strip_slash k) = false ->
  exists st',
    DataStore.setSerialisabilityOfKey st (VStr k) (VBool false)
      = Some (st', Ok ()) /\
    DataStore._data st' = DataStore._data st /\
    forall r, Store.toJSON max_hops st' VUndefined = Some (Ok r) ->
              descend r (split_slash (strip_slash k)) = None.
Proof.
  intros Hc Hplain _ Hk.
  exists (DataStore.with_serialisableKeys st
            (VObj (obj_set c (strip_slash k) (VBool false)))).
  split; [| split; [done |]].
  - cbn [DataStore.setSerialisabilityOfKey].
    unfold DataStore.mark_serialisable. by rewrite Hc.
  - intros r. unfold Store.toJSON. cbn [truthy].
    cbn [DataStore._data DataStore._serialisableKeys
         DataStore.with_serialisableKeys].
    intros Hser.
    apply (serialise_descend_excluded _ _ _ _ _ (strip_slash k) Hplain Hser).
    + apply split_slash_not_nil.
    + by apply chain_of_split_slash.
    + cbn [member]. by rewrite obj_read_set_eq.
Qed.

Lemma an_unserialisable_key_is_left_out_of_toJSON_witness :
  DataStore._serialisableKeys readme_store = VObj [] /\
  plain_tree (DataStore._data readme_store) = true /\
  ordinary_name (strip_slash "/foo/bar") /\
  starts_with "/" (strip_slash "/foo/bar") = false /\
  exists st',
    DataStore.setSerialisabilityOfKey readme_store (VStr "/foo/bar") (VBool false)
      = Some (st', Ok ()) /\
    Store.get 8 st' (VStr "foo/bar/bat") = Ok (VBool true) /\
    Store.toJSON 8 st' VUndefined = Some (Ok (VObj [("foo", VObj [])])) /\
    forall r, Store.toJSON 8 st' VUndefined = Some (Ok r) ->
              descend r ["foo"; "bar"] = None.
Proof.
  assert (Hc : DataStore._serialisableKeys readme_store = VObj []) by reflexivity.
  assert (Hp : plain_tree (DataStore._data readme_store) = true).
  { vm_compute. reflexivity. }
  assert (Hord : ordinary_name (strip_slash "/foo/bar")) by done.
  assert (Hk : starts_with "/" (strip_slash "/foo/bar") = false) by reflexivity.
  split; [exact Hc | split; [exact Hp | split; [exact Hord | split; [exact Hk |]]]].
  destruct (an_unserialisable_key_is_left_out_of_toJSON 8 readme_store "/foo/bar"
              [] Hc Hp Hord Hk) as (st' & Hset & Hdata & Hjson).
  exists st'. split; [exact Hset | split; [| split; [| exact Hjson]]];
    injection Hset as <-; reflexivity.
Defined.

(** ** [lib/DataStore.js]: [dump] *)

(** X22. On plain data that holds no alias, [explode] never calls
    [store.get] and rebuilds the data as it is: [dump()] of a store without
    aliases returns its tree, whatever [get] would answer and with no alias
    to follow. *)
Theorem dump_without_aliases (max_hops fuel : nat) (st : DataStore.t)
    (get : value -> result value) :
  alias_free (DataStore._data st) = true ->
  plain_tree (DataStore._data st) = true ->
  Store.explode get fuel (DataStore._data st) = Some (Ok (DataStore._data st)) /\
  Store.dump max_hops fuel st = Some (Ok (DataStore._data st)).
Proof.
  intros Hfree _. split; [by apply explode_alias_free |].
  unfold Store.dump. by apply explode_alias_free.
Qed.

Lemma dump_without_aliases_witness :
  alias_free (DataStore._data readme_store) = true /\
  plain_tree (DataStore._data readme_store) = true /\
  Store.dump 8 0 readme_store
    = Some (Ok (VObj [("foo", VObj [("bar", VObj [("bat", VBool true)])])])).
Proof.
  assert (Hfree : alias_free (DataStore._data readme_store) = true)
    by reflexivity.
  assert (Hplain : plain_tree (DataStore._data readme_store) = true).
  { vm_compute. reflexivity. }
  split; [exact Hfree | split; [exact Hplain |]].
  exact (proj2 (dump_without_aliases 8 0 readme_store (fun _ => Throw TypeError)
                  Hfree Hplain)).
Defined.

(** ** [lib/methods/fetch.js]: expiry *)

(** X23. [getExpiry] never returns a time that has passed: whatever the
    [expires] header says (a date that cannot be parsed, or one already
    behind the local clock), with a positive minimum the expiry is a time
    later than now; stamped on a body, it leaves the body unexpired until
    that time.  (Times and durations are integers that doubles hold
    exactly, with room for the sums: at most [2^52] in absolute value.) *)
Theorem getExpiry_is_later_than_now `{Host} (now minimum : Z)
    (dateString grace : value) :
  (date_number dateString = VNaN \/
   exists d, date_number dateString = VNum d /\ safe_integer d) ->
  (exists g, to_number grace = Some g /\ safe_number g) ->
  safe_integer now ->
  safe_integer minimum ->
  (0 < minimum)%Z ->
  exists expiry,
    fetch_js.getExpiry now dateString (VNum minimum) grace = VNum expiry /\
    (now < expiry)%Z /\
    (expiry <= 2 ^ 53)%Z /\
    forall body at_,
      safe_integer at_ ->
      exists stamped,
        fetch_js.set_expiry (VObj body) (VNum expiry) = Ok (VObj stamped) /\
        fetch_js.hasExpired at_ (VObj stamped) fetch_js.EXPIRES_KEY
          = (expiry <? at_)%Z.
Proof.
  intros Hdate (g & Hg & Hsafe) Hnow Hminimum Hmin.
  assert (Hstamp : forall expiry body at_,
    exists stamped,
      fetch_js.set_expiry (VObj body) (VNum expiry) = Ok (VObj stamped) /\
      fetch_js.hasExpired at_ (VObj stamped) fetch_js.EXPIRES_KEY
        = (expiry <? at_)%Z).
  { intros expiry body at_. eexists. split; [reflexivity |].
    unfold fetch_js.hasExpired, obj_has. cbn [truthy andb].
    by rewrite obj_get_set_eq, obj_read_set_eq. }
  assert (Hfallback : (now < now + minimum)%Z /\ (now + minimum <= 2 ^ 53)%Z).
  { unfold safe_integer in *. lia. }
  assert (Hlate : exists e, fetch_js.getExpiry now dateString (VNum minimum) grace
                              = VNum e /\ (now < e)%Z /\ (e <= 2 ^ 53)%Z).
  { unfold fetch_js.getExpiry, js_plus, js_gt. rewrite Hg.
    destruct Hdate as [-> | (d & -> & Hd)]; cbn [to_number].
    - exists (now + minimum)%Z. split; [| done].
      by destruct g.
    - destruct g as [| | |g| | | | | | |];
        try (exists (now + minimum)%Z; split; [done | done]).
      cbn [to_number]. destruct (now <? d + g)%Z eqn:E.
      + exists (d + g)%Z. split; [done |]. apply Z.ltb_lt in E.
        split; [done |]. unfold safe_number, safe_integer in *. lia.
      + exists (now + minimum)%Z. split; [done | done]. }
  destruct Hlate as (e & He & Hlt & Hle).
  exists e. split; [exact He | split; [exact Hlt | split; [exact Hle |]]].
  intros body at_ _. apply Hstamp.
Qed.

Lemma getExpiry_is_later_than_now_witness :
  (@date_number server_host (VStr "yesterday") = VNaN \/
     exists d, @date_number server_host (VStr "yesterday") = VNum d /\
               safe_integer d) /\
  (exists g, to_number VUndefined = Some g /\ safe_number g) /\
  safe_integer 1000 /\
  safe_integer 60000 /\
  (0 < 60000)%Z /\
  exists expiry,
    @fetch_js.getExpiry server_host 1000 (VStr "yesterday") (VNum 60000)
      VUndefined = VNum expiry /\
    (1000 < expiry)%Z.
Proof.
  assert (Hdate : @date_number server_host (VStr "yesterday") = VNaN \/
            exists d, @date_number server_host (VStr "yesterday") = VNum d /\
                      safe_integer d)
    by (left; reflexivity).
  assert (Hgrace : exists g, to_number VUndefined = Some g /\ safe_number g)
    by (by exists VNaN).
  assert (Hnow : safe_integer 1000) by (unfold safe_integer; lia).
  assert (Hminimum : safe_integer 60000) by (unfold safe_integer; lia).
  assert (Hmin : (0 < 60000)%Z) by lia.
  split; [exact Hdate | split; [exact Hgrace | split; [exact Hnow |
    split; [exact Hminimum | split; [exact Hmin |]]]]].
  destruct (@getExpiry_is_later_than_now server_host 1000 60000
              (VStr "yesterday") VUndefined Hdate Hgrace Hnow Hminimum Hmin)
    as (expiry & He & Hlt & _).
  exists expiry. split; [exact He | exact Hlt].
Defined.

(** X24. A value never expires unless it is a mapping that carries an
    expiry, and expiry is for good: a value without the expiry property has
    not expired at any time, and a value whose expiry is a number, once
    expired, is expired at every later time. *)
Theorem expiry_is_for_good `{Host} (now later : Z) (obj : value) :
  (now <= later)%Z ->
  (forall o, obj = VObj o ->
     to_number (obj_read o fetch_js.EXPIRES_KEY) <> None) ->
  ((forall o, obj = VObj o -> obj_get o fetch_js.EXPIRES_KEY = None) ->
   fetch_js.hasExpired now obj fetch_js.EXPIRES_KEY = false) /\
  (fetch_js.hasExpired now obj fetch_js.EXPIRES_KEY = true ->
   fetch_js.hasExpired later obj fetch_js.EXPIRES_KEY = true).
Proof.
  intros Hle Hnum. unfold fetch_js.hasExpired. split.
  - intros Hnone. destruct obj; try (by rewrite andb_false_r).
    unfold obj_has. rewrite (Hnone _ eq_refl). by rewrite andb_false_r.
  - destruct obj; try (by rewrite andb_false_r).
    specialize (Hnum _ eq_refl). cbn [truthy andb].
    destruct (obj_has fields fetch_js.EXPIRES_KEY); [| done]. cbn [andb].
    unfold js_gt. cbn [to_number].
    destruct (to_number (obj_read fields fetch_js.EXPIRES_KEY)) as [e|]; [| done].
    destruct e; try done. intros Hlt. apply Z.ltb_lt in Hlt. apply Z.ltb_lt. lia.
Qed.

Lemma expiry_is_for_good_witness :
  let cached := VObj [("beep", VStr "foo"); ("__expires", VNum 5000)] in
  (6000 <= 7000)%Z /\
  (forall o, cached = VObj o ->
     to_number (obj_read o fetch_js.EXPIRES_KEY) <> None) /\
  @fetch_js.hasExpired server_host 6000 cached fetch_js.EXPIRES_KEY = true /\
  @fetch_js.hasExpired server_host 7000 cached fetch_js.EXPIRES_KEY = true.
Proof.
  intros cached.
  assert (Hle : (6000 <= 7000)%Z) by lia.
  assert (Hnum : forall o, cached = VObj o ->
            to_number (obj_read o fetch_js.EXPIRES_KEY) <> None).
  { intros o [= <-]. done. }
  assert (Hnow : @fetch_js.hasExpired server_host 6000 cached
                   fetch_js.EXPIRES_KEY = true) by reflexivity.
  split; [exact Hle | split; [exact Hnum | split; [exact Hnow |]]].
  exact (proj2 (@expiry_is_for_good server_host 6000 7000 cached Hle Hnum) Hnow).
Defined.

(** ** [lib/methods/fetch.js]: [fetch] and [doFetch] *)

(** X25. Without a key, or without a url, [fetch] never calls the
    transport and never rejects.  Without a key it returns a promise
    already resolved with no body and the status 500.  With a key and no
    url it reads the key: if reading throws so does [fetch]; otherwise its
    promise is already resolved, its body is the value the store holds at
    the key ([undefined] where it holds nothing), with no error, and the
    status is 200 when that value is present and unexpired, 500 otherwise.
    Settling the promise leaves the store as it was. *)
Theorem fetch_without_a_key_or_a_url_makes_no_call `{Host}
    (max_hops : nat) (now : Z) (st : DataStore.t) (k url options : value) :
  truthy k = false \/ truthy url = false ->
  match (if truthy k then methods.get max_hops st k else Ok VUndefined) with
  | Throw e => fetch_js.fetch max_hops now st k url options = Throw e
  | Ok held =>
      let status :=
        if negb (truthy k) || negb (truthy held)
           || fetch_js.hasExpired now held fetch_js.EXPIRES_KEY
        then VNum 500 else VNum 200 in
      let r :=
        {| fetch_js.body := held; fetch_js.duration := VNum 0;
           fetch_js.error := None;
           fetch_js.headers := VObj [("status", status)];
           fetch_js.key := k |} in
      fetch_js.fetch max_hops now st k url options = Ok (fetch_js.Settled r) /\
      fetch_js.transport_calls (fetch_js.Settled r) = [] /\
      forall later st' answer,
        fetch_js.settle max_hops later st' (fetch_js.Settled r) answer
          = (st', Resolved r)
  end.
Proof.
  intros Hmissing. unfold fetch_js.fetch.
  destruct (truthy k) eqn:Hk; cbn [negb orb].
  - destruct Hmissing as [Hf|Hurl]; [discriminate Hf |].
    unfold fetch_js.doFetch.
    destruct (methods.get max_hops st k) as [v|err]; [| done].
    cbn [mbind result_bind]. rewrite Hurl. cbn [negb].
    by destruct (negb (truthy v) || fetch_js.hasExpired now v fetch_js.EXPIRES_KEY).
  - done.
Qed.

Lemma fetch_without_a_key_or_a_url_makes_no_call_witness :
  (truthy (VStr "beep") = false \/ truthy VUndefined = false) /\
  @fetch_js.fetch server_host 8 1000 fresh_store (VStr "beep") VUndefined
     VUndefined
    = Ok (fetch_js.Settled
            {| fetch_js.body :=
                 VObj [("beep", VStr "foo"); ("__expires", VNum 5000)];
               fetch_js.duration := VNum 0;
               fetch_js.error := None;
               fetch_js.headers := VObj [("status", VNum 200)];
               fetch_js.key := VStr "beep" |}) /\
  @fetch_js.fetch server_host 8 6000 fresh_store (VStr "beep") VUndefined
     VUndefined
    = Ok (fetch_js.Settled
            {| fetch_js.body :=
                 VObj [("beep", VStr "foo"); ("__expires", VNum 5000)];
               fetch_js.duration := VNum 0;
               fetch_js.error := None;
               fetch_js.headers := VObj [("status", VNum 500)];
               fetch_js.key := VStr "beep" |}) /\
  @fetch_js.fetch server_host 8 1000 fresh_store (VStr "boop") VUndefined
     VUndefined
    = Ok (fetch_js.Settled
            {| fetch_js.body := VUndefined;
               fetch_js.duration := VNum 0;
               fetch_js.error := None;
               fetch_js.headers := VObj [("status", VNum 500)];
               fetch_js.key := VStr "boop" |}).
Proof.
  assert (Hmissing : forall k, truthy k = false \/ truthy VUndefined = false)
    by (intros k; right; reflexivity).
  split; [exact (Hmissing (VStr "beep")) | split; [| split]].
  - exact (proj1 (@fetch_without_a_key_or_a_url_makes_no_call server_host 8 1000
                    fresh_store (VStr "beep") VUndefined VUndefined
                    (Hmissing (VStr "beep")))).
  - exact (proj1 (@fetch_without_a_key_or_a_url_makes_no_call server_host 8 6000
                    fresh_store (VStr "beep") VUndefined VUndefined
                    (Hmissing (VStr "beep")))).
  - exact (proj1 (@fetch_without_a_key_or_a_url_makes_no_call server_host 8 1000
                    fresh_store (VStr "boop") VUndefined VUndefined
                    (Hmissing (VStr "boop")))).
Defined.

(** X26. Under [staleWhileRevalidate] an expired value is served at once:
    [fetch] makes its one call to the transport, for the key and the url
    given, and returns a promise already resolved with the stale value and
    the status 200; whatever the transport answers later, even a failure,
    the promise stays resolved with that response. *)
Theorem a_stale_value_is_served_while_revalidating `{Host}
    (max_hops : nat) (now : Z) (st : DataStore.t) (k url options v : value) :
  truthy k = true -> truthy url = true ->
  methods.get max_hops st k = Ok v ->
  truthy v = true ->
  fetch_js.hasExpired now v fetch_js.EXPIRES_KEY = true ->
  truthy (obj_read (assign [] [fetch_js.DEFAULT_LOAD_OPTIONS; options])
            "staleWhileRevalidate") = true ->
  let current :=
    {| fetch_js.body := v; fetch_js.duration := VNum 0;
       fetch_js.error := None;
       fetch_js.headers := VObj [("status", VNum 200)];
       fetch_js.key := k |} in
  exists lc,
    fetch_js.fetch max_hops now st k url options
      = Ok (fetch_js.Revalidating current lc v) /\
    fetch_js.transport_calls (fetch_js.Revalidating current lc v) = [lc] /\
    fetch_js.load_key lc = k /\ fetch_js.load_url lc = url /\
    forall later st' answer,
      (fetch_js.settle max_hops later st'
         (fetch_js.Revalidating current lc v) answer).2 = Resolved current.
Proof.
  intros Hk Hurl Hget Hv Hexp Hswr current.
  exists {| fetch_js.load_key := k; fetch_js.load_url := url;
            fetch_js.load_options :=
              obj_set (assign [] [fetch_js.DEFAULT_LOAD_OPTIONS; options])
                "id" k |}.
  split; [| split; [reflexivity | split; [reflexivity |
    split; [reflexivity | done]]]].
  unfold fetch_js.fetch. rewrite Hk. cbn [negb].
  unfold fetch_js.doFetch. rewrite Hget. cbn [mbind result_bind].
  rewrite Hv, Hexp, Hurl, Hswr. cbn [negb orb andb]. reflexivity.
Qed.

Lemma a_stale_value_is_served_while_revalidating_witness :
  let options := VObj [("staleWhileRevalidate", VBool true)] in
  let v := VObj [("beep", VStr "foo"); ("__expires", VNum 5000)] in
  let current :=
    {| fetch_js.body := v; fetch_js.duration := VNum 0;
       fetch_js.error := None;
       fetch_js.headers := VObj [("status", VNum 200)];
       fetch_js.key := VStr "beep" |} in
  truthy (VStr "beep") = true /\
  truthy (VStr "http://localhost/beep") = true /\
  methods.get 8 fresh_store (VStr "beep") = Ok v /\
  truthy v = true /\
  @fetch_js.hasExpired server_host 6000 v fetch_js.EXPIRES_KEY = true /\
  truthy (obj_read (assign [] [fetch_js.DEFAULT_LOAD_OPTIONS; options])
            "staleWhileRevalidate") = true /\
  exists lc,
    @fetch_js.fetch server_host 8 6000 fresh_store (VStr "beep")
      (VStr "http://localhost/beep") options
      = Ok (fetch_js.Revalidating current lc v) /\
    (@fetch_js.settle server_host 8 7000 fresh_store
       (fetch_js.Revalidating current lc v)
       (fetch_js.Failed (TransportError (VNum 500)))).2 = Resolved current.
Proof.
  intros options v current.
  assert (H1 : truthy (VStr "beep") = true) by reflexivity.
  assert (H2 : truthy (VStr "http://localhost/beep") = true) by reflexivity.
  assert (H3 : methods.get 8 fresh_store (VStr "beep") = Ok v) by reflexivity.
  assert (H4 : truthy v = true) by reflexivity.
  assert (H5 : @fetch_js.hasExpired server_host 6000 v fetch_js.EXPIRES_KEY
                 = true) by reflexivity.
  assert (H6 : truthy (obj_read (assign [] [fetch_js.DEFAULT_LOAD_OPTIONS; options])
                         "staleWhileRevalidate") = true) by reflexivity.
  split; [exact H1 | split; [exact H2 | split; [exact H3 | split; [exact H4 |
    split; [exact H5 | split; [exact H6 |]]]]]].
  destruct (@a_stale_value_is_served_while_revalidating server_host 8 6000
              fresh_store (VStr "beep") (VStr "http://localhost/beep") options v
              H1 H2 H3 H4 H5 H6) as (lc & Hfetch & _ & _ & _ & Hsettle).
  exists lc. split; [exact Hfetch | apply Hsettle].
Defined.


(** ** [lib/FetchableDataStore.js]: the registry of fetched keys *)

Lemma handled_fetch_keeps_the_store `{Host} (max_hops : nat) (now : Z)
    (st : DataStore.t) (args : list value) :
  (FetchableDataStore.handled_fetch max_hops now st args).1 = st.
Proof.
  unfold FetchableDataStore.handled_fetch, DataStore._routeHandledMethod.
  by destruct (DataStore.routed_arguments st "fetch" ["key"; "url"; "options"] args).
Qed.

(** X28. [fetch] registers the key it is asked for, and [abort()] reaches
    every registered key: after [fetch(key, ...)] with a non-empty string
    key (one that is no member of [Object.prototype]), whether the call
    returns or throws, the key is registered and the tree is as it was, and
    a later [abort()] cancels the key's timer and empties the registry. *)
Theorem abort_reaches_a_fetched_key `{Host} (max_hops : nat) (now : Z)
    (st : DataStore.t) (s : string) (url options : value) :
  s <> "" -> s ∉ Object_prototype_names ->
  let st' := (FetchableDataStore.fetch max_hops now st (VStr s) url options).1 in
  truthy (obj_read (DataStore._fetchedKeys st') s) = true /\
  DataStore._data st' = DataStore._data st /\
  ClockCancelled (VStr s) ∈ (FetchableDataStore.abort st' VUndefined).1.2 /\
  DataStore._fetchedKeys (FetchableDataStore.abort st' VUndefined).1.1 = [].
Proof.
  intros Hs Hown st'.
  assert (Hst' : st' = FetchableDataStore.mark_fetched st s).
  { unfold st', FetchableDataStore.fetch. cbn [truthy].
    apply String.eqb_neq in Hs. rewrite Hs. cbn [negb].
    pose proof (handled_fetch_keeps_the_store max_hops now
                  (FetchableDataStore.mark_fetched st s)
                  [VStr s; url;
                   VObj (assign [] [FetchableDataStore.DEFAULT_LOAD_OPTIONS; options])])
      as Hkeep.
    by destruct (FetchableDataStore.handled_fetch _ _ _ _) as [st1 [pl|err]]. }
  assert (Hmarked : truthy (obj_read (DataStore._fetchedKeys st') s) = true).
  { rewrite Hst'. unfold FetchableDataStore.mark_fetched, obj_truthy.
    destruct (obj_get (DataStore._fetchedKeys st) s) as [x|] eqn:Hget.
    - destruct (truthy x) eqn:Ht; cbn [negb].
      + unfold obj_read. by rewrite Hget.
      + cbn [DataStore._fetchedKeys DataStore.with_fetchedKeys].
        by rewrite obj_read_set_eq.
    - rewrite (proj2 (inherited_false s) Hown). cbn [negb].
      cbn [DataStore._fetchedKeys DataStore.with_fetchedKeys].
      by rewrite obj_read_set_eq. }
  split; [exact Hmarked | split; [| split; [| done]]].
  - rewrite Hst'. apply mark_fetched_keeps_the_rest.
  - unfold FetchableDataStore.abort. cbn [truthy negb fst snd].
    apply elem_of_app. right.
    apply list_elem_of_fmap. exists s. split; [done |].
    unfold obj_read in Hmarked.
    destruct (obj_get (DataStore._fetchedKeys st') s) as [x|] eqn:Hget;
      [| discriminate Hmarked].
    by apply (obj_get_Some_keys _ _ x).
Qed.

Lemma abort_reaches_a_fetched_key_witness :
  let st' := (@FetchableDataStore.fetch server_host 8 1000 readme_store
                (VStr "boop") (VStr "http://localhost/boop") VUndefined).1 in
  "boop" <> "" /\ ("boop" ∉ Object_prototype_names) /\
  DataStore._fetchedKeys st' = [("boop", VBool true)] /\
  (@FetchableDataStore.abort server_host st' VUndefined).1.2
    = [ClockCancelled (VStr "boop")] /\
  ClockCancelled (VStr "boop")
    ∈ (@FetchableDataStore.abort server_host st' VUndefined).1.2.
Proof.
  intros st'.
  assert (Hs : "boop" <> "") by done.
  assert (Hn : "boop" ∉ Object_prototype_names).
  { apply (bool_decide_unpack _). vm_compute. exact I. }
  split; [exact Hs | split; [exact Hn | split; [reflexivity |
    split; [reflexivity |]]]].
  exact (proj1 (proj2 (proj2
           (@abort_reaches_a_fetched_key server_host 8 1000 readme_store "boop"
              (VStr "http://localhost/boop") VUndefined Hs Hn)))).
Defined.

Lemma with_fetchedKeys_twice (st : DataStore.t) (a b : props) :
  DataStore.with_fetchedKeys (DataStore.with_fetchedKeys st a) b
    = DataStore.with_fetchedKeys st b.
Proof. reflexivity. Qed.

Lemma abort_keys_spec `{Host} (ks : list string) (st : DataStore.t) :
  FetchableDataStore.abort_keys st (VStr <$> ks) =
    (DataStore.with_fetchedKeys st
       (List.filter (fun kv => negb (bool_decide (kv.1 ∈ ks)))
                    (DataStore._fetchedKeys st)),
     ks ≫= (fun k => (if isBrowser then [AgentAborted (VStr k)] else [])
                      ++ [ClockCancelled (VStr k)])).
Proof.
  revert st. induction ks as [|k ks IH]; intros st.
  - cbn [fmap list_fmap FetchableDataStore.abort_keys mbind list_bind].
    f_equal. rewrite (List.filter_ext _ (fun _ => true)).
    + rewrite filter_all. by destruct st.
    + intros kv. rewrite bool_decide_eq_false_2; [done | apply not_elem_of_nil].
  - cbn [fmap list_fmap FetchableDataStore.abort_keys FetchableDataStore.abort_key].
    rewrite IH. cbn [DataStore._fetchedKeys DataStore.with_fetchedKeys].
    rewrite with_fetchedKeys_twice. f_equal.
    f_equal. unfold FetchableDataStore.obj_delete. rewrite filter_twice.
    apply List.filter_ext. intros [k' x]. cbn [fst].
    destruct (String.eqb k' k) eqn:E.
    + apply String.eqb_eq in E. subst k'. cbn [negb andb].
      rewrite bool_decide_eq_true_2; [done | by left].
    + apply String.eqb_neq in E. cbn [negb andb].
      destruct (decide (k' ∈ ks)) as [Hin|Hout].
      * rewrite !bool_decide_eq_true_2; [done | by right | done].
      * rewrite !bool_decide_eq_false_2; [done | | done].
        intros Hin. apply elem_of_cons in Hin as [?|?]; congruence.
Qed.

(** X29. [abort] called with keys unregisters exactly those keys: for a list
    of string keys, and for a single non-empty string key, the registry
    keeps every other key it held, in order; the timer of each key given is
    cancelled, in the order given and whether or not the key was
    registered; in a browser the key's network calls are aborted first, on
    a server none is; the tree is not touched. *)
Theorem abort_unregisters_the_given_keys `{Host} (st : DataStore.t)
    (ks : list string) :
  let remaining :=
    List.filter (fun kv => negb (bool_decide (kv.1 ∈ ks)))
                (DataStore._fetchedKeys st) in
  let effects :=
    ks ≫= (fun k => (if isBrowser then [AgentAborted (VStr k)] else [])
                     ++ [ClockCancelled (VStr k)]) in
  FetchableDataStore.abort st (VArr (VStr <$> ks))
    = (DataStore.with_fetchedKeys st remaining, effects, Ok ()) /\
  (forall s, s <> "" -> ks = [s] ->
     FetchableDataStore.abort st (VStr s)
       = (DataStore.with_fetchedKeys st remaining, effects, Ok ())) /\
  (forall k, obj_get remaining k
             = if bool_decide (k ∈ ks) then None
               else obj_get (DataStore._fetchedKeys st) k).
Proof.
  intros remaining effects. split; [| split].
  - unfold FetchableDataStore.abort. cbn [truthy negb].
    by rewrite abort_keys_spec.
  - intros s Hs ->. unfold FetchableDataStore.abort. cbn [truthy].
    apply String.eqb_neq in Hs. rewrite Hs. cbn [negb].
    by rewrite (abort_keys_spec [s]).
  - intros k. unfold remaining.
    induction (DataStore._fetchedKeys st) as [|[k' x] fk IH].
    { by destruct (bool_decide (k ∈ ks)). }
    cbn [List.filter fst].
    destruct (decide (k' ∈ ks)) as [Hin|Hout].
    + rewrite (bool_decide_eq_true_2 _ Hin). cbn [negb]. rewrite IH.
      cbn [obj_get]. destruct (String.eqb k' k) eqn:E; [| done].
      apply String.eqb_eq in E. subst k'.
      by rewrite (bool_decide_eq_true_2 _ Hin).
    + rewrite (bool_decide_eq_false_2 _ Hout). cbn [negb obj_get].
      destruct (String.eqb k' k) eqn:E.
      * apply String.eqb_eq in E. subst k'.
        by rewrite (bool_decide_eq_false_2 _ Hout).
      * exact IH.
Qed.

(** ** [lib/DataStore.js]: batches of [set] *)

Lemma for_each_app {A : Type} (f : DataStore.t -> A -> DataStore.call value)
    (st : DataStore.t) (l1 l2 : list A) :
  DataStore.for_each f st (l1 ++ l2) =
    match DataStore.for_each f st l1 with
    | (st1, Ok _) => DataStore.for_each f st1 l2
    | (st1, Throw e) => (st1, Throw e)
    end.
Proof.
  revert st. induction l1 as [|a l1 IH]; intros st; [done |].
  cbn [app DataStore.for_each].
  destruct (f st a) as [st1 [u|e]]; [apply IH | done].
Qed.

(** X30. A batch of [set] is not a transaction.  When an entry of an array
    batch is not a list, the call throws a [TypeError] at that entry: the
    entries before it have been written and stay written, the entries after
    it are not attempted. *)
Theorem a_batch_of_set_is_not_undone `{Host} (st written : DataStore.t)
    (before after : list value) (entry v options returned : value) :
  DataStore.isWritable st = true ->
  HandlerContext.spread entry = None ->
  Store.set st (VArr before) v options = (written, Ok returned) ->
  Store.set st (VArr (before ++ entry :: after)) v options
    = (written, Throw TypeError).
Proof.
  intros Hw Hentry. unfold Store.set. rewrite Hw. cbn [negb truthy orb].
  intros Hbefore. rewrite for_each_app, Hbefore.
  cbn [DataStore.for_each]. by rewrite Hentry.
Qed.

Lemma a_batch_of_set_is_not_undone_witness :
  let st := store_of (VObj []) in
  let written := DataStore.with_data st (VObj [("foo", VNum 1)]) in
  DataStore.isWritable st = true /\
  HandlerContext.spread (VNum 7) = None /\
  @Store.set server_host st (VArr [VArr [VStr "foo"; VNum 1]]) VUndefined
     VUndefined = (written, Ok VUndefined) /\
  @Store.set server_host st
     (VArr ([VArr [VStr "foo"; VNum 1]] ++ VNum 7 :: [VArr [VStr "bar"; VNum 2]]))
     VUndefined VUndefined = (written, Throw TypeError).
Proof.
  intros st written.
  assert (Hw : DataStore.isWritable st = true) by reflexivity.
  assert (Hentry : HandlerContext.spread (VNum 7) = None) by reflexivity.
  assert (Hbefore : @Store.set server_host st (VArr [VArr [VStr "foo"; VNum 1]])
                      VUndefined VUndefined = (written, Ok VUndefined))
    by reflexivity.
  split; [exact Hw | split; [exact Hentry | split; [exact Hbefore |]]].
  exact (@a_batch_of_set_is_not_undone server_host st written
           [VArr [VStr "foo"; VNum 1]] [VArr [VStr "bar"; VNum 2]]
           (VNum 7) VUndefined VUndefined VUndefined Hw Hentry Hbefore).
Defined.
